(** * vue-ssr: the template-to-Go compiler of package [vuessr]

    A shallow embedding of the semantic lifter ([parseList]) and of the code
    generator ([GenCode], [OptionsGen.ToGoCode], [genVIf], [genVSlot],
    [genVFor], [injectVal]) together with the properties the specification
    states about them.

    Go strings are byte strings: they are modelled by [string] (a list of
    8-bit characters).  Go maps are modelled by [gmap string string]; the
    places where the source ranges over a map take the iteration order from
    an explicit schedule, because the Go language leaves that order open. *)

From stdpp Require Import base gmap strings list fin_maps.
From Stdlib Require Import Ascii.
From Stdlib Require String.

Local Open Scope stdpp_scope.
Local Set Warnings "-register-all,-clear-no-such-hyp".

(** ** Characters that cannot be typed inside a literal *)

Definition dq : string := String "034"%char EmptyString.   (* the double quote *)
Definition nl : string := String "010"%char EmptyString.   (* line feed *)
Definition bs : string := String "092"%char EmptyString.   (* backslash *)

(** ** Results and panics *)

(** A Go call either returns or does not return normally: an [error] result
    and a [panic] are both carried by [Err]. *)
Inductive Result (A : Type) : Type :=
  | Ok (a : A)
  | Err (msg : string).
Arguments Ok {A} a.
Arguments Err {A} msg.

Definition rbind {A B} (r : Result A) (f : A → Result B) : Result B :=
  match r with Ok a => f a | Err m => Err m end.

Definition rmap {A B} (f : A → B) (r : Result A) : Result B :=
  rbind r (λ a, Ok (f a)).

(** ** Package [strings] of the Go standard library, as far as it is used *)

Module Strings.

Definition HasPrefix (s p : string) : bool := String.prefix p s.

Definition mem (c : ascii) (cutset : string) : bool :=
    bool_decide (c ∈ String.list_ascii_of_string cutset).

  (** [Replace s old new -1] for a non-empty [old]: scan left to right, the
      matches do not overlap.  [skip] counts the bytes of the current match
      that are still to be passed over. *)
Fixpoint replace_go (old new s : string) (skip : nat) : string :=
    match s with
    | EmptyString => EmptyString
    | String c s' =>
        match skip with
        | S k => replace_go old new s' k
        | O =>
            if String.prefix old s
            then new +:+ replace_go old new s' (String.length old - 1)
            else String c (replace_go old new s' 0)
        end
    end.

Definition ReplaceAll (s old new : string) : string := replace_go old new s 0.

  (** [Split s sep] for a non-empty [sep].  [cur] is the piece being read. *)
Fixpoint split_go (sep s : string) (skip : nat) (cur : string) : list string :=
    match s with
    | EmptyString => [cur]
    | String c s' =>
        match skip with
        | S k => split_go sep s' k cur
        | O =>
            if String.prefix sep s
            then cur :: split_go sep s' (String.length sep - 1) EmptyString
            else split_go sep s' 0 (cur +:+ String c EmptyString)
        end
    end.

Definition Split (s sep : string) : list string := split_go sep s 0 EmptyString.

  (** [Index s sub] for a non-empty [sub]: where [sub] first occurs. *)
Fixpoint Index (s sub : string) : option nat :=
  match s with
  | EmptyString => None
  | String _ s' => if String.prefix sub s then Some 0 else S <$> Index s' sub
  end.

(** [Contains s sub] is [Index(s, sub) >= 0]. *)
Definition Contains (s sub : string) : bool := bool_decide (Index s sub ≠ None).

Fixpoint TrimLeft (s cutset : string) : string :=
    match s with
    | EmptyString => EmptyString
    | String c s' => if mem c cutset then TrimLeft s' cutset else s
    end.

Fixpoint TrimRight (s cutset : string) : string :=
    match s with
    | EmptyString => EmptyString
    | String c s' =>
        match TrimRight s' cutset with
        | EmptyString => if mem c cutset then EmptyString else String c EmptyString
        | t => String c t
        end
    end.

Definition Trim (s cutset : string) : string :=
    TrimRight (TrimLeft s cutset) cutset.

Fixpoint Join (l : list string) (sep : string) : string :=
    match l with
    | [] => EmptyString
    | [x] => x
    | x :: l' => x +:+ sep +:+ Join l' sep
    end.

End Strings.

(** ** The HTML text normaliser of [hNodeToElement] *)

(** The class [\s] of Go regular expressions: tab, line feed, form feed,
    carriage return and space. *)
Definition is_space (c : ascii) : bool :=
  match c with
  | "009" | "010" | "012" | "013" | " " => true
  | _ => false
  end%char.

(** [regexp.MustCompile(`\s+`).ReplaceAllString(text, " ")]: every maximal run
    of white space becomes one space.  [in_run] tells that the previous byte
    belonged to a run already replaced. *)
Fixpoint collapse_go (in_run : bool) (s : string) : string :=
  match s with
  | EmptyString => EmptyString
  | String c s' =>
      if is_space c
      then (if in_run then collapse_go true s'
            else String " "%char (collapse_go true s'))
      else String c (collapse_go false s')
  end.

Definition collapseSpaces (s : string) : string := collapse_go false s.

(** The text of a [html.TextNode]: line 148 to 150 of the parser. *)
Definition normalizeText (data : string) : string :=
  collapseSpaces (Strings.ReplaceAll data nl " ").

(** The test [text == " " || text == ""] that sets [omitNode]. *)
Definition omitNode (text : string) : bool :=
  bool_decide (text = " ") || bool_decide (text = EmptyString).

(** ** Data model shared by the lifter and the generator *)

Module Directive.
Record t := Build {
    Name : string;    (* v-animate *)
    Value : string;   (* {'a': 1} *)
    Arg : string      (* v-set:arg *)
  }.
End Directive.

Module VFor.
Record t := Build {
    ArrayKey : string;
    ItemKey : string;
    IndexKey : string
  }.
End VFor.

Module VSlot.
Record t := Build {
    SlotName : string;
    PropsKey : string
  }.
End VSlot.

(** An [ElseIf] points to the element it guards; [E] is the type of that
    reference. *)
Module ElseIf.
Record t (E : Type) := Build {
    Types : string;       (* else / elseif *)
    Condition : string;
    VueElement : E
  }.
Arguments Build {E}.
Arguments Types {E}.
Arguments Condition {E}.
Arguments VueElement {E}.
End ElseIf.

Module VIf.
Record t (E : Type) := Build {
    Condition : string;
    ElseIf : list (ElseIf.t E)
  }.
Arguments Build {E}.
Arguments Condition {E}.
Arguments ElseIf {E}.

  (** [func (p *VIf) AddElseIf(v *ElseIf)] *)
Definition AddElseIf {E} (p : t E) (v : ElseIf.t E) : t E :=
    {| Condition := Condition p; ElseIf := ElseIf p ++ [v] |}.
End VIf.

(** ** [type Props map[string]string] and its methods *)

Module Props.

Abbreviation t := (gmap string string).

(** [Omit], [Only] and [CanBeAttr] range over the receiver and copy entries
    into a fresh map.  Each loop is modelled on the list of entries in the
    order the range statement yields them. *)

Definition Omit_loop (key : list string) (entries : list (string * string)) : t :=
  foldl (λ a kv, if bool_decide (kv.1 ∈ key) then a else <[kv.1 := kv.2]> a) ∅ entries.

Definition Only_loop (key : list string) (entries : list (string * string)) : t :=
  foldl (λ a kv, if negb (bool_decide (kv.1 ∈ key)) then a else <[kv.1 := kv.2]> a) ∅ entries.

Definition html : gset string := {[ "id"; "src" ]}.

Definition CanBeAttr_loop (entries : list (string * string)) : t :=
  foldl (λ a kv,
           if negb (bool_decide (kv.1 ∈ html)) then a
           else if negb (Strings.HasPrefix kv.1 "data-") then a
           else <[kv.1 := kv.2]> a) ∅ entries.

(** The methods on the canonical enumeration of the map. *)
Definition Omit (p : t) (key : list string) : t := Omit_loop key (map_to_list p).
Definition Only (p : t) (key : list string) : t := Only_loop key (map_to_list p).
Definition CanBeAttr (p : t) : t := CanBeAttr_loop (map_to_list p).

Definition Get (p : t) (key : string) : string := default EmptyString (p !! key).

End Props.

(** ** The raw HTML tree *)

(** [html.Attribute] of golang.org/x/net/html. *)
Module Attribute.
Record t := Build {
    Namespace : string;
    Key : string;
    Val : string
  }.
End Attribute.

Module Element.
Inductive t := Build {
    Text : string;
    TagName : string;
    Attrs : list Attribute.t;
    Children : list t;
    Root : bool
  }.
End Element.

(** ** The semantic lifter: [VueElementParser.parseList] *)

Module Lifter.

  (** The tree the lifter builds.  Go links an [ElseIf] to its element by a
      pointer into the array [vs] of the sibling level under construction;
      here the link is the index of that element in [vs].  An [ElseIf] whose
      pointer is still nil has [None]. *)
Inductive VueElement := MkVueElement {
    IsRoot : bool;
    TagName : string;
    Text : string;
    Attrs : gmap string string;
    AttrsKeys : list string;
    Directives : list Directive.t;
    ElseIfConditions : list (ElseIf.t (option nat));
    Class : list string;
    Style : gmap string string;
    StyleKeys : list string;
    Props : Props.t;
    Children : list VueElement;
    VIf : option (VIf.t (option nat));
    VFor : option VFor.t;
    VSlot : option VSlot.t;
    VElse : bool;
    VElseIf : bool;
    VHtml : string;
    VText : string
  }.

  (** Lines 294 to 317: the operand of [v-for].  [ss[1]] panics when the
      split has one piece only. *)
Definition parseVFor (val : string) : Result VFor.t :=
    let ss := Strings.Split val " in " in
    match ss !! 1 with
    | None => Err "index out of range [1] with length 1"
    | Some ss1 =>
        let arrayKey := Strings.Trim ss1 " " in
        let left := Strings.Trim (default EmptyString (ss !! 0)) " " in
        if Strings.Contains left ","
        then
          let left := Strings.Trim left "()" in
          let ss := Strings.Split left "," in
          match ss !! 1 with
          | None => Err "index out of range [1] with length 1"
          | Some t1 =>
              Ok {| VFor.ArrayKey := arrayKey;
                    VFor.ItemKey := Strings.Trim (default EmptyString (ss !! 0)) " ";
                    VFor.IndexKey := Strings.Trim t1 " " |}
          end
        else
          Ok {| VFor.ArrayKey := arrayKey; VFor.ItemKey := left;
                VFor.IndexKey := "$index" |}
    end.

  (** The local variables of one turn of the loop over the siblings (lines
      254 to 270), filled by the loop over the attributes. *)
Record Buckets := {
    props : gmap string string;
    ds : list Directive.t;
    class : list string;
    style : gmap string string;
    styleKeys : list string;
    attrs : gmap string string;
    attrsKeys : list string;
    vIf : option (VIf.t (option nat));
    vFor : option VFor.t;
    vSlot : option VSlot.t;
    vElse : option (ElseIf.t (option nat));
    vElseIf : option (ElseIf.t (option nat));
    vHtml : string;
    vText : string
  }.

Definition emptyBuckets : Buckets :=
    {| props := ∅; ds := []; class := []; style := ∅; styleKeys := [];
       attrs := ∅; attrsKeys := []; vIf := None; vFor := None; vSlot := None;
       vElse := None; vElseIf := None; vHtml := EmptyString; vText := EmptyString |}.

Section setters.
Context (b : Buckets).
Let B := Build_Buckets.
Definition set_props v := B v (ds b) (class b) (style b) (styleKeys b) (attrs b) (attrsKeys b) (vIf b) (vFor b) (vSlot b) (vElse b) (vElseIf b) (vHtml b) (vText b).
Definition set_ds v := B (props b) v (class b) (style b) (styleKeys b) (attrs b) (attrsKeys b) (vIf b) (vFor b) (vSlot b) (vElse b) (vElseIf b) (vHtml b) (vText b).
Definition set_class v := B (props b) (ds b) v (style b) (styleKeys b) (attrs b) (attrsKeys b) (vIf b) (vFor b) (vSlot b) (vElse b) (vElseIf b) (vHtml b) (vText b).
Definition set_style v k := B (props b) (ds b) (class b) v k (attrs b) (attrsKeys b) (vIf b) (vFor b) (vSlot b) (vElse b) (vElseIf b) (vHtml b) (vText b).
Definition set_attrs v k := B (props b) (ds b) (class b) (style b) (styleKeys b) v k (vIf b) (vFor b) (vSlot b) (vElse b) (vElseIf b) (vHtml b) (vText b).
Definition set_vIf v := B (props b) (ds b) (class b) (style b) (styleKeys b) (attrs b) (attrsKeys b) v (vFor b) (vSlot b) (vElse b) (vElseIf b) (vHtml b) (vText b).
Definition set_vFor v := B (props b) (ds b) (class b) (style b) (styleKeys b) (attrs b) (attrsKeys b) (vIf b) v (vSlot b) (vElse b) (vElseIf b) (vHtml b) (vText b).
Definition set_vSlot v := B (props b) (ds b) (class b) (style b) (styleKeys b) (attrs b) (attrsKeys b) (vIf b) (vFor b) v (vElse b) (vElseIf b) (vHtml b) (vText b).
Definition set_vElse v := B (props b) (ds b) (class b) (style b) (styleKeys b) (attrs b) (attrsKeys b) (vIf b) (vFor b) (vSlot b) v (vElseIf b) (vHtml b) (vText b).
Definition set_vElseIf v := B (props b) (ds b) (class b) (style b) (styleKeys b) (attrs b) (attrsKeys b) (vIf b) (vFor b) (vSlot b) (vElse b) v (vHtml b) (vText b).
Definition set_vHtml v := B (props b) (ds b) (class b) (style b) (styleKeys b) (attrs b) (attrsKeys b) (vIf b) (vFor b) (vSlot b) (vElse b) (vElseIf b) v (vText b).
Definition set_vText v := B (props b) (ds b) (class b) (style b) (styleKeys b) (attrs b) (attrsKeys b) (vIf b) (vFor b) (vSlot b) (vElse b) (vElseIf b) (vHtml b) v.
End setters.

  (** Lines 371 to 383: one declaration of a [style] attribute. *)
Definition styleDecl (b : Buckets) (v : string) : Buckets :=
    let v := Strings.Trim v " " in
    match Strings.Split v ":" with
    | [k; x] =>
        let key := Strings.Trim k " " in
        let val := Strings.Trim x " " in
        set_style b (<[key := val]> (style b)) (styleKeys b ++ [key])
    | _ => b
    end.

  (** Lines 272 to 392: the body of the loop over [e.Attrs]. *)
Definition classifyAttr (b : Buckets) (attr : Attribute.t) : Result Buckets :=
    let oriKey := Attribute.Key attr in
    let ss := Strings.Split oriKey ":" in
    let '(nameSpace, key) :=
      match ss with
      | [s0; s1] => (s0, s1)
      | _ => ("-", oriKey)
      end in
    let val := Attribute.Val attr in
    if bool_decide (nameSpace = "v-bind") || bool_decide (nameSpace = EmptyString) then
      Ok (set_props b (<[key := val]> (props b)))
    else if Strings.HasPrefix oriKey "v-" then
      if bool_decide (key = "v-for") then
        rbind (parseVFor val) (λ f, Ok (set_vFor b (Some f)))
      else if bool_decide (key = "v-if") then
        Ok (set_vIf b (Some {| VIf.Condition := Strings.Trim val " "; VIf.ElseIf := [] |}))
      else if bool_decide (nameSpace = "v-slot") then
        let slotName := key in
        let propsKey := if bool_decide (val = EmptyString) then "slotProps" else val in
        Ok (set_vSlot b (Some {| VSlot.SlotName := slotName; VSlot.PropsKey := propsKey |}))
      else if bool_decide (key = "v-else-if") then
        Ok (set_vElseIf b (Some {| ElseIf.Types := "elseif";
                                   ElseIf.Condition := Strings.Trim val " ";
                                   ElseIf.VueElement := None |}))
      else if bool_decide (key = "v-else") then
        Ok (set_vElse b (Some {| ElseIf.Types := "else";
                                 ElseIf.Condition := Strings.Trim val " ";
                                 ElseIf.VueElement := None |}))
      else if bool_decide (key = "v-html") then
        Ok (set_vHtml b (Strings.Trim val " "))
      else if bool_decide (key = "v-text") then
        Ok (set_vText b (Strings.Trim val " "))
      else
        let '(name, arg) :=
          if negb (bool_decide (nameSpace = "-")) then (nameSpace, key)
          else (key, EmptyString) in
        Ok (set_ds b (ds b ++ [ {| Directive.Name := name;
                                   Directive.Value := Strings.Trim val " ";
                                   Directive.Arg := arg |} ]))
    else if bool_decide (Attribute.Key attr = "class") then
      Ok (set_class b (class b ++
            filter (λ v, v ≠ EmptyString) (Strings.Split val " ")))
    else if bool_decide (Attribute.Key attr = "style") then
      Ok (foldl styleDecl b (Strings.Split val ";"))
    else
      let key := if negb (bool_decide (Attribute.Namespace attr = EmptyString))
                 then Attribute.Namespace attr +:+ ":" +:+ Attribute.Key attr
                 else Attribute.Key attr in
      Ok (set_attrs b (<[key := val]> (attrs b)) (attrsKeys b ++ [key])).

Fixpoint classifyAttrs (b : Buckets) (l : list Attribute.t) : Result Buckets :=
    match l with
    | [] => Ok b
    | attr :: l' => rbind (classifyAttr b attr) (λ b', classifyAttrs b' l')
    end.

  (** Lines 396 to 416. *)
Definition buildElement (e : Element.t) (b : Buckets) (ch : list VueElement)
      : VueElement :=
    {| IsRoot := Element.Root e;
       TagName := Element.TagName e;
       Text := Element.Text e;
       Attrs := attrs b;
       AttrsKeys := attrsKeys b;
       Directives := ds b;
       ElseIfConditions := [];
       Class := class b;
       Style := style b;
       StyleKeys := styleKeys b;
       Props := props b;
       Children := ch;
       VIf := vIf b;
       VFor := vFor b;
       VSlot := vSlot b;
       VElse := bool_decide (vElse b ≠ None);
       VElseIf := bool_decide (vElseIf b ≠ None);
       VHtml := vHtml b;
       VText := vText b |}.

Definition set_VIf (v : VueElement) (p : option (VIf.t (option nat))) : VueElement :=
    MkVueElement (IsRoot v) (TagName v) (Text v) (Attrs v) (AttrsKeys v)
      (Directives v) (ElseIfConditions v) (Class v) (Style v) (StyleKeys v)
      (Props v) (Children v) p (VFor v) (VSlot v) (VElse v) (VElseIf v)
      (VHtml v) (VText v).

  (** The state of the walk over one sibling level: the array [vs] as far as
      it is filled, and the cursor [ifVueEle] (nil is [None]). *)
Record Walk := {
    vs : list VueElement;
    ifVueEle : option nat
  }.

  (** [ifVueEle.VIf.AddElseIf(x)] with [x.VueElement = v], where [v] is new
      element number [i] and [ifVueEle] is element number [j]. *)
Definition addElseIfAt (j i : nat) (x : ElseIf.t (option nat)) (l : list VueElement)
      : Result (list VueElement) :=
    let x := {| ElseIf.Types := ElseIf.Types x;
                ElseIf.Condition := ElseIf.Condition x;
                ElseIf.VueElement := Some i |} in
    match l !! j with
    | Some w =>
        match VIf w with
        | Some p => Ok (<[j := set_VIf w (Some (VIf.AddElseIf p x))]> l)
        | None => Err "invalid memory address or nil pointer dereference"
        end
    | None => Err "invalid memory address or nil pointer dereference"
    end.

  (** Lines 418 to 444: the new element [v], number [i], is stored and the
      else-chain cursor is moved. *)
Definition linkElse (i : nat) (v : VueElement)
      (vElse vElseIf : option (ElseIf.t (option nat))) (w : Walk) : Result Walk :=
    let vs1 := vs w ++ [v] in
    let cur1 :=
      if bool_decide (VIf v ≠ None) then Some i
      else if bool_decide (vElse = None) && bool_decide (vElseIf = None) then None
      else ifVueEle w in
    rbind
      (match vElseIf with
       | Some x =>
           match cur1 with
           | None => Err "v-else-if must below v-if"
           | Some j => addElseIfAt j i x vs1
           end
       | None => Ok vs1
       end)
      (λ vs2,
        match vElse with
        | Some x =>
            match cur1 with
            | None => Err "v-else must below v-if"
            | Some j =>
                rbind (addElseIfAt j i x vs2) (λ vs3,
                  Ok {| vs := vs3; ifVueEle := None |})
            end
        | None => Ok {| vs := vs2; ifVueEle := cur1 |}
        end).

Section siblings.
Variable parseNode : Element.t → Result (Buckets * VueElement).

Fixpoint parseSiblings (es : list Element.t) (i : nat) (w : Walk)
        : Result (list VueElement) :=
      match es with
      | [] => Ok (vs w)
      | e :: es' =>
          rbind (parseNode e) (λ '(b, v),
          rbind (linkElse i v (vElse b) (vElseIf b) w) (λ w',
            parseSiblings es' (S i) w'))
      end.
End siblings.

  (** One turn of the loop up to line 416: classify the attributes, lift the
      children, build the element. *)
Fixpoint parseNode (e : Element.t) : Result (Buckets * VueElement) :=
    rbind (classifyAttrs emptyBuckets (Element.Attrs e)) (λ b,
    rbind (parseSiblings parseNode (Element.Children e) 0
             {| vs := []; ifVueEle := None |}) (λ ch,
      Ok (b, buildElement e b ch))).

Definition parseList (es : list Element.t) : Result (list VueElement) :=
    parseSiblings parseNode es 0 {| vs := []; ifVueEle := None |}.

(** *** Notions used to state the properties of the walk *)

(** The cursor, when set, points to an element of [vs] that carries a
    [v-if]. *)
Definition cursor_ok (w : Walk) : Prop :=
  ∀ j, ifVueEle w = Some j → ∃ u p, vs w !! j = Some u ∧ VIf u = Some p.

(** The entry as it is appended: its pointer is set to element [i]. *)
Definition pointTo (i : nat) (x : ElseIf.t (option nat)) : ElseIf.t (option nat) :=
  {| ElseIf.Types := ElseIf.Types x;
     ElseIf.Condition := ElseIf.Condition x;
     ElseIf.VueElement := Some i |}.

(** [vs] after the entry [x] went to the chain of element [j]. *)
Definition chained (j : nat) (u : VueElement) (p : VIf.t (option nat))
    (x : ElseIf.t (option nat)) (l : list VueElement) : list VueElement :=
  <[j := set_VIf u (Some (VIf.AddElseIf p x))]> l.

Definition plainNode (tag : string) (b : Buckets) : VueElement :=
  buildElement (Element.Build EmptyString tag [] [] false) b [].

(** What the lifter copies from the raw element, and the else marks. *)
Definition shape (v : VueElement) : string * string * bool :=
  (TagName v, Text v, IsRoot v).
Definition elseMarks (v : VueElement) : bool * bool := (VElse v, VElseIf v).
Definition rawShape (e : Element.t) : string * string * bool :=
  (Element.TagName e, Element.Text e, Element.Root e).

(** The panics of the lifter. *)
Definition lifterPanics : list string :=
  [ "index out of range [1] with length 1";
    "v-else-if must below v-if";
    "v-else must below v-if" ].

(** Element [j] of [l] has a [v-if] whose chain points to element [i]. *)
Definition linkedTo (l : list VueElement) (j i : nat) : Prop :=
  ∃ u p x, l !! j = Some u ∧ VIf u = Some p
           ∧ x ∈ VIf.ElseIf p ∧ ElseIf.VueElement x = Some i.

(** Every element of [l] that is marked as an else node is pointed to by
    the chain of some element of [l]. *)
Definition linkedElse (l : list VueElement) : Prop :=
  ∀ i v, l !! i = Some v → VElse v || VElseIf v = true → ∃ j, linkedTo l j i.

(** Raw elements for concrete templates. *)
Definition attr (k v : string) : Attribute.t := Attribute.Build EmptyString k v.
Definition tag (name : string) (attrs : list Attribute.t) : Element.t :=
  Element.Build EmptyString name attrs [] false.

End Lifter.

(** ** The code generator *)

Definition tab : string := String "009"%char EmptyString.

(** [type App struct { Components map[string]struct{} }]: a set of names. *)
Record App := { Components : gset string }.

Definition NewApp : App := {| Components := {[ "component"; "slot" ]} |}.

(** [func (a *App) Component(name string)] *)
Definition Component (a : App) (name : string) : App :=
  {| Components := {[ name ]} ∪ Components a |}.

(** A Go map is a reference: two variables may hold the same map, and a
    [delete] through one is seen through the other.  The only maps the
    generator writes to are the [Props] maps of the tree, so these live in a
    store and an element holds the address of its map.  An address that is
    not in the store is the nil map. *)
Definition loc := positive.

(** The Vue tree as the generator walks it: a finite tree in which an
    [ElseIf] holds the element it points to. *)
Inductive VueElement := MkVueElement {
  IsRoot : bool;
  TagName : string;
  Text : string;
  Attrs : gmap string string;
  AttrsKeys : list string;
  Directives : list Directive.t;
  ElseIfConditions : list (ElseIf.t VueElement);
  Class : list string;
  Style : gmap string string;
  StyleKeys : list string;
  Props : loc;
  Children : list VueElement;
  VIf : option (VIf.t VueElement);
  VFor : option VFor.t;
  VSlot : option VSlot.t;
  VElse : bool;
  VElseIf : bool;
  VHtml : string;
  VText : string
}.

(** The data [ToGoCode] works on.  The struct is a fresh value, its [Props]
    field is the same map as the element's. *)
Module OptionsGen.
Record t := Build {
  Props : loc;
  Attrs : gmap string string;
  Class : list string;
  Style : gmap string string;
  StyleKeys : list string;
  Slot : gmap string string;
  DefaultSlotCode : string;
  NamedSlotCode : gmap string string;
  Directives : list Directive.t
}.
End OptionsGen.

(** The state a run of the generator acts on: the store of [Props] maps and
    the number of range statements over a map executed so far. *)
Record Machine := {
  heap : gmap loc (gmap string string);
  ranged : nat
}.

(** A generator action: it ends in a panic or returns a value and a state. *)
Definition Gen (A : Type) : Type := Machine → Result (A * Machine).

Definition gret {A} (a : A) : Gen A := λ σ, Ok (a, σ).

Definition gbind {A B} (m : Gen A) (f : A → Gen B) : Gen B :=
  λ σ, match m σ with
       | Ok (a, σ') => f a σ'
       | Err msg => Err msg
       end.

Definition lift {A} (r : Result A) : Gen A :=
  λ σ, match r with Ok a => Ok (a, σ) | Err msg => Err msg end.

Notation "'let*' x ':=' m 'in' k" := (gbind m (λ x, k))
  (at level 10, x name, m at level 100, k at level 200).
Notation "'let*' ' p ':=' m 'in' k" :=
  (gbind m (λ x, match x with p => k end))
  (at level 10, p pattern, m at level 100, k at level 200).

(** [len(m)] and the contents of the map at an address. *)
Definition loadProps (l : loc) : Gen (gmap string string) :=
  λ σ, Ok (default ∅ (heap σ !! l), σ).

(** [delete(m, key)] on the map at address [l]. *)
Definition deleteKey (l : loc) (key : string) : Gen unit :=
  λ σ, Ok ((), {| heap := alter (delete key) l (heap σ); ranged := ranged σ |}).

(** Generated-code keys. *)
Definition DataKey : string := "this".
Definition SlotKey : string := "options.Slot".

Definition boolToStr (b : bool) : string := if b then "true" else "false".

(** [func sliceStringToGoCode(m []string) string] *)
Definition sliceStringToGoCode (m : list string) : string :=
  if bool_decide (length m = 0) then "nil"
  else "[]string{" +:+ dq +:+ Strings.Join m (dq +:+ "," +:+ dq) +:+ dq +:+ "}".

(** [func sliceToGoCode(m []string) string] *)
Definition sliceToGoCode (m : list string) : string :=
  foldl (λ c v, c +:+ dq +:+ v +:+ dq +:+ ", ") ("[]string" +:+ "{") m +:+ "}".

(** [func genVSlot(e *VSlot, srcCode string)] *)
Definition slotClosure (e : VSlot.t) (srcCode : string) : string :=
  "func(props map[string]interface{}) string{" +:+ nl +:+
  tab +:+ DataKey +:+ " := extendMap(map[string]interface{}{" +:+ dq +:+
    VSlot.PropsKey e +:+ dq +:+ ": props}, " +:+ DataKey +:+ ")" +:+ nl +:+
  "_ = " +:+ DataKey +:+ nl +:+
  "return " +:+ srcCode +:+ nl +:+
  "}".

Definition genVSlot (e : VSlot.t) (srcCode : string) : string * gmap string string :=
  (dq +:+ dq, {[ VSlot.SlotName e := slotClosure e srcCode ]}).

(** [func genVFor(e *VFor, srcCode string) (code string)] *)
Definition genVFor (e : VFor.t) (srcCode : string) : string :=
  let vfArray := VFor.ArrayKey e in
  let vfItem := VFor.ItemKey e in
  let vfIndex := VFor.IndexKey e in
  "func ()string{" +:+ nl +:+
  "  var c = " +:+ dq +:+ dq +:+ nl +:+
  nl +:+
  "  for index, item := range lookInterfaceToSlice(" +:+ DataKey +:+ ", " +:+
    dq +:+ vfArray +:+ dq +:+ ") {" +:+ nl +:+
  "    c += func(xdata map[string]interface{}) string{" +:+ nl +:+
  "        " +:+ DataKey +:+ " := extendMap(map[string]interface{}{" +:+ nl +:+
  "          " +:+ dq +:+ vfIndex +:+ dq +:+ ": index," +:+ nl +:+
  "          " +:+ dq +:+ vfItem +:+ dq +:+ ": item," +:+ nl +:+
  "        }, xdata)" +:+ nl +:+
  nl +:+
  "        return " +:+ srcCode +:+ nl +:+
  "    }(" +:+ DataKey +:+ ")" +:+ nl +:+
  "  }" +:+ nl +:+
  "return c" +:+ nl +:+
  "}()".

(** The regular expression [\{\{.+?\}\}] of [injectVal], read after the
    opening braces: the shortest non-empty run of bytes other than line feed
    that is followed by two closing braces.  Returns the run. *)
Fixpoint findClose (s : string) : option string :=
  match s with
  | EmptyString => None
  | String c s' =>
      if bool_decide (c = "010"%char) then None
      else if String.prefix "}}" s' then Some (String c EmptyString)
      else option_map (String c) (findClose s')
  end.

(** The two opening braces of a match; returns what follows them. *)
Definition openBraces (s : string) : option string :=
  match s with
  | String "{"%char (String "{"%char rest) => Some rest
  | _ => None
  end.

Section Generator.

(** The order in which the [n]-th range statement over a map yields the
    entries; Go leaves it open, any permutation may come. *)
Variable rangeOrder : nat → list (string * string) → list (string * string).

(** [ast_from_api.Js2Go(code, dataKey)], the expression transpiler: it is
    outside of this package and is taken as a parameter. *)
Variable Js2Go : string → string → Result string.

(** [getPropsClass], [getPropsStyle] and [genAttrCode] belong to the package
    but their file is not part of the sources at hand: they are parameters.
    They are given the contents of the props map; they return a string or
    panic. *)
Variable getPropsClass : Props.t → Result string.
Variable getPropsStyle : Props.t → Result string.
Variable genAttrCode : VueElement → Props.t → Result string.

(** [for k, v := range m]: the entries in the order of this run. *)
Definition rangeMap (m : gmap string string) : Gen (list (string * string)) :=
  λ σ, Ok (rangeOrder (ranged σ) (map_to_list m),
           {| heap := heap σ; ranged := S (ranged σ) |}).

(** [func mapStringToGoCode(m map[string]string) string] *)
Definition mapStringToGoCode (m : gmap string string) : Gen string :=
  if bool_decide (size m = 0) then gret "nil"
  else
    let* l := rangeMap m in
    gret (foldl (λ c kv, c +:+ dq +:+ kv.1 +:+ dq +:+ ": " +:+ dq +:+ kv.2 +:+ dq +:+ ",")
            ("map[string]string" +:+ "{") l +:+ "}").

(** [func mapGoCodeToCode(m map[string]string, valueType string) string]; the
    text for the entries in the order [l]. *)
Definition mapGoCodeToCode_text (valueType : string) (l : list (string * string)) : string :=
  foldl (λ c kv, c +:+ dq +:+ kv.1 +:+ dq +:+ ": " +:+ kv.2 +:+ ",")
    ("map[string]" +:+ valueType +:+ "{") l +:+ "}".

Definition mapGoCodeToCode (m : gmap string string) (valueType : string) : Gen string :=
  let* l := rangeMap m in
  gret (mapGoCodeToCode_text valueType l).

(** The loop of [mapJsCodeToCode]; a transpiler error ends in [log.Panicf]. *)
Fixpoint mapJsCodeToCode_loop (props : string) (l : list (string * string))
    : Result string :=
  match l with
  | [] => Ok props
  | (k, v) :: l' =>
      match Js2Go v DataKey with
      | Err err => Err (err +:+ ", " +:+ v)
      | Ok valueCode =>
          mapJsCodeToCode_loop
            (props +:+ dq +:+ k +:+ dq +:+ ": " +:+ valueCode +:+ ",") l'
      end
  end.

(** [func mapJsCodeToCode(m map[string]string) string] *)
Definition mapJsCodeToCode (m : gmap string string) : Gen string :=
  if bool_decide (size m = 0) then gret "nil"
  else
    let* l := rangeMap m in
    let* props := lift (mapJsCodeToCode_loop ("map[string]interface{}" +:+ "{") l) in
    gret (props +:+ "}").

(** The loop over [o.Directives] of [ToGoCode]. *)
Fixpoint directivesCode (dir : string) (l : list Directive.t) : Result string :=
  match l with
  | [] => Ok dir
  | v :: l' =>
      rbind (if bool_decide (Directive.Value v ≠ EmptyString)
             then Js2Go (Directive.Value v) DataKey
             else Ok "nil")
        (λ valueCode,
          directivesCode
            (dir +:+ "{Name: " +:+ dq +:+ Directive.Name v +:+ dq +:+
               ", Value: " +:+ valueCode +:+ "}," +:+ nl) l')
  end.

(** The map [slot] of [ToGoCode], lines 128 to 139. *)
Definition slotMap (o : OptionsGen.t) : gmap string string :=
  let children :=
    if bool_decide (OptionsGen.DefaultSlotCode o = EmptyString) then dq +:+ dq
    else OptionsGen.DefaultSlotCode o in
  OptionsGen.NamedSlotCode o ∪
  {[ "default" := "func (props map[string]interface{})string{return " +:+ children +:+ "}" ]}.

(** Lines 95 to 113: the dynamic class, style and props of the options. *)
Definition propsCode (o : OptionsGen.t) (c : string) : Gen string :=
  let* p := loadProps (OptionsGen.Props o) in
  if bool_decide (size p ≠ 0) then
    let* cCode := lift (getPropsClass p) in
    let* c :=
      (if bool_decide (cCode ≠ "nil") then
         let* _ := deleteKey (OptionsGen.Props o) "class" in
         gret (c +:+ "PropsClass: " +:+ cCode +:+ ", " +:+ nl)
       else gret c) in
    let* p := loadProps (OptionsGen.Props o) in
    let* cStyle := lift (getPropsStyle p) in
    let* c :=
      (if bool_decide (cStyle ≠ "nil") then
         let* _ := deleteKey (OptionsGen.Props o) "style" in
         gret (c +:+ "PropsStyle: " +:+ cStyle +:+ ", " +:+ nl)
       else gret c) in
    let* p := loadProps (OptionsGen.Props o) in
    if bool_decide (size p ≠ 0) then
      let* m := mapJsCodeToCode p in
      gret (c +:+ "Props: " +:+ m +:+ ", " +:+ nl)
    else gret c
  else gret c.

(** [func (o *OptionsGen) ToGoCode() string] *)
Definition ToGoCode (o : OptionsGen.t) : Gen string :=
  let c := "&Options{" in
  let* c := propsCode o c in
  let* c :=
    (if bool_decide (size (OptionsGen.Attrs o) ≠ 0) then
       let* m := mapStringToGoCode (OptionsGen.Attrs o) in
       gret (c +:+ "Attrs: " +:+ m +:+ "," +:+ nl)
     else gret c) in
  let c :=
    if bool_decide (length (OptionsGen.Class o) ≠ 0)
    then c +:+ "Class: " +:+ sliceToGoCode (OptionsGen.Class o) +:+ "," +:+ nl
    else c in
  let* c :=
    (if bool_decide (size (OptionsGen.Style o) ≠ 0) then
       let* m := mapStringToGoCode (OptionsGen.Style o) in
       gret (c +:+ "Style: " +:+ m +:+ "," +:+ nl)
     else gret c) in
  let c :=
    if bool_decide (length (OptionsGen.StyleKeys o) ≠ 0)
    then c +:+ "StyleKeys: " +:+ sliceToGoCode (OptionsGen.StyleKeys o) +:+ "," +:+ nl
    else c in
  let slot := slotMap o in
  let* m := mapGoCodeToCode slot "namedSlotFunc" in
  let c := c +:+ "Slot: " +:+ m +:+ "," +:+ nl in
  let c := c +:+ "P: options," +:+ nl in
  let* c :=
    (if bool_decide (length (OptionsGen.Directives o) ≠ 0) then
       let* dir := lift (directivesCode ("[]directive{" +:+ nl) (OptionsGen.Directives o)) in
       let dir := dir +:+ "}" in
       gret (c +:+ "Directives: " +:+ dir +:+ "," +:+ nl)
     else gret c) in
  gret (c +:+ "}").

(** [func injectVal(src string) (to string)]: [ReplaceAllStringFunc] visits
    the matches from left to right, they do not overlap.  [skip] counts the
    bytes of the current match still to be passed over. *)
Fixpoint injectVal_go (s : string) (skip : nat) : Result string :=
  match s with
  | EmptyString => Ok EmptyString
  | String c s' =>
      match skip with
      | S k => injectVal_go s' k
      | O =>
          match openBraces s ≫= findClose with
          | Some key =>
              rbind (Js2Go key DataKey) (λ goCode,
              rbind (injectVal_go s' (String.length key + 3)) (λ rest,
                Ok (dq +:+ "+interfaceToStr(" +:+ goCode +:+ ")+" +:+ dq +:+ rest)))
          | None => rmap (String c) (injectVal_go s' 0)
          end
      end
  end.

Definition injectVal (src : string) : Result string := injectVal_go src 0.

(** The loop over [e.Children], lines 191 to 207, and the loop over the
    else-chain of [genVIf]; [gen] is the recursive call of [GenCode]. *)
Section Loops.

Variable gen : VueElement → Gen (string * gmap string string).

Fixpoint genChildren (cs : list VueElement) (defaultSlotCode : string)
    (namedSlotCode : gmap string string) : Gen (string * gmap string string) :=
  match cs with
  | [] => gret (defaultSlotCode, namedSlotCode)
  | v :: cs' =>
      if VElse v || VElseIf v then genChildren cs' defaultSlotCode namedSlotCode
      else
        let* '(childCode, childNamedSlotCode) := gen v in
        let defaultSlotCode :=
          if bool_decide (defaultSlotCode ≠ EmptyString)
          then defaultSlotCode +:+ "+" else defaultSlotCode in
        genChildren cs' (defaultSlotCode +:+ childCode)
          (childNamedSlotCode ∪ namedSlotCode)
  end.

Fixpoint genElseChain (chain : list (ElseIf.t VueElement)) (code : string)
    (namedSlotCode : gmap string string) : Gen (string * gmap string string) :=
  match chain with
  | [] => gret (code, namedSlotCode)
  | v :: chain' =>
      let* '(eleCode, namedSlotCode2) := gen (ElseIf.VueElement v) in
      let namedSlotCode := namedSlotCode2 ∪ namedSlotCode in
      let* code :=
        (if bool_decide (ElseIf.Types v = "else") then
           gret (code +:+ "} else { return " +:+ eleCode)
         else if bool_decide (ElseIf.Types v = "elseif") then
           let* condition := lift (Js2Go (ElseIf.Condition v) DataKey) in
           gret (code +:+ "} else if interfaceToBool(" +:+ condition +:+
                   ") { return " +:+ eleCode)
         else gret code) in
      genElseChain chain' code namedSlotCode
  end.

(** [func genVIf(e *VIf, srcCode string, app *App)] *)
Definition genVIf_with (e : VIf.t VueElement) (srcCode : string)
    : Gen (string * gmap string string) :=
  let* condition := lift (Js2Go (VIf.Condition e) DataKey) in
  let code := "func ()string{" +:+ nl +:+
              "if interfaceToBool(" +:+ condition +:+ ") {return " +:+ srcCode in
  let* '(code, namedSlotCode) := genElseChain (VIf.ElseIf e) code ∅ in
  gret (code +:+ nl +:+ "}" +:+ nl +:+ "return " +:+ dq +:+ dq +:+ nl +:+ "}()",
        namedSlotCode).

End Loops.

(** The options of an element, lines 216 to 225 and 247 to 257. *)
Definition optionsOf (e : VueElement) (defaultSlotCode : string)
    (namedSlotCode : gmap string string) : OptionsGen.t :=
  {| OptionsGen.Props := Props e;
     OptionsGen.Attrs := Attrs e;
     OptionsGen.Class := Class e;
     OptionsGen.Style := Style e;
     OptionsGen.StyleKeys := StyleKeys e;
     OptionsGen.Slot := ∅;
     OptionsGen.DefaultSlotCode := defaultSlotCode;
     OptionsGen.NamedSlotCode := namedSlotCode;
     OptionsGen.Directives := Directives e |}.

(** Lines 213 to 268: the code of the element itself, by its tag. *)
Definition genElement (e : VueElement) (app : App) (defaultSlotCode : string)
    (namedSlotCode : gmap string string) : Gen string :=
  if bool_decide (TagName e ∈ Components app) then
    let* optionsCode := ToGoCode (optionsOf e defaultSlotCode namedSlotCode) in
    gret ("r.Component_" +:+ TagName e +:+ "(" +:+ optionsCode +:+ ")")
  else if bool_decide (TagName e = "template") then
    gret defaultSlotCode
  else if bool_decide (TagName e = "__string") then
    let text := Strings.ReplaceAll (Text e) nl (bs +:+ "n") in
    let* text := lift (injectVal text) in
    gret (dq +:+ text +:+ dq)
  else if IsRoot e || bool_decide (length (Directives e) ≠ 0) then
    let* optionsCode := ToGoCode (optionsOf e defaultSlotCode namedSlotCode) in
    gret ("r.Tag(" +:+ dq +:+ TagName e +:+ dq +:+ ", " +:+ boolToStr (IsRoot e) +:+
            ", " +:+ optionsCode +:+ ")")
  else
    let* p := loadProps (Props e) in
    let* attrs := lift (genAttrCode e p) in
    gret (dq +:+ "<" +:+ TagName e +:+ dq +:+ "+" +:+ attrs +:+ "+" +:+ dq +:+ ">" +:+ dq +:+
            "+" +:+ defaultSlotCode +:+ "+" +:+ dq +:+ "</" +:+ TagName e +:+ ">" +:+ dq).

(** Lines 270 to 282: the decorators [v-for] and [v-slot], in this order. *)
Definition decorateFor (e : VueElement) (eleCode : string) : string :=
  match VFor e with
  | Some f => genVFor f eleCode
  | None => eleCode
  end.

Definition decorateSlot (e : VueElement) (eleCode : string)
    (namedSlotCode : gmap string string) : string * gmap string string :=
  match VSlot e with
  | Some s =>
      let '(eleCode, namedSlotCode2) := genVSlot s eleCode in
      (eleCode, namedSlotCode2 ∪ namedSlotCode)
  | None => (eleCode, namedSlotCode)
  end.

(** [func (e *VueElement) GenCode(app *App) (code string, namedSlotCode map[string]string)] *)
Fixpoint GenCode (e : VueElement) (app : App) {struct e}
    : Gen (string * gmap string string) :=
  let* '(defaultSlotCode, namedSlotCode) :=
    genChildren (λ v, GenCode v app) (Children e) EmptyString ∅ in
  let defaultSlotCode :=
    if bool_decide (defaultSlotCode = EmptyString) then dq +:+ dq
    else defaultSlotCode in
  let* eleCode := genElement e app defaultSlotCode namedSlotCode in
  let eleCode := decorateFor e eleCode in
  let '(eleCode, namedSlotCode) := decorateSlot e eleCode namedSlotCode in
  match VIf e with
  | Some vi =>
      let* '(eleCode, namedSlotCode2) :=
        genVIf_with (λ v, GenCode v app) vi eleCode in
      gret (eleCode, namedSlotCode2 ∪ namedSlotCode)
  | None => gret (eleCode, namedSlotCode)
  end.

Definition genVIf (e : VIf.t VueElement) (srcCode : string) (app : App)
    : Gen (string * gmap string string) :=
  genVIf_with (λ v, GenCode v app) e srcCode.

(** Lines 186 to 268 of [GenCode] on their own: the code of the element
    before the decorators, and the named slots of its children. *)
Definition genBody (e : VueElement) (app : App) : Gen (string * gmap string string) :=
  let* '(defaultSlotCode, namedSlotCode) :=
    genChildren (λ v, GenCode v app) (Children e) EmptyString ∅ in
  let defaultSlotCode :=
    if bool_decide (defaultSlotCode = EmptyString) then dq +:+ dq
    else defaultSlotCode in
  let* eleCode := genElement e app defaultSlotCode namedSlotCode in
  gret (eleCode, namedSlotCode).

End Generator.

(** ** Stand-ins for the parts that are not among the sources

    They serve to run the generator on concrete templates. *)

Definition isIdentChar (c : ascii) : bool :=
  let n := nat_of_ascii c in
  bool_decide (48 ≤ n ≤ 57) || bool_decide (65 ≤ n ≤ 90) || bool_decide (97 ≤ n ≤ 122)
  || bool_decide (c = "_"%char) || bool_decide (c = "$"%char).

(** Modelled from the spec: the expression transpiler [Js2Go] is missing; of
    its rewriting rules the first is taken, a bare identifier [foo] becomes
    the lookup [S["foo"]] on the scope identifier [S].  White space around
    the identifier is dropped; every other expression is refused. *)
Definition Js2Go_ident (code dataKey : string) : Result string :=
  let id := Strings.Trim code " " in
  if negb (bool_decide (id = EmptyString))
     && forallb isIdentChar (String.list_ascii_of_string id)
  then Ok (dataKey +:+ "[" +:+ dq +:+ id +:+ dq +:+ "]")
  else Err ("cannot transpile: " +:+ code).

(** Modelled from the spec: [getPropsClass] is missing; if [props["class"]]
    exists its value is transpiled and placed under [PropsClass], otherwise
    there is no such field (the caller tests for the text [nil]). *)
Definition getPropsClass_spec (js2go : string → string → Result string)
    (props : Props.t) : Result string :=
  match props !! "class" with
  | Some v => js2go v DataKey
  | None => Ok "nil"
  end.

(** Modelled from the spec: [getPropsStyle] is missing; the same for
    [props["style"]] and [PropsStyle]. *)
Definition getPropsStyle_spec (js2go : string → string → Result string)
    (props : Props.t) : Result string :=
  match props !! "style" with
  | Some v => js2go v DataKey
  | None => Ok "nil"
  end.

(** Modelled from the spec: [genAttrCode] is missing; the static attribute
    code concatenates the space-prefixed [key="value"] pieces in the original
    attribute order, then the static class and style as the attributes
    [class] and [style].  The result is one Go string literal. *)
Definition genAttrCode_spec (e : VueElement) (props : Props.t) : Result string :=
  let piece k v := " " +:+ k +:+ "=" +:+ bs +:+ dq +:+ v +:+ bs +:+ dq in
  let attrs :=
    foldl (λ c k, c +:+ piece k (default EmptyString (Attrs e !! k)))
      EmptyString (AttrsKeys e) in
  let class :=
    if bool_decide (length (Class e) ≠ 0)
    then piece "class" (Strings.Join (Class e) " ") else EmptyString in
  let style :=
    if bool_decide (length (StyleKeys e) ≠ 0)
    then piece "style"
           (foldl (λ c k, c +:+ k +:+ ": " +:+ default EmptyString (Style e !! k) +:+ "; ")
              EmptyString (StyleKeys e))
    else EmptyString in
  Ok (dq +:+ attrs +:+ class +:+ style +:+ dq).

(** The opening of the ladder of [genVIf] up to the expression its first
    branch returns. *)
Definition ifOpen (condition : string) : string :=
  "func ()string{" +:+ nl +:+ "if interfaceToBool(" +:+ condition +:+ ") {return ".

(** The code of the [v-for] of [f] is what the first branch of the ladder
    [code] returns. *)
Definition forInsideIf (f : VFor.t) (code : string) : Prop :=
  ∃ condition body rest, code = ifOpen condition +:+ genVFor f body +:+ rest.

(** The two kinds of closure a slot map holds: the default slot of
    [ToGoCode] and the named slot of [genVSlot]. *)
Definition defaultClosure (children : string) : string :=
  "func (props map[string]interface{})string{return " +:+ children +:+ "}".

Definition isClosure (v : string) : Prop :=
  (∃ children, v = defaultClosure children) ∨ (∃ s body, v = slotClosure s body).

(** Every value of a named-slot map is a closure of [genVSlot]. *)
Definition slotClosures (ns : gmap string string) : Prop :=
  map_Forall (λ _ v, ∃ s body, v = slotClosure s body) ns.

(** The elements for which [GenCode] emits an options literal: registered
    components, and HTML elements that are root or carry directives. *)
Definition emitsOptions (e : VueElement) (app : App) : Prop :=
  TagName e ∈ Components app
  ∨ (TagName e ≠ "template" ∧ TagName e ≠ "__string"
     ∧ (IsRoot e = true ∨ Directives e ≠ [])).

(** No child of [e] contributes code: each one is an else node. *)
Definition noChildCode (e : VueElement) : Prop :=
  Forall (λ v, VElse v || VElseIf v = true) (Children e).

(** Trees on which the order of the range statements cannot show: every map
    that is serialised has one entry at most and no node has [v-slot]. *)
Fixpoint orderFree (e : VueElement) : bool :=
  bool_decide (size (Attrs e) ≤ 1) && bool_decide (size (Style e) ≤ 1)
  && bool_decide (VSlot e = None)
  && forallb orderFree (Children e)
  && match VIf e with
     | Some vi => forallb (λ x, orderFree (ElseIf.VueElement x)) (VIf.ElseIf vi)
     | None => true
     end.

Definition smallProps (σ : Machine) : Prop :=
  ∀ l p, heap σ !! l = Some p → size p ≤ 1.

(** Two generator actions agree: from a state with small props maps they
    have the same outcome, and a value they return satisfies [Q] and comes
    with a state that has small props maps again. *)
Definition agree {A} (Q : A → Prop) (m1 m2 : Gen A) : Prop :=
  ∀ σ, smallProps σ →
    m1 σ = m2 σ ∧ ∀ a σ', m1 σ = Ok (a, σ') → smallProps σ' ∧ Q a.

(** Two schedules for the range statements: the canonical order of the
    entries, and its reverse. *)
Definition canonicalOrder (n : nat) (l : list (string * string)) := l.
Definition reverseOrder (n : nat) (l : list (string * string)) := reverse l.

(** A schedule is admissible when every range statement yields each entry of
    the map once. *)
Definition admissible (rangeOrder : nat → list (string * string) → list (string * string)) : Prop :=
  ∀ n l, rangeOrder n l ≡ₚ l.

(** The generator with the stand-ins, on a run whose range statements follow
    [rangeOrder]. *)
Definition GenCode_run (rangeOrder : nat → list (string * string) → list (string * string))
    (e : VueElement) (app : App) : Gen (string * gmap string string) :=
  GenCode rangeOrder Js2Go_ident (getPropsClass_spec Js2Go_ident)
    (getPropsStyle_spec Js2Go_ident) genAttrCode_spec e app.

(** An element with nothing set but its tag, and the start of a run. *)
Definition element (tag : string) (props : loc) : VueElement :=
  {| IsRoot := false; TagName := tag; Text := EmptyString; Attrs := ∅;
     AttrsKeys := []; Directives := []; ElseIfConditions := []; Class := [];
     Style := ∅; StyleKeys := []; Props := props; Children := [];
     VIf := None; VFor := None; VSlot := None; VElse := false;
     VElseIf := false; VHtml := EmptyString; VText := EmptyString |}.

Definition start (h : gmap loc (gmap string string)) : Machine :=
  {| heap := h; ranged := 0 |}.

(** The outcome of a run, part by part. *)
Definition codeOf (r : Result ((string * gmap string string) * Machine)) : Result string :=
  rmap (λ x, x.1.1) r.
Definition slotsOf (r : Result ((string * gmap string string) * Machine))
    : Result (gmap string string) :=
  rmap (λ x, x.1.2) r.
Definition heapOf {A} (r : Result (A * Machine)) : Result (gmap loc (gmap string string)) :=
  rmap (λ x, heap x.2) r.

(** The text by which the loop of [genVFor] is recognised. *)
Definition forMarker : string := "  for index, item := range lookInterfaceToSlice(".

(** Builders for concrete trees: each returns [e] with some fields replaced. *)
Definition withText (s : string) (e : VueElement) : VueElement :=
  MkVueElement (IsRoot e) (TagName e) (s) (Attrs e) (AttrsKeys e) (Directives e) (ElseIfConditions e) (Class e) (Style e) (StyleKeys e) (Props e) (Children e) (VIf e) (VFor e) (VSlot e) (VElse e) (VElseIf e) (VHtml e) (VText e).
Definition withRoot  (e : VueElement) : VueElement :=
  MkVueElement (true) (TagName e) (Text e) (Attrs e) (AttrsKeys e) (Directives e) (ElseIfConditions e) (Class e) (Style e) (StyleKeys e) (Props e) (Children e) (VIf e) (VFor e) (VSlot e) (VElse e) (VElseIf e) (VHtml e) (VText e).
Definition withAttrs (kvs : list (string * string)) (e : VueElement) : VueElement :=
  MkVueElement (IsRoot e) (TagName e) (Text e) (list_to_map kvs) (kvs.*1) (Directives e) (ElseIfConditions e) (Class e) (Style e) (StyleKeys e) (Props e) (Children e) (VIf e) (VFor e) (VSlot e) (VElse e) (VElseIf e) (VHtml e) (VText e).
Definition withClass (cs : list string) (e : VueElement) : VueElement :=
  MkVueElement (IsRoot e) (TagName e) (Text e) (Attrs e) (AttrsKeys e) (Directives e) (ElseIfConditions e) (cs) (Style e) (StyleKeys e) (Props e) (Children e) (VIf e) (VFor e) (VSlot e) (VElse e) (VElseIf e) (VHtml e) (VText e).
Definition withStyle (kvs : list (string * string)) (e : VueElement) : VueElement :=
  MkVueElement (IsRoot e) (TagName e) (Text e) (Attrs e) (AttrsKeys e) (Directives e) (ElseIfConditions e) (Class e) (list_to_map kvs) (kvs.*1) (Props e) (Children e) (VIf e) (VFor e) (VSlot e) (VElse e) (VElseIf e) (VHtml e) (VText e).
Definition withDirectives (l : list Directive.t) (e : VueElement) : VueElement :=
  MkVueElement (IsRoot e) (TagName e) (Text e) (Attrs e) (AttrsKeys e) (l) (ElseIfConditions e) (Class e) (Style e) (StyleKeys e) (Props e) (Children e) (VIf e) (VFor e) (VSlot e) (VElse e) (VElseIf e) (VHtml e) (VText e).
Definition withChildren (cs : list VueElement) (e : VueElement) : VueElement :=
  MkVueElement (IsRoot e) (TagName e) (Text e) (Attrs e) (AttrsKeys e) (Directives e) (ElseIfConditions e) (Class e) (Style e) (StyleKeys e) (Props e) (cs) (VIf e) (VFor e) (VSlot e) (VElse e) (VElseIf e) (VHtml e) (VText e).
Definition withVIf (cond : string) (chain : list (ElseIf.t VueElement)) (e : VueElement) : VueElement :=
  MkVueElement (IsRoot e) (TagName e) (Text e) (Attrs e) (AttrsKeys e) (Directives e) (ElseIfConditions e) (Class e) (Style e) (StyleKeys e) (Props e) (Children e) (Some (VIf.Build cond chain)) (VFor e) (VSlot e) (VElse e) (VElseIf e) (VHtml e) (VText e).
Definition withVFor (f : VFor.t) (e : VueElement) : VueElement :=
  MkVueElement (IsRoot e) (TagName e) (Text e) (Attrs e) (AttrsKeys e) (Directives e) (ElseIfConditions e) (Class e) (Style e) (StyleKeys e) (Props e) (Children e) (VIf e) (Some f) (VSlot e) (VElse e) (VElseIf e) (VHtml e) (VText e).
Definition withVSlot (s : VSlot.t) (e : VueElement) : VueElement :=
  MkVueElement (IsRoot e) (TagName e) (Text e) (Attrs e) (AttrsKeys e) (Directives e) (ElseIfConditions e) (Class e) (Style e) (StyleKeys e) (Props e) (Children e) (VIf e) (VFor e) (Some s) (VElse e) (VElseIf e) (VHtml e) (VText e).
Definition asElse  (e : VueElement) : VueElement :=
  MkVueElement (IsRoot e) (TagName e) (Text e) (Attrs e) (AttrsKeys e) (Directives e) (ElseIfConditions e) (Class e) (Style e) (StyleKeys e) (Props e) (Children e) (VIf e) (VFor e) (VSlot e) (true) (VElseIf e) (VHtml e) (VText e).
Definition asElseIf  (e : VueElement) : VueElement :=
  MkVueElement (IsRoot e) (TagName e) (Text e) (Attrs e) (AttrsKeys e) (Directives e) (ElseIfConditions e) (Class e) (Style e) (StyleKeys e) (Props e) (Children e) (VIf e) (VFor e) (VSlot e) (VElse e) (true) (VHtml e) (VText e).

(** ** Notions used to state further properties *)

(** Every byte of [s] is white space. *)
Definition allSpace (s : string) : bool :=
  forallb is_space (String.list_ascii_of_string s).

(** The only white space in [s] is the space, and no two spaces are next to
    each other; [prev] tells that a space comes just before [s]. *)
Fixpoint singleSpaced (prev : bool) (s : string) : bool :=
  match s with
  | EmptyString => true
  | String c s' =>
      if is_space c
      then bool_decide (c = " "%char) && negb prev && singleSpaced true s'
      else singleSpaced false s'
  end.

(** The store [h'] is the store [h] with, at most, the keys [class] and
    [style] taken out of some maps: the same addresses are in use, and under
    every other key the maps are the same. *)
Definition onlyDrops (h h' : gmap loc (gmap string string)) : Prop :=
  ∀ l, match h !! l, h' !! l with
       | Some p, Some p' =>
           ∀ k, p' !! k = p !! k ∨ ((k = "class" ∨ k = "style") ∧ p' !! k = None)
       | None, None => True
       | _, _ => False
       end.

(** A generator action that does no more than that to the store. *)
Definition frames {A} (m : Gen A) : Prop :=
  ∀ σ a σ', m σ = Ok (a, σ') → onlyDrops (heap σ) (heap σ').

(** The slot names that occur in a tree. *)
Fixpoint slotNames (e : VueElement) : gset string :=
  match VSlot e with Some s => {[ VSlot.SlotName s ]} | None => ∅ end
  ∪ ⋃ (slotNames <$> Children e)
  ∪ match VIf e with
    | Some vi => ⋃ ((λ x, slotNames (ElseIf.VueElement x)) <$> VIf.ElseIf vi)
    | None => ∅
    end.

(** Every result that the computation can return satisfies [Q]. *)
Definition yields {A} (Q : A → Prop) (m : Gen A) : Prop :=
  ∀ σ a σ', m σ = Ok (a, σ') → Q a.

(** [c'] is [c] with more text after it. *)
Definition extends (c c' : string) : Prop := ∃ r, c' = c +:+ r.

(** ** From the html tree to raw elements *)

Module Html.

(** [html.NodeType] of golang.org/x/net/html. *)
Inductive NodeType :=
  | ErrorNode | TextNode | DocumentNode | ElementNode
  | CommentNode | DoctypeNode | RawNode.

(** [html.Node], as far as the parser reads it.  [Children] is the chain
    that starts at [FirstChild] and follows [NextSibling], which lines 172 to
    178 copy to a slice. *)
Inductive Node := MkNode {
    Type' : NodeType;
    Data : string;
    Attr : list Attribute.t;
    Children : list Node
  }.

(** [panic(node)] of line 164; the value of the panic is the node. *)
Definition nodePanic : string := "panic(node)".

Section nodes.
Variable convert : Node → Result (option Element.t).

(** The loop of lines 140 to 189; [None] is a node left out by
    [continue]. *)
Fixpoint convertAll (nodes : list Node) : Result (list Element.t) :=
  match nodes with
  | [] => Ok []
  | node :: nodes' =>
      rbind (convert node) (λ o,
      rbind (convertAll nodes') (λ es,
        Ok (match o with Some e => e :: es | None => es end)))
  end.
End nodes.

(** One turn of the loop, lines 141 to 188. *)
Fixpoint convertNode (node : Node) : Result (option Element.t) :=
  let build (text tagName : string) :=
    rbind (convertAll convertNode (Children node)) (λ cs,
      Ok (Some (Element.Build text tagName (Attr node) cs false))) in
  match Type' node with
  | TextNode =>
      let text := normalizeText (Data node) in
      if omitNode text then Ok None
      else build text "__string"
  | DocumentNode => build EmptyString (Data node)
  | ElementNode => build EmptyString (Data node)
  | _ => Err nodePanic
  end.

(** [func hNodeToElement(nodes []*html.Node) []*Element] *)
Definition hNodeToElement (nodes : list Node) : Result (list Element.t) :=
  convertAll convertNode nodes.

End Html.

(** ** [ParseVue] *)

(** [es[0].Children[0].Root = true] when there is one child (lines 223 to
    225). *)
Definition markRoot (e : Element.t) : Element.t :=
  match Element.Children e with
  | [c] =>
      Element.Build (Element.Text e) (Element.TagName e) (Element.Attrs e)
        [Element.Build (Element.Text c) (Element.TagName c) (Element.Attrs c)
           (Element.Children c) true]
        (Element.Root e)
  | _ => e
  end.

(** [func (p VueElementParser) Parse(e *Element) *VueElement] *)
Definition Parse (e : Element.t) : Result Lifter.VueElement :=
  rbind (Lifter.parseList [e]) (λ vs,
    match vs !! 0 with
    | Some v => Ok v
    | None => Err "index out of range [0] with length 0"
    end).

(** Lines 219 to 237 of [ParseVue], from the raw elements on. *)
Definition parseRoot (es : list Element.t) : Result Lifter.VueElement :=
  match es with
  | [e0] =>
      Parse (if bool_decide (Element.TagName e0 = "template") then markRoot e0 else e0)
  | _ => Parse (Element.Build EmptyString "template" [] es false)
  end.

(** [func ParseVue(filename string) (v *VueElement, err error)], from the
    nodes on that [html.ParseFragment] returned for the file. *)
Definition ParseVue (nodes : list Html.Node) : Result Lifter.VueElement :=
  rbind (Html.hNodeToElement nodes) parseRoot.

(** *** Notions used to state the properties of the parser *)

(** The text node is left out by line 153. *)
Definition blankText (n : Html.Node) : Prop :=
  Html.Type' n = Html.TextNode ∧ omitNode (normalizeText (Html.Data n)) = true.

(** The nodes that [hNodeToElement] comes to, if nothing stops it: the
    nodes of the list, and the children of a node that is not left out. *)
Inductive reached (nodes : list Html.Node) : Html.Node → Prop :=
  | reached_top n : n ∈ nodes → reached nodes n
  | reached_child p n :
      reached nodes p → ¬ blankText p → n ∈ Html.Children p → reached nodes n.

(** The kinds of node that the parser takes. *)
Definition taken (n : Html.Node) : Prop :=
  Html.Type' n = Html.TextNode ∨ Html.Type' n = Html.DocumentNode
  ∨ Html.Type' n = Html.ElementNode.

(** [P] holds of the raw element and of all elements below it. *)
Fixpoint everyRaw (P : Element.t → bool) (e : Element.t) : bool :=
  P e && forallb (everyRaw P) (Element.Children e).

(** A raw element made from a text node or from a tag. *)
Definition wellFormedRaw (e : Element.t) : bool :=
  negb (Element.Root e)
  && (bool_decide (Element.Text e = EmptyString)
      || (bool_decide (Element.TagName e = "__string")
          && singleSpaced false (Element.Text e)
          && negb (bool_decide (Element.Text e = " ")))).

(** No element of the tree is marked as root. *)
Fixpoint rootFree (v : Lifter.VueElement) : bool :=
  negb (Lifter.IsRoot v) && forallb rootFree (Lifter.Children v).

(** A chain as the ladder of [genVIf] needs it: entries of type [elseif],
    then at most one entry of type [else], and no entry after that. *)
Fixpoint ladder {E} (chain : list (ElseIf.t E)) : bool :=
  match chain with
  | [] => true
  | x :: rest =>
      if bool_decide (ElseIf.Types x = "elseif") then ladder rest
      else bool_decide (ElseIf.Types x = "else")
           && match rest with [] => true | _ => false end
  end.

(** The text [s] has an interpolation at [pre]: two opening braces, a
    non-empty [key] without line feed, two closing braces. *)
Definition interpolationAt (s pre key post : string) : Prop :=
  s = pre +:+ "{{" +:+ key +:+ "}}" +:+ post
  ∧ key ≠ EmptyString ∧ Strings.mem "010"%char key = false.

(** The interpolation that the regular expression of [injectVal] finds
    first: the leftmost one, and at that place the shortest one. *)
Definition firstInterpolation (s pre key post : string) : Prop :=
  interpolationAt s pre key post
  ∧ ∀ p k r, interpolationAt s p k r →
      String.length pre < String.length p
      ∨ (p = pre ∧ String.length key ≤ String.length k).

(** The children of [e] that generate code all carry [v-slot] and no
    [v-if]: each puts the empty string literal into the default slot code. *)
Definition slotChildrenOnly (e : VueElement) : Prop :=
  Forall (λ v, VElse v || VElseIf v = true ∨ (VSlot v ≠ None ∧ VIf v = None))
    (Children e).

(** The children for which the loop of [GenCode] generates code. *)
Definition codeChildren (e : VueElement) : list VueElement :=
  filter (λ v, VElse v || VElseIf v = false) (Children e).

(** * Properties *)

(** ** Strings *)

Lemma app_cons c (a b : string) : String c a +:+ b = String c (a +:+ b).
Proof. reflexivity. Qed.

Lemma app_empty_l (a : string) : EmptyString +:+ a = a.
Proof. reflexivity. Qed.

Lemma app_empty_r (a : string) : a +:+ EmptyString = a.
Proof. induction a as [|c a IH]; [done|]. by rewrite app_cons, IH. Qed.

Lemma app_assoc_s (a b c : string) : (a +:+ b) +:+ c = a +:+ (b +:+ c).
Proof. induction a as [|x a IH]; [done|]. by rewrite !app_cons, IH. Qed.

Lemma prefix_cons a b (s1 s2 : string) :
  String.prefix (String a s1) (String b s2)
  = if decide (a = b) then String.prefix s1 s2 else false.
Proof.
  change (String.prefix (String a s1) (String b s2))
    with (match ascii_dec a b with
          | left _ => String.prefix s1 s2
          | right _ => false
          end).
  destruct (ascii_dec a b), (decide (a = b)); congruence.
Qed.

Lemma prefix_empty (s : string) : String.prefix EmptyString s = true.
Proof. by destruct s. Qed.

Lemma prefix_nl c (t : string) :
  String.prefix nl (String c t) = bool_decide (c = "010"%char).
Proof.
  unfold nl. rewrite prefix_cons, prefix_empty.
  destruct (decide ("010"%char = c)) as [<-|Hne]; [done|].
  symmetry. apply bool_decide_eq_false. congruence.
Qed.

Lemma is_space_nl c : is_space c = false → c ≠ "010"%char.
Proof. intros H ->. discriminate. Qed.

(** ** The text normaliser *)

Lemma collapse_go_idem b s : collapse_go b (collapse_go b s) = collapse_go b s.
Proof.
  revert b. induction s as [|c s IH]; intros b; [done|].
  simpl. destruct (is_space c) eqn:Hc.
  - destruct b; [apply IH|]. simpl. by rewrite IH.
  - simpl. by rewrite Hc, IH.
Qed.

(** What the normaliser returns holds no line feed: replacing line feeds in
    it changes nothing. *)
Lemma replace_nl_collapse b s new :
  Strings.replace_go nl new (collapse_go b s) 0 = collapse_go b s.
Proof.
  revert b. induction s as [|c s IH]; intros b; [done|].
  simpl. destruct (is_space c) eqn:Hc.
  - destruct b; [apply IH|].
    change (Strings.replace_go nl new (String " " (collapse_go true s)) 0)
      with (if String.prefix nl (String " " (collapse_go true s))
            then new +:+ Strings.replace_go nl new (collapse_go true s) (String.length nl - 1)
            else String " " (Strings.replace_go nl new (collapse_go true s) 0)).
    rewrite prefix_nl. rewrite bool_decide_eq_false_2 by discriminate.
    by rewrite IH.
  - change (Strings.replace_go nl new (String c (collapse_go false s)) 0)
      with (if String.prefix nl (String c (collapse_go false s))
            then new +:+ Strings.replace_go nl new (collapse_go false s) (String.length nl - 1)
            else String c (Strings.replace_go nl new (collapse_go false s) 0)).
    rewrite prefix_nl. rewrite bool_decide_eq_false_2 by by apply is_space_nl.
    by rewrite IH.
Qed.

(** C9: the white-space normaliser of text nodes is idempotent, and so is the
    decision to drop the node. *)
Theorem normalizeText_idempotent (data : string) :
  normalizeText (normalizeText data) = normalizeText data
  ∧ omitNode (normalizeText (normalizeText data)) = omitNode (normalizeText data).
Proof.
  assert (normalizeText (normalizeText data) = normalizeText data) as E.
  { unfold normalizeText, collapseSpaces, Strings.ReplaceAll.
    by rewrite replace_nl_collapse, collapse_go_idem. }
  by rewrite E.
Qed.

(** ** [Props.CanBeAttr] *)

Lemma html_no_data_prefix k : k ∈ Props.html → Strings.HasPrefix k "data-" = false.
Proof.
  unfold Props.html. intros [->%elem_of_singleton | ->%elem_of_singleton]%elem_of_union; done.
Qed.

Lemma CanBeAttr_loop_empty entries : Props.CanBeAttr_loop entries = ∅.
Proof.
  unfold Props.CanBeAttr_loop.
  match goal with |- foldl ?f _ _ = _ => set (step := f) end.
  assert (∀ a, foldl step a entries = a) as H; [|apply H].
  induction entries as [|kv l IH]; intros a; [done|].
  simpl. rewrite IH. unfold step. case_bool_decide as Hk; simpl; [|done].
  by rewrite html_no_data_prefix.
Qed.

(** C10: [CanBeAttr] asks of a key to be in the allowlist and to start with
    [data-]; no key does both, and the result is empty for every receiver,
    in whatever order the range statement yields the entries. *)
Theorem CanBeAttr_empty (p : Props.t) :
  (∀ k, k ∈ Props.html → Strings.HasPrefix k "data-" = false)
  ∧ (∀ entries, Props.CanBeAttr_loop entries = ∅)
  ∧ Props.CanBeAttr p = ∅.
Proof.
  split; [apply html_no_data_prefix|]. split; [apply CanBeAttr_loop_empty|].
  apply CanBeAttr_loop_empty.
Qed.

(** ** [strings.Split] and the operand of [v-for] *)

Lemma prefix_app (a b : string) : String.prefix a (a +:+ b) = true.
Proof.
  induction a as [|c a IH]; [apply prefix_empty|].
  rewrite app_cons, prefix_cons. by rewrite decide_True.
Qed.

Lemma Index_cons c (s sub : string) :
  Strings.Index (String c s) sub
  = if String.prefix sub (String c s) then Some 0 else S <$> Strings.Index s sub.
Proof. reflexivity. Qed.

Lemma split_go_cons sep c (s cur : string) :
  Strings.split_go sep (String c s) 0 cur
  = if String.prefix sep (String c s)
    then cur :: Strings.split_go sep s (String.length sep - 1) EmptyString
    else Strings.split_go sep s 0 (cur +:+ String c EmptyString).
Proof. reflexivity. Qed.

Lemma split_go_skip sep (a b cur : string) :
  Strings.split_go sep (a +:+ b) (String.length a) cur = Strings.split_go sep b 0 cur.
Proof. induction a as [|c a IH]; [done|]. rewrite app_cons. simpl. apply IH. Qed.

(** Up to the first occurrence of the separator the bytes go to the piece
    being read. *)
Lemma split_go_before sep (l tail cur : string) :
  Strings.Index (l +:+ tail) sep = Some (String.length l) →
  Strings.split_go sep (l +:+ tail) 0 cur = Strings.split_go sep tail 0 (cur +:+ l).
Proof.
  revert cur. induction l as [|c l IH]; intros cur H.
  - by rewrite app_empty_l, app_empty_r.
  - rewrite app_cons in *. rewrite Index_cons in H. rewrite split_go_cons.
    destruct (String.prefix sep (String c (l +:+ tail))); [done|].
    destruct (Strings.Index (l +:+ tail) sep) as [i|] eqn:Hi; [|done].
    simpl in H. rewrite IH by congruence.
    by rewrite app_assoc_s.
Qed.

Lemma split_go_at sep0 sep' (r cur : string) :
  Strings.split_go (String sep0 sep') (String sep0 sep' +:+ r) 0 cur
  = cur :: Strings.split_go (String sep0 sep') r 0 EmptyString.
Proof.
  rewrite app_cons, split_go_cons.
  rewrite <- app_cons, prefix_app.
  replace (String.length (String sep0 sep') - 1) with (String.length sep') by (simpl; lia).
  by rewrite split_go_skip.
Qed.

Lemma split_go_last sep (r cur : string) :
  Strings.Index r sep = None → Strings.split_go sep r 0 cur = [cur +:+ r].
Proof.
  revert cur. induction r as [|c r IH]; intros cur H.
  - by rewrite app_empty_r.
  - rewrite Index_cons in H. rewrite split_go_cons.
    destruct (String.prefix sep (String c r)); [done|].
    destruct (Strings.Index r sep); [done|].
    rewrite IH by done. by rewrite app_assoc_s.
Qed.

(** A value with one separator splits into what is before and after it. *)
Lemma Split_two sep0 sep' (l r : string) :
  Strings.Index (l +:+ String sep0 sep' +:+ r) (String sep0 sep') = Some (String.length l) →
  Strings.Index r (String sep0 sep') = None →
  Strings.Split (l +:+ String sep0 sep' +:+ r) (String sep0 sep') = [l; r].
Proof.
  intros H1 H2. unfold Strings.Split.
  rewrite split_go_before by done. rewrite app_empty_l.
  rewrite split_go_at. by rewrite split_go_last.
Qed.

Lemma split_go_nonempty sep (s cur : string) k : Strings.split_go sep s k cur ≠ [].
Proof.
  revert k cur. induction s as [|c s IH]; intros k cur; [done|].
  destruct k as [|k]; [|apply IH].
  rewrite split_go_cons.
  destruct (String.prefix sep (String c s)); [done|apply IH].
Qed.

(** A string that contains the separator splits into two pieces at least. *)
Lemma split_go_contains sep (s cur : string) :
  Strings.Contains s sep = true →
  ∃ a b rest, Strings.split_go sep s 0 cur = a :: b :: rest.
Proof.
  unfold Strings.Contains. rewrite bool_decide_eq_true.
  revert cur. induction s as [|c s IH]; intros cur H; [done|].
  rewrite Index_cons in H. rewrite split_go_cons.
  destruct (String.prefix sep (String c s)).
  - pose proof (split_go_nonempty sep s EmptyString (String.length sep - 1)) as Hne.
    destruct (Strings.split_go sep s (String.length sep - 1) EmptyString) as [|b rest];
      [done|eauto].
  - apply IH. by destruct (Strings.Index s sep).
Qed.

Lemma Index_comma_cons c (s : string) :
  Strings.Index (String c s) ","
  = if decide (","%char = c) then Some 0 else S <$> Strings.Index s ",".
Proof.
  rewrite Index_cons, prefix_cons, prefix_empty. by destruct (decide _).
Qed.

Lemma Contains_comma_cons c (s : string) :
  Strings.Contains (String c s) ","
  = bool_decide (c = ","%char) || Strings.Contains s ",".
Proof.
  unfold Strings.Contains. rewrite Index_comma_cons.
  destruct (decide (","%char = c)) as [<-|Hne]; [done|].
  rewrite (bool_decide_eq_false_2 (c = ","%char)) by congruence. simpl.
  by destruct (Strings.Index s ",").
Qed.

(** Stripping parentheses leaves the commas in place. *)
Lemma TrimLeft_parens_comma (s : string) :
  Strings.Contains s "," = true → Strings.Contains (Strings.TrimLeft s "()") "," = true.
Proof.
  induction s as [|c s IH]; [done|]. intros H. simpl.
  destruct (Strings.mem c "()") eqn:Hc; [|done].
  apply IH. rewrite Contains_comma_cons in H.
  case_bool_decide as Hcomma; [|done]. subst c. discriminate.
Qed.

Lemma TrimRight_parens_comma (s : string) :
  Strings.Contains s "," = true → Strings.Contains (Strings.TrimRight s "()") "," = true.
Proof.
  induction s as [|c s IH]; [done|]. intros H. rewrite Contains_comma_cons in H.
  simpl. destruct (Strings.Contains s ",") eqn:Hs.
  - specialize (IH eq_refl).
    destruct (Strings.TrimRight s "()") as [|d t] eqn:Ht; [done|].
    rewrite Contains_comma_cons, IH. apply orb_true_r.
  - rewrite orb_false_r in H. apply bool_decide_eq_true in H as ->.
    destruct (Strings.TrimRight s "()"); by rewrite ?Contains_comma_cons.
Qed.

Lemma Split_first sep0 sep' (l r : string) :
  Strings.Index (l +:+ String sep0 sep' +:+ r) (String sep0 sep') = Some (String.length l) →
  Strings.Split (l +:+ String sep0 sep' +:+ r) (String sep0 sep')
  = l :: Strings.Split r (String sep0 sep').
Proof.
  intros H. unfold Strings.Split.
  rewrite split_go_before by done. rewrite app_empty_l. apply split_go_at.
Qed.

(** C7, amended: a [v-for] operand is split at every [ in ].  The first
    piece [l] is the left side, the second piece [m], which ends at the next
    [ in ] or at the end of the operand, is the array key when trimmed; what
    comes after a second [ in ] is dropped.  A left side with a comma is
    stripped of parentheses and split on the comma into item key and index
    key (the split cannot fail); a left side without a comma is the item key
    and the index key is [$index]. *)
Theorem parseVFor_operand (l m tail : string) :
  Strings.Index (l +:+ " in " +:+ m +:+ tail) " in " = Some (String.length l) →
  (tail = EmptyString ∧ Strings.Index m " in " = None)
  ∨ (∃ rest, tail = " in " +:+ rest
             ∧ Strings.Index (m +:+ " in " +:+ rest) " in " = Some (String.length m)) →
  let left := Strings.Trim l " " in
  (Strings.Contains left "," = false →
     Lifter.parseVFor (l +:+ " in " +:+ m +:+ tail)
     = Ok {| VFor.ArrayKey := Strings.Trim m " ";
             VFor.ItemKey := left;
             VFor.IndexKey := "$index" |})
  ∧ (Strings.Contains left "," = true →
     ∃ item index rest,
       Strings.Split (Strings.Trim left "()") "," = item :: index :: rest
       ∧ Lifter.parseVFor (l +:+ " in " +:+ m +:+ tail)
         = Ok {| VFor.ArrayKey := Strings.Trim m " ";
                 VFor.ItemKey := Strings.Trim item " ";
                 VFor.IndexKey := Strings.Trim index " " |}).
Proof.
  intros H1 H2 left.
  assert (∃ more, Strings.Split (l +:+ " in " +:+ m +:+ tail) " in " = l :: m :: more)
    as [more Hs].
  { rewrite (Split_first " " "in " l (m +:+ tail) H1).
    destruct H2 as [[-> H2]|(rest & -> & H2)].
    - exists []. rewrite app_empty_r. unfold Strings.Split.
      by rewrite split_go_last.
    - eexists. by rewrite (Split_first " " "in " m rest H2). }
  unfold Lifter.parseVFor. rewrite Hs. simpl. fold left. split; intros Hc.
  - by rewrite Hc.
  - rewrite Hc.
    destruct (split_go_contains "," (Strings.Trim left "()") EmptyString)
      as (item & index & rest & Hsplit).
    { unfold Strings.Trim. by apply TrimRight_parens_comma, TrimLeft_parens_comma. }
    exists item, index, rest. unfold Strings.Split. rewrite Hsplit. done.
Qed.

Lemma parseVFor_operand_witness :
  Lifter.parseVFor "(it, i) in xs"
  = Ok {| VFor.ArrayKey := "xs"; VFor.ItemKey := "it"; VFor.IndexKey := "i" |}
  ∧ Lifter.parseVFor "item in list"
    = Ok {| VFor.ArrayKey := "list"; VFor.ItemKey := "item"; VFor.IndexKey := "$index" |}
  ∧ Lifter.parseVFor "a in b in c"
    = Ok {| VFor.ArrayKey := "b"; VFor.ItemKey := "a"; VFor.IndexKey := "$index" |}.
Proof.
  split; [|split].
  - destruct (parseVFor_operand "(it, i)" "xs" EmptyString eq_refl (or_introl (conj eq_refl eq_refl)))
      as [_ H].
    destruct (H eq_refl) as (item & index & rest & Hs & Hp).
    vm_compute in Hs. simplify_eq. exact Hp.
  - destruct (parseVFor_operand "item" "list" EmptyString eq_refl (or_introl (conj eq_refl eq_refl)))
      as [H _].
    exact (H eq_refl).
  - destruct (parseVFor_operand "a" "b" " in c" eq_refl
                (or_intror (ex_intro _ "c" (conj eq_refl eq_refl))))
      as [H _].
    exact (H eq_refl).
Defined.

(** C7 as it is worded fails on an operand with [ in ] at two places: the
    array key is the piece in the middle, not what is to the right of the
    first [ in ] and not what is to the right of the last. *)
Lemma parseVFor_operand_counterexample :
  ∃ f, Lifter.parseVFor "a in b in c" = Ok f
       ∧ VFor.ArrayKey f = "b"
       ∧ VFor.ArrayKey f ≠ Strings.Trim "b in c" " "
       ∧ VFor.ArrayKey f ≠ Strings.Trim "c" " ".
Proof. eexists. split; [by vm_compute|]. by vm_compute. Qed.

(** ** The else-chain cursor of [parseList] *)

Module LifterFacts.
Import Lifter.

Lemma addElseIfAt_ok j i x l u p :
  l !! j = Some u → VIf u = Some p →
  addElseIfAt j i x l = Ok (chained j u p (pointTo i x) l).
Proof. intros Hu Hp. unfold addElseIfAt. by rewrite Hu, Hp. Qed.

Lemma cursor_lookup_app w v j u :
  vs w !! j = Some u → (vs w ++ [v]) !! j = Some u.
Proof. intros H. by apply lookup_app_l_Some. Qed.

(** The walk over the siblings keeps a cursor to the last [v-if] node.
    A node with [v-if] and no else mark becomes the cursor; a node without
    [v-if] of its own that carries [v-else-if] or [v-else] goes to the chain
    of the node under the cursor, and [v-else] clears the cursor afterwards;
    a node that carries none of the three clears the cursor; on a node
    without [v-if] of its own, [v-else-if] or [v-else] without a cursor is a
    panic. *)
Theorem linkElse_cursor (i : nat) (v : VueElement)
    (vElse vElseIf : option (ElseIf.t (option nat))) (w : Walk) :
  (* a node with v-if and nothing else is the new cursor *)
  (VIf v ≠ None → vElse = None → vElseIf = None →
     linkElse i v vElse vElseIf w = Ok {| vs := vs w ++ [v]; ifVueEle := Some i |})
  (* v-else-if is appended to the chain of the node under the cursor *)
  ∧ (∀ j x, VIf v = None → cursor_ok w → ifVueEle w = Some j →
       vElseIf = Some x → vElse = None →
       ∃ u p, vs w !! j = Some u ∧ VIf u = Some p ∧
         linkElse i v vElse vElseIf w
         = Ok {| vs := chained j u p (pointTo i x) (vs w ++ [v]);
                 ifVueEle := Some j |})
  (* v-else is appended too and closes the chain *)
  ∧ (∀ j x, VIf v = None → cursor_ok w → ifVueEle w = Some j →
       vElseIf = None → vElse = Some x →
       ∃ u p, vs w !! j = Some u ∧ VIf u = Some p ∧
         linkElse i v vElse vElseIf w
         = Ok {| vs := chained j u p (pointTo i x) (vs w ++ [v]);
                 ifVueEle := None |})
  (* any other sibling clears the cursor *)
  ∧ (VIf v = None → vElse = None → vElseIf = None →
       linkElse i v vElse vElseIf w = Ok {| vs := vs w ++ [v]; ifVueEle := None |})
  (* a dangling v-else-if or v-else is fatal *)
  ∧ (VIf v = None → ifVueEle w = None → vElseIf ≠ None →
       linkElse i v vElse vElseIf w = Err "v-else-if must below v-if")
  ∧ (VIf v = None → ifVueEle w = None → vElseIf = None → vElse ≠ None →
       linkElse i v vElse vElseIf w = Err "v-else must below v-if").
Proof.
  unfold linkElse. repeat split.
  - intros Hif -> ->. simpl. by rewrite bool_decide_eq_true_2.
  - intros j x Hif Hok Hj -> ->. destruct (Hok j Hj) as (u & p & Hu & Hp).
    exists u, p. do 2 (split; [done|]). rewrite Hif. simpl. rewrite Hj.
    by rewrite (addElseIfAt_ok j i x _ u p) by eauto using cursor_lookup_app.
  - intros j x Hif Hok Hj -> ->. destruct (Hok j Hj) as (u & p & Hu & Hp).
    exists u, p. do 2 (split; [done|]). rewrite Hif. simpl. rewrite Hj.
    by rewrite (addElseIfAt_ok j i x _ u p) by eauto using cursor_lookup_app.
  - by intros -> -> ->.
  - intros Hif Hw Hx. rewrite Hif. destruct vElseIf as [x|]; [|done].
    simpl. rewrite andb_false_r. by rewrite Hw.
  - intros Hif Hw -> Hx. rewrite Hif. destruct vElse as [x|]; [|done].
    simpl. by rewrite Hw.
Qed.

(** The invariant [cursor_ok] holds all along the walk. *)
Lemma cursor_ok_preserved v vElse vElseIf w w' :
  cursor_ok w → linkElse (length (vs w)) v vElse vElseIf w = Ok w' → cursor_ok w'.
Proof.
  intros Hok. unfold linkElse.
  set (cur1 := if bool_decide (VIf v ≠ None) then _ else _).
  assert (∀ j, cur1 = Some j → ∃ u p, (vs w ++ [v]) !! j = Some u ∧ VIf u = Some p) as H1.
  { intros j. unfold cur1. case_bool_decide as Hif.
    - intros [= <-]. destruct (VIf v) as [p|] eqn:Hp; [|done].
      exists v, p. split; [|done]. by rewrite lookup_app_r, Nat.sub_diag.
    - destruct (_ && _); [done|]. intros Hj.
      destruct (Hok j Hj) as (u & p & Hu & Hp). eauto using cursor_lookup_app. }
  assert (∀ j i x l l', (∀ k, cur1 = Some k → ∃ u p, l !! k = Some u ∧ VIf u = Some p) →
            addElseIfAt j i x l = Ok l' →
            ∀ k, cur1 = Some k → ∃ u p, l' !! k = Some u ∧ VIf u = Some p) as Hadd.
  { intros j i x l l' Hl Hx k Hk. unfold addElseIfAt in Hx.
    destruct (l !! j) as [u|] eqn:Hu; [|done].
    destruct (VIf u) as [p|] eqn:Hp; [|done]. simplify_eq.
    destruct (decide (k = j)) as [->|Hne].
    - eexists _, _. split; [apply list_lookup_insert_eq; by eapply lookup_lt_Some|done].
    - rewrite list_lookup_insert_ne by done. by apply Hl. }
  intros Hw.
  destruct vElseIf as [x|]; simpl in Hw.
  - destruct cur1 as [j|] eqn:Hc; [|done].
    destruct (addElseIfAt j _ x _) as [vs2|] eqn:H2; [|done]. simpl in Hw.
    pose proof (Hadd _ _ _ _ _ H1 H2) as H3.
    destruct vElse as [y|].
    + destruct (addElseIfAt j _ y vs2) as [vs3|]; [|done]. simpl in Hw. simplify_eq.
      intros k Hk. simpl in Hk. discriminate.
    + simplify_eq. intros k Hk. simpl in *. by apply H3.
  - destruct vElse as [y|].
    + destruct cur1 as [j|] eqn:Hc; [|done].
      destruct (addElseIfAt j _ y _) as [vs3|]; [|done]. simpl in Hw. simplify_eq.
      intros k Hk. simpl in Hk. discriminate.
    + simplify_eq. intros k Hk. simpl in *. by apply H1.
Qed.

Lemma linkElse_cursor_witness :
  let ifNode := plainNode "p" (set_vIf emptyBuckets (Some (VIf.Build "a" []))) in
  let x := ElseIf.Build "else" EmptyString None in
  let elseNode := plainNode "p" (set_vElse emptyBuckets (Some x)) in
  let w := {| vs := [ifNode]; ifVueEle := Some 0 |} in
  (linkElse 1 elseNode (Some x) None w
   = Ok {| vs := [set_VIf ifNode (Some (VIf.Build "a" [ElseIf.Build "else" EmptyString (Some 1)]));
               elseNode];
           ifVueEle := None |})
  ∧ linkElse 0 elseNode (Some x) None {| vs := []; ifVueEle := None |}
    = Err "v-else must below v-if"
  ∧ linkElse 0 ifNode None None {| vs := []; ifVueEle := None |} = Ok w
  ∧ linkElse 1 (plainNode "q" emptyBuckets) None None w
    = Ok {| vs := [ifNode; plainNode "q" emptyBuckets]; ifVueEle := None |}.
Proof.
  intros ifNode x elseNode w.
  assert (cursor_ok w) as Hok.
  { intros j [= <-]. by exists ifNode, (VIf.Build "a" []). }
  split; [|split; [|split]].
  - destruct (linkElse_cursor 1 elseNode (Some x) None w) as (_ & _ & H & _).
    destruct (H 0 x eq_refl Hok eq_refl eq_refl eq_refl) as (u & p & Hu & Hp & ->).
    simpl in Hu. simplify_eq. vm_compute in Hp. by simplify_eq.
  - destruct (linkElse_cursor 0 elseNode (Some x) None {| vs := []; ifVueEle := None |})
      as (_ & _ & _ & _ & _ & H).
    by apply H.
  - destruct (linkElse_cursor 0 ifNode None None {| vs := []; ifVueEle := None |})
      as (H & _).
    by apply H.
  - destruct (linkElse_cursor 1 (plainNode "q" emptyBuckets) None None w)
      as (_ & _ & _ & H & _).
    by apply H.
Defined.

(** C6: an else mark on a node that has a [v-if] of its own is not fatal
    when no cursor is set, and does not go to the chain of the [v-if] node
    before it.  The cursor is moved to the node before the else marks are
    looked at, so the node is appended to its own chain:
    [<p v-if="a" v-else>] as the first sibling is lifted without a panic,
    with an [else] entry that points to the node itself, where
    [<p v-else>] is the panic.  This is so for every node with [v-if] and
    [v-else], whatever the cursor was. *)
Theorem else_on_if_node :
  (∃ v, parseList [tag "p" [attr "v-if" "a"; attr "v-else" EmptyString]] = Ok [v]
        ∧ VIf v = Some (VIf.Build "a" [ElseIf.Build "else" EmptyString (Some 0)])
        ∧ VElse v = true)
  ∧ (∃ v, parseList [tag "p" [attr "v-if" "a"; attr "v-else-if" "b"]] = Ok [v]
          ∧ VIf v = Some (VIf.Build "a" [ElseIf.Build "elseif" "b" (Some 0)])
          ∧ VElseIf v = true)
  ∧ parseList [tag "p" [attr "v-else" EmptyString]] = Err "v-else must below v-if"
  ∧ (∀ v0 p x w,
       linkElse (length (vs w)) (set_VIf v0 (Some p)) (Some x) None w
       = Ok {| vs := vs w ++ [set_VIf v0 (Some (VIf.AddElseIf p (pointTo (length (vs w)) x)))];
               ifVueEle := None |}).
Proof.
  split; [eexists; split; [by vm_compute|done]|].
  split; [eexists; split; [by vm_compute|done]|].
  split; [by vm_compute|].
  intros v0 p x w. unfold linkElse. simpl.
  unfold addElseIfAt.
  rewrite lookup_app_r by done. rewrite Nat.sub_diag. simpl.
  rewrite insert_app_r_alt by done. rewrite Nat.sub_diag. simpl.
  by destruct v0.
Qed.

(** The chain of the third scenario of the specification, and a dangling
    [v-else]. *)

Example parseList_chain :
  rmap (map (λ v, (VIf v, VElseIf v, VElse v)))
    (parseList [tag "p" [attr "v-if" "a"]; tag "p" [attr "v-else-if" "b"];
                tag "p" [attr "v-else" EmptyString]; tag "p" [attr "v-else" EmptyString]])
  = Err "v-else must below v-if"
  ∧ rmap (map (λ v, (VIf v, VElseIf v, VElse v)))
      (parseList [tag "p" [attr "v-if" "a"]; tag "p" [attr "v-else-if" "b"];
                  tag "p" [attr "v-else" EmptyString]; tag "p" []])
    = Ok [(Some (VIf.Build "a" [ElseIf.Build "elseif" "b" (Some 1);
                                ElseIf.Build "else" EmptyString (Some 2)]), false, false);
          (None, true, false); (None, false, true); (None, false, false)].
Proof. split; vm_compute; reflexivity. Qed.

Example parseList_broken_chain :
  parseList [tag "p" [attr "v-if" "a"]; tag "q" []; tag "p" [attr "v-else-if" "b"]]
  = Err "v-else-if must below v-if".
Proof. vm_compute. reflexivity. Qed.

End LifterFacts.

(** ** The generator: unfolding and the monad *)

Section GeneratorFacts.

Context (rangeOrder : nat → list (string * string) → list (string * string))
        (Js2Go : string → string → Result string)
        (getPropsClass getPropsStyle : Props.t → Result string)
        (genAttrCode : VueElement → Props.t → Result string).

Local Abbreviation GenCode := (GenCode rangeOrder Js2Go getPropsClass getPropsStyle genAttrCode).
Local Abbreviation genElement := (genElement rangeOrder Js2Go getPropsClass getPropsStyle genAttrCode).
Local Abbreviation ToGoCode := (ToGoCode rangeOrder Js2Go getPropsClass getPropsStyle).
Local Abbreviation injectVal := (injectVal Js2Go).
Local Abbreviation injectVal_go := (injectVal_go Js2Go).

Lemma GenCode_unfold (e : VueElement) (app : App) :
  GenCode e app =
  (let* '(defaultSlotCode, namedSlotCode) :=
     genChildren (λ v, GenCode v app) (Children e) EmptyString ∅ in
   let defaultSlotCode :=
     if bool_decide (defaultSlotCode = EmptyString) then dq +:+ dq
     else defaultSlotCode in
   let* eleCode := genElement e app defaultSlotCode namedSlotCode in
   let eleCode := decorateFor e eleCode in
   let '(eleCode, namedSlotCode) := decorateSlot e eleCode namedSlotCode in
   match VIf e with
   | Some vi =>
       let* '(eleCode, namedSlotCode2) :=
         genVIf_with Js2Go (λ v, GenCode v app) vi eleCode in
       gret (eleCode, namedSlotCode2 ∪ namedSlotCode)
   | None => gret (eleCode, namedSlotCode)
   end).
Proof. by destruct e. Qed.

(** ** Text nodes and interpolation *)

Lemma injectVal_go_cons c (s : string) :
  injectVal_go (String c s) 0
  = match openBraces (String c s) ≫= findClose with
    | Some key =>
        rbind (Js2Go key DataKey) (λ goCode,
        rbind (injectVal_go s (String.length key + 3)) (λ rest,
          Ok (dq +:+ "+interfaceToStr(" +:+ goCode +:+ ")+" +:+ dq +:+ rest)))
    | None => rmap (String c) (injectVal_go s 0)
    end.
Proof. reflexivity. Qed.

Lemma injectVal_go_skip (a b : string) :
  injectVal_go (a +:+ b) (String.length a) = injectVal_go b 0.
Proof. induction a as [|c a IH]; [done|]. rewrite app_cons. simpl. apply IH. Qed.

Lemma length_app_s (a b : string) :
  String.length (a +:+ b) = String.length a + String.length b.
Proof. induction a as [|c a IH]; [done|]. rewrite app_cons. simpl. by rewrite IH. Qed.

Lemma mem_cons c d (s : string) :
  Strings.mem c (String d s) = bool_decide (c = d) || Strings.mem c s.
Proof.
  unfold Strings.mem.
  change (String.list_ascii_of_string (String d s))
    with (d :: String.list_ascii_of_string s).
  rewrite <- bool_decide_or. apply bool_decide_ext, elem_of_cons.
Qed.

Lemma mem_cons_false c d (s : string) :
  Strings.mem c (String d s) = false → c ≠ d ∧ Strings.mem c s = false.
Proof.
  rewrite mem_cons. intros [H1 H2]%orb_false_elim.
  by apply bool_decide_eq_false in H1.
Qed.

(** The lazy [.+?] stops at the first pair of closing braces. *)
Lemma findClose_key (key post : string) :
  key ≠ EmptyString →
  Strings.mem "}"%char key = false →
  Strings.mem "010"%char key = false →
  findClose (key +:+ "}}" +:+ post) = Some key.
Proof.
  induction key as [|c key IH]; [done|]. intros _ Hb Hn.
  apply mem_cons_false in Hb as [Hb1 Hb2]. apply mem_cons_false in Hn as [Hn1 Hn2].
  rewrite app_cons. simpl. rewrite bool_decide_eq_false_2 by congruence.
  destruct key as [|d key].
  - rewrite app_empty_l. change ("}}" +:+ post) with (String "}" (String "}" post)).
    by rewrite !prefix_cons, prefix_empty.
  - rewrite IH by done. apply mem_cons_false in Hb2 as [Hd _].
    rewrite app_cons, prefix_cons. by rewrite decide_False.
Qed.

(** Text without an opening brace is left as it is. *)
Lemma injectVal_plain (s : string) :
  Strings.mem "{"%char s = false → injectVal s = Ok s.
Proof.
  unfold injectVal. induction s as [|c s IH]; [done|].
  intros [Hc Hs]%mem_cons_false. rewrite injectVal_go_cons.
  destruct c as [[] [] [] [] [] [] [] []]; try done; simpl; by rewrite IH.
Qed.

(** The first interpolation of a text: what is before it stays, the
    expression goes through the transpiler with the scope [this], what is
    after it is treated in the same way. *)
Lemma injectVal_interpolation (pre key post : string) :
  Strings.mem "{"%char pre = false →
  key ≠ EmptyString →
  Strings.mem "}"%char key = false →
  Strings.mem "010"%char key = false →
  injectVal (pre +:+ "{{" +:+ key +:+ "}}" +:+ post)
  = rbind (Js2Go key "this") (λ goCode,
    rbind (injectVal post) (λ rest,
      Ok (pre +:+ dq +:+ "+interfaceToStr(" +:+ goCode +:+ ")+" +:+ dq +:+ rest))).
Proof.
  intros Hpre Hkey Hb Hn. unfold injectVal.
  induction pre as [|c pre IH].
  - rewrite app_empty_l.
    change ("{{" +:+ key +:+ "}}" +:+ post)
      with (String "{" (String "{" (key +:+ "}}" +:+ post))).
    rewrite injectVal_go_cons.
    change (openBraces (String "{" (String "{" (key +:+ "}}" +:+ post))) ≫= findClose)
      with (findClose (key +:+ "}}" +:+ post)).
    rewrite findClose_key by done.
    assert (injectVal_go (String "{" (key +:+ "}}" +:+ post)) (String.length key + 3)
            = injectVal_go post 0) as ->; [|done].
    replace (String.length key + 3) with (S (String.length (key +:+ "}}")))
      by (rewrite length_app_s; simpl; lia).
    change (injectVal_go (String "{" (key +:+ "}}" +:+ post)) (S (String.length (key +:+ "}}"))))
      with (injectVal_go (key +:+ "}}" +:+ post) (String.length (key +:+ "}}"))).
    by rewrite <- app_assoc_s, injectVal_go_skip.
  - apply mem_cons_false in Hpre as [Hc Hpre]. rewrite app_cons, injectVal_go_cons.
    specialize (IH Hpre).
    replace (openBraces (String c (pre +:+ "{{" +:+ key +:+ "}}" +:+ post)) ≫= findClose)
      with (@None string).
    + rewrite IH. destruct (Js2Go key "this"); [|done]. simpl.
      by destruct (injectVal_go post 0).
    + destruct c as [[] [] [] [] [] [] [] []]; done.
Qed.

Lemma prefix_split (p s : string) :
  String.prefix p s = true → ∃ t, s = p +:+ t.
Proof.
  revert s. induction p as [|a p IH]; intros s H.
  - by exists s.
  - destruct s as [|b s]; [done|]. rewrite prefix_cons in H.
    destruct (decide (a = b)) as [->|]; [|done].
    destruct (IH s H) as [t ->]. by exists t.
Qed.

Lemma app_inj_length (a b x y : string) :
  a +:+ x = b +:+ y → String.length a = String.length b → a = b ∧ x = y.
Proof.
  revert b. induction a as [|c a IH]; intros [|d b] H Hl; try done.
  rewrite !app_cons in H. injection H as -> H. simpl in Hl.
  destruct (IH b H) as [-> ->]; [lia|done].
Qed.

Lemma app_inv_head_s (a x y : string) : a +:+ x = a +:+ y → x = y.
Proof. intros H. by destruct (app_inj_length a a x y H). Qed.

(** What [findClose] returns is a key, closed right after it, and no
    shorter run is closed. *)
Lemma findClose_sound (rest key : string) :
  findClose rest = Some key →
  ∃ post, rest = key +:+ "}}" +:+ post
          ∧ key ≠ EmptyString ∧ Strings.mem "010"%char key = false
          ∧ ∀ k r, rest = k +:+ "}}" +:+ r → k ≠ EmptyString →
                   String.length key ≤ String.length k.
Proof.
  revert key. induction rest as [|c s IH]; intros key; [done|].
  simpl. case_bool_decide as Hc; [done|].
  destruct (String.prefix "}}" s) eqn:Hp.
  - intros [= <-]. apply prefix_split in Hp as [post ->]. exists post.
    split; [done|]. split; [done|]. split.
    + rewrite mem_cons. rewrite bool_decide_eq_false_2 by congruence. done.
    + intros [|d k] r _ Hk; [done|]. simpl. lia.
  - destruct (findClose s) as [key'|] eqn:Hf; [|done]. intros [= <-].
    destruct (IH key' eq_refl) as (post & Hs & Hne & Hnl & Hmin).
    exists post. split; [by rewrite Hs|]. split; [done|]. split.
    + rewrite mem_cons, Hnl. rewrite bool_decide_eq_false_2 by congruence. done.
    + intros [|d k] r Hr Hk; [done|]. rewrite app_cons in Hr. injection Hr as _ Hr.
      destruct k as [|d' k].
      * rewrite app_empty_l in Hr. rewrite Hr in Hp.
        change ("}}" +:+ r) with (String "}" (String "}" r)) in Hp.
        by rewrite !prefix_cons, prefix_empty in Hp.
      * simpl. specialize (Hmin (String d' k) r Hr). simpl in Hmin.
        assert (String d' k ≠ EmptyString) as Hd by done. specialize (Hmin Hd). lia.
Qed.

(** Where a key is closed, [findClose] finds one. *)
Lemma findClose_complete (k r : string) :
  k ≠ EmptyString → Strings.mem "010"%char k = false →
  ∃ key, findClose (k +:+ "}}" +:+ r) = Some key.
Proof.
  induction k as [|c k IH]; [done|]. intros _ Hn.
  apply mem_cons_false in Hn as [Hc Hn]. rewrite app_cons. simpl.
  rewrite bool_decide_eq_false_2 by congruence.
  destruct (String.prefix "}}" (k +:+ "}}" +:+ r)) eqn:Hp; [by eexists|].
  destruct k as [|d k].
  - rewrite app_empty_l in Hp.
    change ("}}" +:+ r) with (String "}" (String "}" r)) in Hp.
    by rewrite !prefix_cons, prefix_empty in Hp.
  - destruct (IH ltac:(done) Hn) as [key ->]. by eexists.
Qed.

Lemma openBraces_Some (s rest : string) :
  openBraces s = Some rest ↔ s = "{{" +:+ rest.
Proof.
  split.
  - destruct s as [|a [|b s]]; try done; simpl.
    + destruct a as [[] [] [] [] [] [] [] []]; done.
    + destruct a as [[] [] [] [] [] [] [] []]; try done.
      destruct b as [[] [] [] [] [] [] [] []]; try done. by intros [= ->].
  - by intros ->.
Qed.

(** A match at the head of the text, in terms of interpolations. *)
Lemma match_head_sound (s key : string) :
  openBraces s ≫= findClose = Some key →
  ∃ post, interpolationAt s EmptyString key post
          ∧ ∀ k r, interpolationAt s EmptyString k r →
                   String.length key ≤ String.length k.
Proof.
  destruct (openBraces s) as [rest|] eqn:Ho; [|done]. simpl. intros Hf.
  apply openBraces_Some in Ho as ->.
  destruct (findClose_sound _ _ Hf) as (post & -> & Hne & Hnl & Hmin).
  exists post. split; [done|]. intros k r (Hk & Hkne & _).
  rewrite !app_empty_l in Hk. apply (app_inv_head_s "{{") in Hk. by eapply Hmin.
Qed.

Lemma match_head_complete (s k r : string) :
  interpolationAt s EmptyString k r → ∃ key, openBraces s ≫= findClose = Some key.
Proof.
  intros (-> & Hne & Hnl). rewrite app_empty_l.
  change (openBraces ("{{" +:+ k +:+ "}}" +:+ r) ≫= findClose)
    with (findClose (k +:+ "}}" +:+ r)).
  by apply findClose_complete.
Qed.

Lemma interpolationAt_cons c (s p k r : string) :
  interpolationAt (String c s) (String c p) k r ↔ interpolationAt s p k r.
Proof.
  unfold interpolationAt. rewrite app_cons. split.
  - intros (H & ? & ?). by injection H as ->.
  - by intros (-> & ? & ?).
Qed.

Lemma interpolationAt_head c (s p k r : string) :
  interpolationAt (String c s) p k r →
  p = EmptyString ∨ ∃ p', p = String c p' ∧ interpolationAt s p' k r.
Proof.
  destruct p as [|d p]; [by left|]. intros H. right.
  assert (d = c) as ->.
  { destruct H as (H & _). rewrite app_cons in H. by injection H. }
  exists p. split; [done|]. exact (proj1 (interpolationAt_cons _ _ _ _ _) H).
Qed.

(** Text without an interpolation is left as it is. *)
Lemma injectVal_none (s : string) :
  (∀ p k r, ¬ interpolationAt s p k r) → injectVal s = Ok s.
Proof.
  unfold injectVal. induction s as [|c s IH]; [done|]. intros Hno.
  rewrite injectVal_go_cons.
  destruct (openBraces (String c s) ≫= findClose) as [key|] eqn:Hm.
  - destruct (match_head_sound _ _ Hm) as (post & Hi & _). by destruct (Hno _ _ _ Hi).
  - rewrite IH; [done|]. intros p k r Hi. apply (Hno (String c p) k r).
    exact (proj2 (interpolationAt_cons _ _ _ _ _) Hi).
Qed.

(** The first interpolation is replaced, what is before it stays, what is
    after it is treated in the same way. *)
Lemma injectVal_first (s pre key post : string) :
  firstInterpolation s pre key post →
  injectVal s
  = rbind (Js2Go key "this") (λ goCode,
    rbind (injectVal post) (λ rest,
      Ok (pre +:+ dq +:+ "+interfaceToStr(" +:+ goCode +:+ ")+" +:+ dq +:+ rest))).
Proof.
  unfold injectVal. revert s. induction pre as [|c pre IH]; intros s [Hi Hmin].
  - assert (s = "{{" +:+ key +:+ "}}" +:+ post) as Hs by (by destruct Hi).
    destruct (match_head_complete _ _ _ Hi) as [key0 Hm].
    destruct (match_head_sound _ _ Hm) as (post0 & Hi0 & Hshort).
    assert (key0 = key ∧ post0 = post) as [-> ->].
    { pose proof (Hshort _ _ Hi) as H1.
      destruct (Hmin _ _ _ Hi0) as [H2|[_ H2]]; [simpl in H2; lia|].
      destruct Hi0 as (Hs0 & _). rewrite Hs, !app_empty_l in Hs0.
      apply (app_inv_head_s "{{") in Hs0.
      destruct (app_inj_length key key0 ("}}" +:+ post) ("}}" +:+ post0) Hs0) as [-> E];
        [lia|].
      by apply (app_inv_head_s "}}") in E. }
    rewrite Hs in *.
    change ("{{" +:+ key +:+ "}}" +:+ post)
      with (String "{" (String "{" (key +:+ "}}" +:+ post))) in *.
    rewrite injectVal_go_cons, Hm.
    assert (injectVal_go (String "{" (key +:+ "}}" +:+ post)) (String.length key + 3)
            = injectVal_go post 0) as ->; [|done].
    replace (String.length key + 3) with (S (String.length (key +:+ "}}")))
      by (rewrite length_app_s; simpl; lia).
    change (injectVal_go (String "{" (key +:+ "}}" +:+ post)) (S (String.length (key +:+ "}}"))))
      with (injectVal_go (key +:+ "}}" +:+ post) (String.length (key +:+ "}}"))).
    by rewrite <- app_assoc_s, injectVal_go_skip.
  - destruct s as [|d s]; [by destruct Hi|].
    assert (d = c) as ->.
    { destruct Hi as (H & _). rewrite app_cons in H. by injection H. }
    rewrite injectVal_go_cons.
    destruct (openBraces (String c s) ≫= findClose) as [key0|] eqn:Hm.
    { destruct (match_head_sound _ _ Hm) as (post0 & Hi0 & _).
      destruct (Hmin _ _ _ Hi0) as [H|[H _]]; [simpl in H; lia|done]. }
    rewrite (IH s).
    + destruct (Js2Go key "this"); [|done]. simpl.
      by destruct (injectVal_go post 0).
    + split; [exact (proj1 (interpolationAt_cons _ _ _ _ _) Hi)|].
      intros p k r Hp. apply (proj2 (interpolationAt_cons c _ _ _ _)) in Hp.
      destruct (Hmin _ _ _ Hp) as [H|[H ?]]; [left; simpl in H; lia|right].
      by injection H as ->.
Qed.

(** Every text either has no interpolation or has a first one. *)
Lemma interpolation_cases (s : string) :
  (∀ p k r, ¬ interpolationAt s p k r)
  ∨ ∃ pre key post, firstInterpolation s pre key post.
Proof.
  induction s as [|c s IH].
  - left. intros p k r (H & _). by destruct p.
  - destruct (openBraces (String c s) ≫= findClose) as [key|] eqn:Hm.
    + right. destruct (match_head_sound _ _ Hm) as (post & Hi & Hshort).
      exists EmptyString, key, post. split; [done|]. intros p k r Hp.
      destruct p as [|d p]; [right; split; [done|by eapply Hshort]|left; simpl; lia].
    + assert (∀ k r, ¬ interpolationAt (String c s) EmptyString k r) as Hhead.
      { intros k r Hi. destruct (match_head_complete _ _ _ Hi) as [key Hk]. congruence. }
      destruct IH as [Hno|(pre & key & post & Hi & Hmin)].
      * left. intros p k r Hp.
        destruct (interpolationAt_head _ _ _ _ _ Hp) as [->|(p' & -> & Hp')].
        -- by eapply Hhead.
        -- by eapply Hno.
      * right. exists (String c pre), key, post. split; [exact (proj2 (interpolationAt_cons _ _ _ _ _) Hi)|].
        intros p k r Hp.
        destruct (interpolationAt_head _ _ _ _ _ Hp) as [->|(p' & -> & Hp')].
        -- by destruct (Hhead _ _ Hp).
        -- destruct (Hmin _ _ _ Hp') as [H|[-> H]]; [left; simpl; lia|by right].
Qed.

Lemma key_not_shorter (key k x r : string) :
  Strings.mem "}"%char key = false →
  key +:+ x = k +:+ "}}" +:+ r → String.length key ≤ String.length k.
Proof.
  revert k. induction key as [|c key IH]; intros k Hm H; [simpl; lia|].
  apply mem_cons_false in Hm as [Hc Hm].
  destruct k as [|d k].
  - rewrite app_empty_l in H. rewrite app_cons in H.
    change ("}}" +:+ r) with (String "}" (String "}" r)) in H. by injection H as ->.
  - rewrite !app_cons in H. injection H as _ H. simpl.
    specialize (IH k Hm H). lia.
Qed.

(** Where no pair of opening braces comes before it and the key has no
    closing brace, an interpolation is the first one. *)
Lemma firstInterpolation_plain (pre key post : string) :
  Strings.Index (pre +:+ "{") "{{" = None →
  key ≠ EmptyString →
  Strings.mem "}"%char key = false →
  Strings.mem "010"%char key = false →
  firstInterpolation (pre +:+ "{{" +:+ key +:+ "}}" +:+ post) pre key post.
Proof.
  intros Hpre Hne Hb Hn. split; [done|].
  induction pre as [|c pre IH]; intros p k r Hp.
  - destruct p as [|d p]; [right|left; simpl; lia]. split; [done|].
    destruct Hp as (Hp & _). rewrite !app_empty_l in Hp.
    apply (app_inv_head_s "{{") in Hp. by eapply key_not_shorter.
  - rewrite app_cons in Hp, Hpre. rewrite Index_cons in Hpre.
    destruct (String.prefix "{{" (String c (pre +:+ "{"))) eqn:Hpx; [done|].
    destruct (interpolationAt_head _ _ _ _ _ Hp) as [->|(p' & -> & Hp')].
    + destruct Hp as (Hp & _). rewrite app_empty_l in Hp.
      change ("{{" +:+ k +:+ "}}" +:+ r) with (String "{" (String "{" (k +:+ "}}" +:+ r))) in Hp.
      injection Hp as -> Hp.
      destruct pre as [|e pre].
      * by rewrite app_empty_l, !prefix_cons, prefix_empty in Hpx.
      * rewrite app_cons in Hp. injection Hp as -> _.
        by rewrite app_cons, !prefix_cons, prefix_empty in Hpx.
    + destruct (IH ltac:(by destruct (Strings.Index (pre +:+ "{") "{{")) _ _ _ Hp')
        as [H|[-> H]]; [left; simpl; lia|by right].
Qed.

Lemma ReplaceAll_nl_cons c (s new : string) :
  Strings.ReplaceAll (String c s) nl new
  = (if bool_decide (c = "010"%char) then new else String c EmptyString)
    +:+ Strings.ReplaceAll s nl new.
Proof.
  unfold Strings.ReplaceAll.
  change (Strings.replace_go nl new (String c s) 0)
    with (if String.prefix nl (String c s)
          then new +:+ Strings.replace_go nl new s (String.length nl - 1)
          else String c (Strings.replace_go nl new s 0)).
  rewrite prefix_nl. by case_bool_decide.
Qed.

Lemma genChildren_single gen (v : VueElement) (σ : Machine) :
  VElse v = false → VElseIf v = false →
  genChildren gen [v] EmptyString ∅ σ
  = match gen v σ with
    | Ok ((c, n), σ') => Ok ((c, n ∪ ∅), σ')
    | Err msg => Err msg
    end.
Proof.
  intros H1 H2. unfold genChildren, gbind. rewrite H1, H2. simpl.
  by destruct (gen v σ) as [[[c n] σ']|].
Qed.

(** The code of a text node that stands alone. *)
Lemma GenCode_text (e : VueElement) (app : App) (σ : Machine) :
  TagName e = "__string" → TagName e ∉ Components app → Children e = [] →
  VFor e = None → VSlot e = None → VIf e = None →
  GenCode e app σ
  = match injectVal (Strings.ReplaceAll (Text e) nl (bs +:+ "n")) with
    | Ok text => Ok ((dq +:+ text +:+ dq, ∅), σ)
    | Err msg => Err msg
    end.
Proof.
  intros Htag Happ Hch Hfor Hslot Hif. rewrite GenCode_unfold.
  unfold genElement, decorateFor, decorateSlot.
  rewrite Hch, Hfor, Hslot, Hif.
  rewrite (bool_decide_eq_false_2 _ Happ). rewrite Htag. simpl.
  unfold gbind, gret, lift. simpl.
  by destruct (injectVal _).
Qed.

(** C8: a text node is emitted as its text with line feeds escaped and
    every interpolation replaced, between quotes.  An interpolation is two
    opening braces, a non-empty key without line feed and two closing
    braces; the first one (leftmost, and shortest at its place) is replaced
    by a call of [interfaceToStr] on the key transpiled against [this], the
    text before it stays, the text after it is treated in the same way, and
    a text without interpolation stays as it is: every text is one of the
    two cases.  The span of the first scenario has
    [interfaceToStr(this["name"])] in its code. *)
Theorem text_node_code (app : App) :
  (∀ e σ,
     TagName e = "__string" → TagName e ∉ Components app → Children e = [] →
     VFor e = None → VSlot e = None → VIf e = None →
     GenCode e app σ
     = match injectVal (Strings.ReplaceAll (Text e) nl (bs +:+ "n")) with
       | Ok text => Ok ((dq +:+ text +:+ dq, ∅), σ)
       | Err msg => Err msg
       end)
  ∧ (∀ c s,
       Strings.ReplaceAll (String c s) nl (bs +:+ "n")
       = (if bool_decide (c = "010"%char) then bs +:+ "n" else String c EmptyString)
         +:+ Strings.ReplaceAll s nl (bs +:+ "n"))
  ∧ (∀ s pre key post,
       firstInterpolation s pre key post →
       injectVal s
       = rbind (Js2Go key "this") (λ goCode,
         rbind (injectVal post) (λ rest,
           Ok (pre +:+ dq +:+ "+interfaceToStr(" +:+ goCode +:+ ")+" +:+ dq +:+ rest))))
  ∧ (∀ s, (∀ p k r, ¬ interpolationAt s p k r) → injectVal s = Ok s)
  ∧ (∀ s, (∀ p k r, ¬ interpolationAt s p k r)
          ∨ ∃ pre key post, firstInterpolation s pre key post)
  ∧ (∀ σ l1 l2 attrs,
       let span := withChildren [withText "Hello {{ name }}" (element "__string" l1)]
                     (element "span" l2) in
       "span" ∉ Components app → "__string" ∉ Components app →
       Js2Go " name " "this" = Ok ("this[" +:+ dq +:+ "name" +:+ dq +:+ "]") →
       genAttrCode span (default ∅ (heap σ !! l2)) = Ok attrs →
       GenCode span app σ
       = Ok ((dq +:+ "<span" +:+ dq +:+ "+" +:+ attrs +:+ "+" +:+ dq +:+ ">" +:+ dq +:+ "+" +:+
              (dq +:+ "Hello " +:+ dq +:+
                 "+interfaceToStr(" +:+ ("this[" +:+ dq +:+ "name" +:+ dq +:+ "]") +:+ ")+" +:+
               dq +:+ dq) +:+
              "+" +:+ dq +:+ "</span>" +:+ dq, ∅), σ)).
Proof.
  split; [intros; by apply GenCode_text|].
  split; [intros; apply ReplaceAll_nl_cons|].
  split; [intros; by apply injectVal_first|].
  split; [intros; by apply injectVal_none|].
  split; [apply interpolation_cases|].
  intros σ l1 l2 attrs span Hspan Hstr Hjs Hattr.
  rewrite GenCode_unfold.
  change (Children span) with [withText "Hello {{ name }}" (element "__string" l1)].
  unfold gbind at 1. rewrite genChildren_single by done.
  rewrite GenCode_text by done.
  change (Text (withText "Hello {{ name }}" (element "__string" l1)))
    with "Hello {{ name }}".
  change (Strings.ReplaceAll "Hello {{ name }}" nl (bs +:+ "n"))
    with ("Hello " +:+ "{{" +:+ " name " +:+ "}}" +:+ EmptyString).
  rewrite injectVal_interpolation by done. rewrite Hjs.
  rewrite (injectVal_plain EmptyString) by done.
  unfold gbind, gret. simpl.
  unfold genElement.
  change (TagName span) with "span".
  rewrite (bool_decide_eq_false_2 _ Hspan). simpl.
  unfold gbind, gret, loadProps, lift. simpl.
  change (genAttrCode _ (default ∅ (heap σ !! l2))) with (genAttrCode span (default ∅ (heap σ !! l2))).
  rewrite Hattr. simpl.
  by rewrite app_empty_r.
Qed.

End GeneratorFacts.

Lemma Contains_app (a sub b : string) :
  sub ≠ EmptyString → Strings.Contains (a +:+ sub +:+ b) sub = true.
Proof.
  intros Hsub. unfold Strings.Contains. apply bool_decide_eq_true.
  induction a as [|c a IH].
  - rewrite app_empty_l. destruct sub as [|d sub]; [done|].
    rewrite app_cons, Index_cons, <- app_cons. by rewrite prefix_app.
  - rewrite app_cons, Index_cons. destruct (String.prefix _ _); [done|].
    by destruct (Strings.Index _ _).
Qed.

Lemma text_node_code_witness :
  GenCode_run canonicalOrder
    (withChildren [withText "Hello {{ name }}" (element "__string" 1%positive)]
       (element "span" 2%positive))
    NewApp (start ∅)
  = Ok ((dq +:+ "<span" +:+ dq +:+ "+" +:+ (dq +:+ dq) +:+ "+" +:+ dq +:+ ">" +:+ dq +:+ "+" +:+
         (dq +:+ "Hello " +:+ dq +:+
            "+interfaceToStr(" +:+ ("this[" +:+ dq +:+ "name" +:+ dq +:+ "]") +:+ ")+" +:+
          dq +:+ dq) +:+
         "+" +:+ dq +:+ "</span>" +:+ dq, ∅), start ∅)
  ∧ injectVal Js2Go_ident "a { b {{ x }} c"
    = Ok ("a { b " +:+ dq +:+ "+interfaceToStr(" +:+ ("this[" +:+ dq +:+ "x" +:+ dq +:+ "]")
          +:+ ")+" +:+ dq +:+ " c").
Proof.
  destruct (text_node_code canonicalOrder Js2Go_ident (getPropsClass_spec Js2Go_ident)
              (getPropsStyle_spec Js2Go_ident) genAttrCode_spec NewApp)
    as (_ & _ & Hfirst & Hnone & _ & H).
  split.
  - apply (H (start ∅) 1%positive 2%positive (dq +:+ dq)); try reflexivity.
    + unfold NewApp. simpl. set_unfold. intros [?|?]; discriminate.
    + unfold NewApp. simpl. set_unfold. intros [?|?]; discriminate.
  - rewrite (Hfirst "a { b {{ x }} c" "a { b " " x " " c").
    + rewrite Hnone; [by vm_compute|].
      intros p k r (Hs & _).
      assert (Strings.Contains (p +:+ "{{" +:+ k +:+ "}}" +:+ r) "{{" = true) as Hc
        by by apply Contains_app.
      rewrite <- Hs in Hc. by vm_compute in Hc.
    + by apply (firstInterpolation_plain "a { b " " x " " c").
Defined.

(** ** The decorators: [v-for], [v-slot], [v-if] *)

Section Decorators.

Context (rangeOrder : nat → list (string * string) → list (string * string))
        (Js2Go : string → string → Result string)
        (getPropsClass getPropsStyle : Props.t → Result string)
        (genAttrCode : VueElement → Props.t → Result string).

Local Abbreviation GenCode := (GenCode rangeOrder Js2Go getPropsClass getPropsStyle genAttrCode).
Local Abbreviation genBody := (genBody rangeOrder Js2Go getPropsClass getPropsStyle genAttrCode).
Local Abbreviation genVIf := (genVIf rangeOrder Js2Go getPropsClass getPropsStyle genAttrCode).

(** [GenCode] is the body followed by the three decorators in the order
    [v-for], [v-slot], [v-if]. *)
Lemma GenCode_decorate (e : VueElement) (app : App) (σ : Machine) :
  GenCode e app σ
  = match genBody e app σ with
    | Ok ((body, ns), σ1) =>
        let '(c, n) := decorateSlot e (decorateFor e body) ns in
        match VIf e with
        | Some vi =>
            match genVIf vi c app σ1 with
            | Ok ((c', n2), σ2) => Ok ((c', n2 ∪ n), σ2)
            | Err msg => Err msg
            end
        | None => Ok ((c, n), σ1)
        end
    | Err msg => Err msg
    end.
Proof.
  rewrite GenCode_unfold. unfold genBody, genVIf, gbind, gret.
  destruct (genChildren _ _ _ _ σ) as [[[d n] σ0]|]; [|done].
  destruct (genElement _ _ _ _ _ _ _ _ _ σ0) as [[c σ1]|]; [|done].
  destruct (decorateSlot e (decorateFor e c) n) as [c1 n1].
  destruct (VIf e) as [vi|]; [|done].
  by destruct (genVIf_with _ _ _ _ σ1) as [[[c' n2] σ2]|].
Qed.

Lemma genElseChain_extends gen (chain : list (ElseIf.t VueElement)) code ns σ code' ns' σ' :
  genElseChain Js2Go gen chain code ns σ = Ok ((code', ns'), σ') →
  ∃ rest, code' = code +:+ rest.
Proof.
  revert code ns σ. induction chain as [|v chain IH]; intros code ns σ H.
  - simpl in H. unfold gret in H. simplify_eq. exists EmptyString. by rewrite app_empty_r.
  - simpl in H. unfold gbind in H.
    destruct (gen (ElseIf.VueElement v) σ) as [[[c n] σ1]|]; [|done].
    case_bool_decide.
    + unfold gret in H. apply IH in H as [rest ->]. eexists. by rewrite app_assoc_s.
    + case_bool_decide.
      * unfold lift, gret in H. destruct (Js2Go _ _); [|done].
        apply IH in H as [rest ->]. eexists. by rewrite !app_assoc_s.
      * unfold gret in H. apply IH in H as [rest ->]. by eexists.
Qed.

(** The first branch of the ladder of [genVIf] returns [srcCode]. *)
Lemma genVIf_first_branch (vi : VIf.t VueElement) srcCode app σ code ns σ' :
  genVIf vi srcCode app σ = Ok ((code, ns), σ') →
  ∃ condition rest,
    Js2Go (VIf.Condition vi) DataKey = Ok condition
    ∧ code = ifOpen condition +:+ srcCode +:+ rest.
Proof.
  unfold genVIf, genVIf_with, gbind, lift, gret. intros H.
  destruct (Js2Go (VIf.Condition vi) DataKey) as [condition|]; [|done].
  destruct (genElseChain _ _ _ _ _ σ) as [[[c n] σ1]|] eqn:Hc; [|done].
  apply genElseChain_extends in Hc as [rest ->]. simplify_eq.
  exists condition. eexists. split; [done|].
  unfold ifOpen. rewrite !app_assoc_s. reflexivity.
Qed.

(** A node with [v-slot] and without [v-if] returns the empty string
    literal and the named slots of its children with one entry put under the
    slot name: a closure over [props] that rebinds [this] and returns the
    body wrapped by [v-for]. *)
Theorem slot_without_if (e : VueElement) (app : App) (σ : Machine) (s : VSlot.t) :
  VSlot e = Some s → VIf e = None →
  GenCode e app σ
  = match genBody e app σ with
    | Ok ((body, ns), σ1) =>
        Ok ((dq +:+ dq, <[VSlot.SlotName s := slotClosure s (decorateFor e body)]> ns), σ1)
    | Err msg => Err msg
    end
  ∧ (∀ body,
       slotClosure s body
       = "func(props map[string]interface{}) string{" +:+ nl +:+
         tab +:+ "this := extendMap(map[string]interface{}{" +:+ dq +:+
           VSlot.PropsKey s +:+ dq +:+ ": props}, this)" +:+ nl +:+
         "_ = this" +:+ nl +:+
         "return " +:+ body +:+ nl +:+ "}").
Proof.
  intros Hs Hif. split; [|reflexivity].
  rewrite GenCode_decorate. unfold decorateSlot. rewrite Hs, Hif.
  destruct (genBody e app σ) as [[[body ns] σ1]|]; [|done].
  simpl. by rewrite insert_union_singleton_l.
Qed.

(** On an element with [v-if] and [v-for] and without [v-slot] the loop of
    the [v-for] around the body of the element is what the first branch of
    the ladder returns. *)
Theorem for_inside_if (e : VueElement) (app : App) (σ σ' : Machine)
    (vi : VIf.t VueElement) (f : VFor.t) (code : string) (ns : gmap string string) :
  VIf e = Some vi → VFor e = Some f → VSlot e = None →
  GenCode e app σ = Ok ((code, ns), σ') →
  ∃ body ns0 σ1 condition rest,
    genBody e app σ = Ok ((body, ns0), σ1)
    ∧ Js2Go (VIf.Condition vi) "this" = Ok condition
    ∧ code = ifOpen condition +:+ genVFor f body +:+ rest.
Proof.
  intros Hif Hfor Hslot. rewrite GenCode_decorate.
  unfold decorateFor, decorateSlot. rewrite Hif, Hfor, Hslot.
  destruct (genBody e app σ) as [[[body n] σ1]|]; [|done].
  destruct (genVIf vi (genVFor f body) app σ1) as [[[c' n2] σ2]|] eqn:Hv; [|done].
  apply genVIf_first_branch in Hv as (condition & rest & Hc & ->).
  intros [= <- <- <-]. by exists body, n, σ1, condition, rest.
Qed.

End Decorators.

Lemma genVFor_marker (f : VFor.t) (body : string) :
  ∃ x y, genVFor f body = x +:+ forMarker +:+ y.
Proof.
  exists ("func ()string{" +:+ nl +:+ "  var c = " +:+ dq +:+ dq +:+ nl +:+ nl).
  eexists. unfold genVFor, forMarker. rewrite !app_assoc_s. reflexivity.
Qed.

Lemma forInsideIf_marker (f : VFor.t) (code : string) :
  forInsideIf f code → Strings.Contains code forMarker = true.
Proof.
  intros (condition & body & rest & ->).
  destruct (genVFor_marker f body) as (x & y & ->).
  rewrite !app_assoc_s, <- (app_assoc_s (ifOpen condition) x).
  by apply Contains_app.
Qed.

Lemma slot_without_if_witness :
  let s := VSlot.Build "hd" "sp" in
  let f := VFor.Build "xs" "it" "i" in
  let e := withVSlot s (withVFor f (withText "A" (element "__string" 1%positive))) in
  GenCode_run canonicalOrder e NewApp (start ∅)
  = Ok ((dq +:+ dq, {[ "hd" := slotClosure s (genVFor f (dq +:+ "A" +:+ dq)) ]}), start ∅).
Proof.
  intros s f e.
  destruct (slot_without_if canonicalOrder Js2Go_ident (getPropsClass_spec Js2Go_ident)
              (getPropsStyle_spec Js2Go_ident) genAttrCode_spec e NewApp (start ∅) s
              eq_refl eq_refl)
    as (H & _).
  unfold GenCode_run. rewrite H. by vm_compute.
Defined.

Lemma for_inside_if_witness :
  let f := VFor.Build "xs" "it" "i" in
  let e := withVFor f
             (withVIf "a" [ElseIf.Build "else" EmptyString
                             (asElse (withText "C" (element "__string" 2%positive)))]
                (withText "A" (element "__string" 1%positive))) in
  match GenCode_run canonicalOrder e NewApp (start ∅) with
  | Ok ((code, _), _) =>
      ∃ condition rest, code = ifOpen condition +:+ genVFor f (dq +:+ "A" +:+ dq) +:+ rest
  | Err _ => False
  end.
Proof.
  intros f e. unfold GenCode_run.
  destruct (GenCode _ _ _ _ _ e NewApp (start ∅)) as [[[code ns] σ']|] eqn:E;
    [|vm_compute in E; discriminate].
  destruct (for_inside_if canonicalOrder Js2Go_ident (getPropsClass_spec Js2Go_ident)
              (getPropsStyle_spec Js2Go_ident) genAttrCode_spec e NewApp (start ∅) σ'
              (VIf.Build "a" [ElseIf.Build "else" EmptyString
                                (asElse (withText "C" (element "__string" 2%positive)))])
              f code ns eq_refl eq_refl eq_refl E)
    as (body & ns0 & σ1 & condition & rest & Hb & _ & ->).
  vm_compute in Hb. injection Hb as <- _ _. by exists condition, rest.
Defined.

(** C4: on a node that has [v-slot] and [v-if] the decorator of the
    [v-slot] runs before that of the [v-if], against the priority that the
    comment of the code gives (slot over if).  For
    [<template v-slot:hd="sp" v-if="a">A</template>] the code that comes back
    is the ladder around the empty string literal, not the literal, and the
    closure of the slot returns the body with no condition around it. *)
Theorem slot_if_unguarded :
  let s := VSlot.Build "hd" "sp" in
  let e := withVSlot s
             (withVIf "a" []
                (withChildren [withText "A" (element "__string" 2%positive)]
                   (element "template" 1%positive))) in
  let ladder :=
    ifOpen ("this[" +:+ dq +:+ "a" +:+ dq +:+ "]") +:+ (dq +:+ dq) +:+
    nl +:+ "}" +:+ nl +:+ "return " +:+ dq +:+ dq +:+ nl +:+ "}()" in
  GenCode_run canonicalOrder e NewApp (start ∅)
  = Ok ((ladder, {[ "hd" := slotClosure s (dq +:+ "A" +:+ dq) ]}), start ∅)
  ∧ ladder ≠ dq +:+ dq
  ∧ Strings.Contains (slotClosure s (dq +:+ "A" +:+ dq)) "interfaceToBool" = false.
Proof.
  intros s e ladder. split; [by vm_compute|]. split; [|by vm_compute].
  vm_compute. discriminate.
Qed.

(** C3: on an element that has [v-slot] besides [v-if] and [v-for] the
    loop is not inside the branch of the [v-if].  The decorator of the
    [v-slot] runs between the two, against the priority that the comment of
    the code gives (slot over if over for): for
    [<template v-for="(it, i) in xs" v-if="a" v-slot:hd="sp">A</template>]
    the ladder returns the empty string literal, and the loop is in the
    closure of the slot with no condition around it. *)
Theorem if_for_slot_unguarded :
  let s := VSlot.Build "hd" "sp" in
  let f := VFor.Build "xs" "it" "i" in
  let e := withVSlot s
             (withVFor f
                (withVIf "a" []
                   (withChildren [withText "A" (element "__string" 2%positive)]
                      (element "template" 1%positive)))) in
  let ladder :=
    ifOpen ("this[" +:+ dq +:+ "a" +:+ dq +:+ "]") +:+ (dq +:+ dq) +:+
    nl +:+ "}" +:+ nl +:+ "return " +:+ dq +:+ dq +:+ nl +:+ "}()" in
  VIf e = Some (VIf.Build "a" []) ∧ VFor e = Some f
  ∧ GenCode_run canonicalOrder e NewApp (start ∅)
    = Ok ((ladder, {[ "hd" := slotClosure s (genVFor f (dq +:+ "A" +:+ dq)) ]}), start ∅)
  ∧ ¬ forInsideIf f ladder
  ∧ Strings.Contains (slotClosure s (genVFor f (dq +:+ "A" +:+ dq))) "interfaceToBool"
    = false.
Proof.
  intros s f e ladder. do 2 (split; [done|]). split; [by vm_compute|].
  split; [|by vm_compute].
  intros H%forInsideIf_marker. vm_compute in H. discriminate.
Qed.

(** ** Induction on the Vue tree *)

Section tree_induction.

Variable P : VueElement → Prop.

Hypothesis step : ∀ e,
  Forall P (Children e) →
  match VIf e with
  | Some vi => Forall (λ x, P (ElseIf.VueElement x)) (VIf.ElseIf vi)
  | None => True
  end →
  P e.

Fixpoint VueElement_tree_ind (e : VueElement) : P e :=
  step e
    ((fix children (l : list VueElement) : Forall P l :=
        match l with
        | [] => @List.Forall_nil _ P
        | x :: l' => @List.Forall_cons _ P x l' (VueElement_tree_ind x) (children l')
        end) (Children e))
    (match VIf e as o
       return match o with
              | Some vi => Forall (λ x, P (ElseIf.VueElement x)) (VIf.ElseIf vi)
              | None => True
              end
     with
     | Some vi =>
         (fix chain (l : list (ElseIf.t VueElement))
            : Forall (λ x, P (ElseIf.VueElement x)) l :=
            match l with
            | [] => @List.Forall_nil _ _
            | x :: l' =>
                @List.Forall_cons _ (λ x, P (ElseIf.VueElement x)) x l'
                  (VueElement_tree_ind (ElseIf.VueElement x)) (chain l')
            end) (VIf.ElseIf vi)
     | None => I
     end).

End tree_induction.

(** ** The slot map of the options literal *)

Lemma slotClosures_union (a b : gmap string string) :
  slotClosures a → slotClosures b → slotClosures (a ∪ b).
Proof.
  intros Ha Hb k v [H|[_ H]]%lookup_union_Some_raw; [by eapply Ha|by eapply Hb].
Qed.

Lemma slotClosures_empty : slotClosures ∅.
Proof. intros k v H. by rewrite lookup_empty in H. Qed.

Section SlotFacts.

Context (rangeOrder : nat → list (string * string) → list (string * string))
        (Js2Go : string → string → Result string)
        (getPropsClass getPropsStyle : Props.t → Result string)
        (genAttrCode : VueElement → Props.t → Result string).

Local Abbreviation GenCode := (GenCode rangeOrder Js2Go getPropsClass getPropsStyle genAttrCode).
Local Abbreviation genBody := (genBody rangeOrder Js2Go getPropsClass getPropsStyle genAttrCode).
Local Abbreviation genVIf := (genVIf rangeOrder Js2Go getPropsClass getPropsStyle genAttrCode).
Local Abbreviation genElement := (genElement rangeOrder Js2Go getPropsClass getPropsStyle genAttrCode).
Local Abbreviation ToGoCode := (ToGoCode rangeOrder Js2Go getPropsClass getPropsStyle).

Lemma genChildren_closures gen (cs : list VueElement) d n σ d' n' σ' :
  Forall (λ v, ∀ σ r, gen v σ = Ok r → slotClosures r.1.2) cs →
  slotClosures n →
  genChildren gen cs d n σ = Ok ((d', n'), σ') →
  slotClosures n'.
Proof.
  intros Hcs. revert d n σ. induction Hcs as [|v cs Hv _ IH]; intros d n σ Hn H.
  - simpl in H. unfold gret in H. by simplify_eq.
  - simpl in H. destruct (VElse v || VElseIf v); [by eapply IH|].
    unfold gbind in H. destruct (gen v σ) as [[[c nc] σ1]|] eqn:Hg; [|done].
    eapply IH; [|done]. apply slotClosures_union; [|done]. by apply (Hv _ _ Hg).
Qed.

Lemma genElseChain_closures gen (chain : list (ElseIf.t VueElement)) code n σ code' n' σ' :
  Forall (λ x, ∀ σ r, gen (ElseIf.VueElement x) σ = Ok r → slotClosures r.1.2) chain →
  slotClosures n →
  genElseChain Js2Go gen chain code n σ = Ok ((code', n'), σ') →
  slotClosures n'.
Proof.
  intros Hch. revert code n σ. induction Hch as [|x chain Hx _ IH]; intros code n σ Hn H.
  - simpl in H. unfold gret in H. by simplify_eq.
  - simpl in H. unfold gbind in H.
    destruct (gen (ElseIf.VueElement x) σ) as [[[c nc] σ1]|] eqn:Hg; [|done].
    pose proof (slotClosures_union _ _ (Hx _ _ Hg) Hn) as Hu.
    case_bool_decide.
    + unfold gret in H. by eapply IH.
    + case_bool_decide.
      * unfold lift, gret in H. destruct (Js2Go _ _); [|done]. by eapply IH.
      * unfold gret in H. by eapply IH.
Qed.

(** The named slots that [GenCode] returns are closures of [genVSlot]. *)
Lemma GenCode_closures (app : App) (e : VueElement) :
  ∀ σ r, GenCode e app σ = Ok r → slotClosures r.1.2.
Proof.
  induction e as [e IHc IHv] using VueElement_tree_ind. intros σ r.
  rewrite GenCode_decorate.
  destruct (genBody e app σ) as [[[body ns] σ1]|] eqn:Hb; [|done].
  assert (slotClosures ns) as Hns.
  { unfold genBody, gbind in Hb.
    destruct (genChildren _ _ _ _ σ) as [[[d n] σ0]|] eqn:Hc; [|done].
    apply genChildren_closures in Hc; [|done|apply slotClosures_empty].
    destruct (genElement _ _ _ _ σ0) as [[c σ2]|]; [|done].
    unfold gret in Hb. by simplify_eq. }
  assert (slotClosures (decorateSlot e (decorateFor e body) ns).2) as Hds.
  { unfold decorateSlot. destruct (VSlot e) as [s|]; [|done]. simpl.
    apply slotClosures_union; [|done].
    intros k v [_ <-]%lookup_singleton_Some. by eexists _, _. }
  destruct (decorateSlot e (decorateFor e body) ns) as [c n]. simpl in Hds.
  destruct (VIf e) as [vi|]; [|intros; by simplify_eq].
  destruct (genVIf vi c app σ1) as [[[c' n2] σ2]|] eqn:Hv; [|done].
  intros ?; simplify_eq. simpl. apply slotClosures_union; [|done].
  unfold genVIf, genVIf_with, gbind, lift, gret in Hv.
  destruct (Js2Go _ _); [|done].
  destruct (genElseChain _ _ _ _ _ σ1) as [[[c2 n3] σ3]|] eqn:Hc; [|done].
  simplify_eq. eapply genElseChain_closures in Hc; [done|done|apply slotClosures_empty].
Qed.

(** So are the named slots handed to [ToGoCode]. *)
Lemma genBody_closures (app : App) (e : VueElement) σ c ns σ' :
  genBody e app σ = Ok ((c, ns), σ') → slotClosures ns.
Proof.
  unfold genBody, gbind. intros Hb.
  destruct (genChildren _ _ _ _ σ) as [[[d n] σ0]|] eqn:Hc; [|done].
  apply genChildren_closures in Hc; [| |apply slotClosures_empty].
  - destruct (genElement _ _ _ _ σ0) as [[c2 σ2]|]; [|done].
    unfold gret in Hb. by simplify_eq.
  - apply Forall_forall. intros v _. apply GenCode_closures.
Qed.

(** The options literal has a field [Slot] with the entries of the slot map
    in the order of the range statement. *)
Lemma ToGoCode_slot (o : OptionsGen.t) σ c σ' :
  ToGoCode o σ = Ok (c, σ') →
  ∃ pre post k,
    c = pre +:+ "Slot: "
        +:+ mapGoCodeToCode_text "namedSlotFunc" (rangeOrder k (map_to_list (slotMap o)))
        +:+ "," +:+ nl +:+ post.
Proof.
  unfold ToGoCode, gbind. intros H.
  destruct (propsCode _ _ _ _ _ _ σ) as [[c1 σ1]|]; [|done].
  match type of H with
  | match ?x with _ => _ end = _ => destruct x as [[c2 σ2]|]; [|done]
  end.
  match type of H with
  | match ?x with _ => _ end = _ => destruct x as [[c3 σ3]|]; [|done]
  end.
  unfold mapGoCodeToCode, gbind, rangeMap, gret in H. simpl in H.
  match type of H with
  | match ?x with _ => _ end = _ => destruct x as [[c4 σ4]|] eqn:Hd; [|done]
  end.
  simplify_eq.
  case_bool_decide.
  - unfold gbind, lift, gret in Hd. destruct (directivesCode _ _ _); [|done].
    simplify_eq.
    match goal with
    | |- ∃ pre post k,
           (((?A +:+ "Slot: " +:+ mapGoCodeToCode_text _ (rangeOrder ?K _) +:+ _)
             +:+ ?P) +:+ ?D) +:+ ?E = _ =>
        exists A, (P +:+ D +:+ E), K
    end.
    by rewrite !app_assoc_s.
  - unfold gret in Hd. simplify_eq.
    match goal with
    | |- ∃ pre post k,
           ((?A +:+ "Slot: " +:+ mapGoCodeToCode_text _ (rangeOrder ?K _) +:+ _)
            +:+ ?P) +:+ ?E = _ =>
        exists A, (P +:+ E), K
    end.
    by rewrite !app_assoc_s.
Qed.

Lemma slotMap_default (o : OptionsGen.t) :
  ∃ cl, slotMap o !! "default" = Some cl
    ∧ (slotClosures (OptionsGen.NamedSlotCode o) → isClosure cl)
    ∧ (OptionsGen.NamedSlotCode o !! "default" = None →
       cl = defaultClosure
              (if bool_decide (OptionsGen.DefaultSlotCode o = EmptyString)
               then dq +:+ dq else OptionsGen.DefaultSlotCode o)).
Proof.
  unfold slotMap. destruct (OptionsGen.NamedSlotCode o !! "default") as [v|] eqn:Hv.
  - exists v. split; [by apply lookup_union_Some_l|]. split; [|done].
    intros Hc. right. by apply (Hc _ _ Hv).
  - eexists. split.
    { rewrite lookup_union_r by done. apply lookup_singleton_eq. }
    split; [|done]. intros _. left. by eexists.
Qed.

Lemma genElement_options (e : VueElement) (app : App) d n σ c σ' :
  emitsOptions e app →
  genElement e app d n σ = Ok (c, σ') →
  ∃ pre post k,
    c = pre +:+ "Slot: "
        +:+ mapGoCodeToCode_text "namedSlotFunc"
              (rangeOrder k (map_to_list (slotMap (optionsOf e d n))))
        +:+ "," +:+ nl +:+ post.
Proof.
  intros Hopt. unfold genElement.
  assert (∀ wrap1 wrap2,
    (let* optionsCode := ToGoCode (optionsOf e d n) in
     gret (wrap1 +:+ optionsCode +:+ wrap2)) σ = Ok (c, σ') →
    ∃ pre post k,
      c = pre +:+ "Slot: "
          +:+ mapGoCodeToCode_text "namedSlotFunc"
                (rangeOrder k (map_to_list (slotMap (optionsOf e d n))))
          +:+ "," +:+ nl +:+ post) as Hwrap.
  { intros wrap1 wrap2 H. unfold gbind, gret in H.
    destruct (ToGoCode _ σ) as [[oc σ1]|] eqn:Ho; [|done]. simplify_eq.
    apply ToGoCode_slot in Ho as (pre & post & k & ->).
    exists (wrap1 +:+ pre), (post +:+ wrap2), k. by rewrite !app_assoc_s. }
  case_bool_decide as Hreg.
  - intros H. eapply (Hwrap ("r.Component_" +:+ TagName e +:+ "(") ")").
    rewrite <- H. unfold gbind, gret. destruct (ToGoCode _ σ) as [[oc σ1]|]; [|done].
    by rewrite !app_assoc_s.
  - destruct Hopt as [?|(Ht & Hs & Hdyn)]; [done|].
    rewrite !bool_decide_eq_false_2 by done.
    assert (IsRoot e || bool_decide (length (Directives e) ≠ 0) = true) as ->.
    { destruct Hdyn as [->|Hd]; [done|]. apply orb_true_iff. right.
      apply bool_decide_eq_true. by destruct (Directives e). }
    intros H.
    eapply (Hwrap ("r.Tag(" +:+ dq +:+ TagName e +:+ dq +:+ ", " +:+ boolToStr (IsRoot e) +:+ ", ") ")").
    rewrite <- H. unfold gbind, gret. destruct (ToGoCode _ σ) as [[oc σ1]|]; [|done].
    by rewrite !app_assoc_s.
Qed.

(** Without children that contribute code, the loop over the children
    leaves its accumulators as they are. *)
Lemma genChildren_none gen (cs : list VueElement) d n σ :
  Forall (λ v, VElse v || VElseIf v = true) cs →
  genChildren gen cs d n σ = Ok ((d, n), σ).
Proof.
  induction 1 as [|v cs Hv _ IH]; [done|]. simpl. by rewrite Hv.
Qed.

(** The text of the entries of a map literal, one after the other. *)
Lemma entries_text_acc (l : list (string * string)) (c : string) :
  foldl (λ c kv, c +:+ dq +:+ kv.1 +:+ dq +:+ ": " +:+ kv.2 +:+ ",") c l
  = c +:+ foldl (λ c kv, c +:+ dq +:+ kv.1 +:+ dq +:+ ": " +:+ kv.2 +:+ ",") EmptyString l.
Proof.
  revert c. induction l as [|kv l IH]; intros c; simpl.
  - by rewrite app_empty_r.
  - rewrite IH, (IH (EmptyString +:+ _)). by rewrite app_empty_l, !app_assoc_s.
Qed.

Lemma mapGoCodeToCode_text_entry valueType (l : list (string * string)) k v :
  (k, v) ∈ l →
  ∃ before after,
    mapGoCodeToCode_text valueType l
    = "map[string]" +:+ valueType +:+ "{" +:+ before
      +:+ dq +:+ k +:+ dq +:+ ": " +:+ v +:+ "," +:+ after +:+ "}".
Proof.
  intros (l1 & l2 & ->)%list_elem_of_split. unfold mapGoCodeToCode_text.
  rewrite foldl_app. simpl.
  rewrite entries_text_acc, (entries_text_acc l1).
  exists (foldl (λ c kv, c +:+ dq +:+ kv.1 +:+ dq +:+ ": " +:+ kv.2 +:+ ",") EmptyString l1),
         (foldl (λ c kv, c +:+ dq +:+ kv.1 +:+ dq +:+ ": " +:+ kv.2 +:+ ",") EmptyString l2).
  by rewrite !app_assoc_s.
Qed.

Lemma mapGoCodeToCode_text_single valueType k v :
  mapGoCodeToCode_text valueType [(k, v)]
  = "map[string]" +:+ valueType +:+ "{" +:+ EmptyString
    +:+ dq +:+ k +:+ dq +:+ ": " +:+ v +:+ "," +:+ EmptyString +:+ "}".
Proof. unfold mapGoCodeToCode_text. simpl. by rewrite !app_assoc_s. Qed.

Lemma Join_terms_snoc (q : string) k :
  Strings.Join (replicate (S k) q) "+" +:+ "+" +:+ q
  = Strings.Join (replicate (S (S k)) q) "+".
Proof.
  induction k as [|k IH]; [done|].
  change (Strings.Join (replicate (S (S k)) q) "+")
    with (q +:+ "+" +:+ Strings.Join (replicate (S k) q) "+").
  change (Strings.Join (replicate (S (S (S k))) q) "+")
    with (q +:+ "+" +:+ Strings.Join (replicate (S (S k)) q) "+").
  by rewrite !app_assoc_s, IH.
Qed.

Lemma Join_terms_nonempty k :
  Strings.Join (replicate (S k) (dq +:+ dq)) "+" ≠ EmptyString.
Proof. by destruct k. Qed.

(** The loop over children that each return the empty string literal. *)
Lemma genChildren_terms gen (cs : list VueElement) :
  Forall (λ v, VElse v || VElseIf v = true
               ∨ ∀ σ r, gen v σ = Ok r → r.1.1 = dq +:+ dq) cs →
  ∀ d n σ d' n' σ',
    genChildren gen cs d n σ = Ok ((d', n'), σ') →
    (d = EmptyString →
       d' = match length (filter (λ v, VElse v || VElseIf v = false) cs) with
            | 0 => EmptyString
            | S m => Strings.Join (replicate (S m) (dq +:+ dq)) "+"
            end)
    ∧ (∀ k, d = Strings.Join (replicate (S k) (dq +:+ dq)) "+" →
         d' = Strings.Join
                (replicate (S k + length (filter (λ v, VElse v || VElseIf v = false) cs))
                   (dq +:+ dq)) "+").
Proof.
  induction 1 as [|v cs Hv _ IH]; intros d n σ d' n' σ'.
  - simpl. intros [= <- <- <-]. split; [done|]. intros k ->. by rewrite Nat.add_0_r.
  - cbn [genChildren]. destruct (VElse v || VElseIf v) eqn:He.
    + rewrite filter_cons_False by (by rewrite He). apply IH.
    + rewrite filter_cons_True by done.
      destruct Hv as [Hv|Hv]; [done|].
      unfold gbind. destruct (gen v σ) as [[[cc cn] σ1]|] eqn:Hg; [|done].
      pose proof (Hv _ _ Hg) as Hc. simpl in Hc. subst cc.
      intros H. split.
      * intros ->. rewrite bool_decide_eq_false_2 in H by (by intros ?).
        rewrite app_empty_l in H.
        destruct (IH _ _ _ _ _ _ H) as [_ IH2]. rewrite (IH2 0 eq_refl). done.
      * intros k Hd.
        rewrite bool_decide_eq_true_2 in H by (rewrite Hd; apply Join_terms_nonempty).
        rewrite app_assoc_s, Hd, Join_terms_snoc in H.
        destruct (IH _ _ _ _ _ _ H) as [_ IH2]. rewrite (IH2 (S k) eq_refl).
        do 2 f_equal. simpl. lia.
Qed.

(** A node with [v-slot] and without [v-if] returns the empty string
    literal. *)
Lemma GenCode_slot_literal (v : VueElement) (app : App) σ r :
  VSlot v ≠ None → VIf v = None → GenCode v app σ = Ok r → r.1.1 = dq +:+ dq.
Proof.
  intros Hs Hi. rewrite GenCode_decorate. unfold decorateSlot. rewrite Hi.
  destruct (VSlot v) as [s|]; [|done].
  destruct (genBody v app σ) as [[[body ns] σ1]|]; [|done].
  simpl. by intros [= <-].
Qed.

(** C5, amended: the options literal of a registered component or of a
    dynamic element has a [Slot] map with an entry [default] that is a
    closure: the closure that [ToGoCode] makes around the default slot code
    when no [v-slot] below is named [default], the closure of that [v-slot]
    otherwise.  When the element has no children, or else nodes only, it is
    the one entry and its body is the empty string literal.  When the
    children that generate code all carry [v-slot] and none is named
    [default], the body has one empty string literal for each of them,
    joined by [+]. *)
Theorem options_default_slot (e : VueElement) (app : App) σ c ns σ' :
  admissible rangeOrder →
  emitsOptions e app →
  genBody e app σ = Ok ((c, ns), σ') →
  ∃ pre post before after cl,
    c = pre +:+ "Slot: map[string]namedSlotFunc{" +:+ before
        +:+ dq +:+ "default" +:+ dq +:+ ": " +:+ cl +:+ "," +:+ after +:+ "}"
        +:+ "," +:+ nl +:+ post
    ∧ match ns !! "default" with
      | None =>
          ∃ d σ0,
            genChildren (λ v, GenCode v app) (Children e) EmptyString ∅ σ = Ok ((d, ns), σ0)
            ∧ cl = "func (props map[string]interface{})string{return "
                   +:+ (if bool_decide (d = EmptyString) then dq +:+ dq else d) +:+ "}"
      | Some v =>
          cl = v
          ∧ ∃ propsKey body,
              v = "func(props map[string]interface{}) string{" +:+ nl +:+
                  tab +:+ "this := extendMap(map[string]interface{}{" +:+ dq +:+
                    propsKey +:+ dq +:+ ": props}, this)" +:+ nl +:+
                  "_ = this" +:+ nl +:+
                  "return " +:+ body +:+ nl +:+ "}"
      end
    ∧ (noChildCode e →
         before = EmptyString ∧ after = EmptyString
         ∧ cl = "func (props map[string]interface{})string{return " +:+ dq +:+ dq +:+ "}")
    ∧ (slotChildrenOnly e → ns !! "default" = None →
         cl = "func (props map[string]interface{})string{return "
              +:+ match length (codeChildren e) with
                  | 0 => dq +:+ dq
                  | S m => Strings.Join (replicate (S m) (dq +:+ dq)) "+"
                  end
              +:+ "}").
Proof.
  intros Hadm Hopt Hb.
  pose proof (genBody_closures _ _ _ _ _ _ Hb) as Hns.
  unfold genBody, gbind in Hb.
  destruct (genChildren _ _ _ _ σ) as [[[d n] σ0]|] eqn:Hc; [|done].
  destruct (genElement _ _ _ _ σ0) as [[c2 σ2]|] eqn:He; [|done].
  unfold gret in Hb. simplify_eq.
  apply genElement_options in He as (pre & post & k & ->); [|done].
  set (o := optionsOf e _ ns).
  destruct (slotMap_default o) as (cl & Hcl & Hclos & Hdef).
  assert (Hnone : noChildCode e →
            rangeOrder k (map_to_list (slotMap o))
            = [("default", defaultClosure (dq +:+ dq))]).
  { intros Hno. rewrite (genChildren_none _ _ _ _ _ Hno) in Hc. simplify_eq.
    assert (slotMap o = {[ "default" := defaultClosure (dq +:+ dq) ]}) as ->.
    { unfold slotMap, o. simpl. by rewrite (left_id_L ∅ (∪)). }
    rewrite map_to_list_singleton.
    by apply Permutation_singleton_r, Hadm. }
  assert (Hbody : slotChildrenOnly e → ns !! "default" = None →
            cl = "func (props map[string]interface{})string{return "
                 +:+ match length (codeChildren e) with
                     | 0 => dq +:+ dq
                     | S m => Strings.Join (replicate (S m) (dq +:+ dq)) "+"
                     end
                 +:+ "}").
  { intros Hslot Hnd. rewrite (Hdef Hnd). unfold defaultClosure, o. simpl.
    apply genChildren_terms in Hc as [Hd _].
    - rewrite (Hd eq_refl). unfold codeChildren.
      destruct (length (filter _ (Children e))) as [|m]; [done|].
      rewrite (bool_decide_eq_false_2 _ (Join_terms_nonempty m)).
      by rewrite bool_decide_eq_false_2 by apply Join_terms_nonempty.
    - eapply Forall_impl; [exact Hslot|]. intros v [Hv|[Hs Hi]]; [by left|right].
      intros σ1 r. by apply GenCode_slot_literal. }
  assert (Hform : match ns !! "default" with
      | None =>
          ∃ d0 σ1,
            @Ok (string * gmap string string * Machine) ((d, ns), σ0) = Ok ((d0, ns), σ1)
            ∧ cl = "func (props map[string]interface{})string{return "
                   +:+ (if bool_decide (d0 = EmptyString) then dq +:+ dq else d0) +:+ "}"
      | Some v =>
          cl = v
          ∧ ∃ propsKey body,
              v = "func(props map[string]interface{}) string{" +:+ nl +:+
                  tab +:+ "this := extendMap(map[string]interface{}{" +:+ dq +:+
                    propsKey +:+ dq +:+ ": props}, this)" +:+ nl +:+
                  "_ = this" +:+ nl +:+
                  "return " +:+ body +:+ nl +:+ "}"
      end).
  { destruct (ns !! "default") as [v|] eqn:Hv.
    - assert (cl = v) as ->.
      { unfold slotMap, o in Hcl. simpl in Hcl.
        rewrite (lookup_union_Some_l _ _ _ _ Hv) in Hcl. by injection Hcl. }
      split; [done|]. destruct (Hns _ _ Hv) as (s & body & ->).
      by exists (VSlot.PropsKey s), body.
    - rewrite (Hdef Hv). exists d, σ0. split; [done|].
      unfold defaultClosure, o. simpl.
      destruct (bool_decide (d = EmptyString)) eqn:Hd; [done|].
      apply bool_decide_eq_false in Hd. by rewrite bool_decide_eq_false_2. }
  destruct (decide (Forall (λ v, VElse v || VElseIf v = true) (Children e))) as [Hno|Hsome].
  - exists pre, post, EmptyString, EmptyString, (defaultClosure (dq +:+ dq)).
    rewrite (Hnone Hno), mapGoCodeToCode_text_single.
    assert (cl = defaultClosure (dq +:+ dq)) as Hcl'.
    { pose proof (Hnone Hno) as Hl.
      assert (("default", cl) ∈ rangeOrder k (map_to_list (slotMap o))) as Hin.
      { rewrite (Hadm k _). by apply elem_of_map_to_list. }
      rewrite Hl in Hin. apply list_elem_of_singleton in Hin. by injection Hin. }
    rewrite <- Hcl'. split; [by rewrite !app_assoc_s|]. split; [done|].
    split; [by rewrite Hcl'|done].
  - assert (("default", cl) ∈ rangeOrder k (map_to_list (slotMap o))) as Hin.
    { rewrite (Hadm k _). by apply elem_of_map_to_list. }
    destruct (mapGoCodeToCode_text_entry "namedSlotFunc" _ _ _ Hin) as (before & after & ->).
    exists pre, post, before, after, cl.
    split; [by rewrite !app_assoc_s|]. split; [done|]. split; [done|done].
Qed.

End SlotFacts.

(** ** Schedules *)

Lemma admissible_canonicalOrder : admissible canonicalOrder.
Proof. by intros n l. Qed.

Lemma admissible_reverseOrder : admissible reverseOrder.
Proof. intros n l. apply reverse_Permutation. Qed.

Lemma options_default_slot_witness :
  let e := element "comp" 1%positive in
  let app := Component NewApp "comp" in
  ∃ pre post,
    codeOf (genBody canonicalOrder Js2Go_ident (getPropsClass_spec Js2Go_ident)
              (getPropsStyle_spec Js2Go_ident) genAttrCode_spec e app (start ∅))
    = Ok (pre +:+ "Slot: map[string]namedSlotFunc{" +:+ dq +:+ "default" +:+ dq +:+ ": "
          +:+ ("func (props map[string]interface{})string{return " +:+ dq +:+ dq +:+ "}")
          +:+ "," +:+ "}" +:+ "," +:+ nl +:+ post).
Proof.
  intros e app.
  destruct (genBody _ _ _ _ _ e app (start ∅)) as [[[c ns] σ']|] eqn:Hb;
    [|vm_compute in Hb; discriminate].
  assert (emitsOptions e app) as Hopt.
  { left. unfold e, app, Component. simpl. by apply elem_of_union_l, elem_of_singleton. }
  destruct (options_default_slot _ _ _ _ _ e app _ c ns σ'
              admissible_canonicalOrder Hopt Hb)
    as (pre & post & before & after & cl & -> & _ & Hone & _).
  destruct Hone as (-> & -> & ->); [by constructor|].
  exists pre, post. simpl. by rewrite !app_empty_l.
Defined.

(** C5 as it is worded fails on a component with two [v-slot] children:
    neither contributes code to the default slot, and the body of the
    default closure is two empty string literals joined by [+]. *)
Lemma options_default_slot_counterexample :
  let sa := VSlot.Build "a" "p" in
  let sb := VSlot.Build "b" "p" in
  let e := withChildren
             [withVSlot sa (withChildren [withText "A" (element "__string" 4%positive)]
                              (element "template" 2%positive));
              withVSlot sb (withChildren [withText "B" (element "__string" 5%positive)]
                              (element "template" 3%positive))]
             (element "comp" 1%positive) in
  let code :=
    "r.Component_comp(&Options{Slot: map[string]namedSlotFunc{"
    +:+ dq +:+ "a" +:+ dq +:+ ": " +:+ slotClosure sa (dq +:+ "A" +:+ dq) +:+ ","
    +:+ dq +:+ "b" +:+ dq +:+ ": " +:+ slotClosure sb (dq +:+ "B" +:+ dq) +:+ ","
    +:+ dq +:+ "default" +:+ dq +:+ ": "
    +:+ "func (props map[string]interface{})string{return "
    +:+ (dq +:+ dq +:+ "+" +:+ dq +:+ dq) +:+ "}" +:+ ","
    +:+ "}," +:+ nl +:+ "P: options," +:+ nl +:+ "})" in
  Forall (λ v, VSlot v ≠ None ∧ VIf v = None) (Children e)
  ∧ codeOf (GenCode_run canonicalOrder e (Component NewApp "comp") (start ∅)) = Ok code
  ∧ Strings.Contains code
      ("func (props map[string]interface{})string{return " +:+ dq +:+ dq +:+ "}") = false.
Proof.
  intros sa sb e code. split; [by repeat constructor|]. split; by vm_compute.
Qed.

(** ** The props map of an element after [GenCode] *)

Section PropsFacts.

Context (rangeOrder : nat → list (string * string) → list (string * string))
        (Js2Go : string → string → Result string)
        (getPropsClass getPropsStyle : Props.t → Result string).

Local Abbreviation propsCode := (propsCode rangeOrder Js2Go getPropsClass getPropsStyle).

(** Whenever [getPropsClass] yields a class expression, [propsCode] deletes
    the key [class] from the very map the options point to. *)
Lemma propsCode_deletes_class (o : OptionsGen.t) (c : string) σ p cCode c' σ' :
  heap σ !! OptionsGen.Props o = Some p →
  size p ≠ 0 →
  getPropsClass p = Ok cCode →
  cCode ≠ "nil" →
  propsCode o c σ = Ok (c', σ') →
  ∃ p', heap σ' !! OptionsGen.Props o = Some p' ∧ p' !! "class" = None.
Proof.
  intros Hp Hsize Hclass Hnil. unfold propsCode.
  unfold gbind at 1. unfold loadProps at 1. rewrite Hp. simpl.
  rewrite bool_decide_eq_true_2 by done.
  unfold gbind at 1. unfold lift at 1. rewrite Hclass.
  rewrite bool_decide_eq_true_2 by done.
  unfold gbind at 1. unfold gbind at 1. unfold deleteKey at 1.
  unfold gret at 1. unfold gbind at 1. unfold loadProps at 1. simpl.
  rewrite lookup_alter_eq, Hp. simpl.
  unfold gbind at 1. unfold lift at 1.
  destruct (getPropsStyle (delete "class" p)) as [cStyle|]; [|done].
  case_bool_decide.
  - unfold gbind at 1. unfold gbind at 1. unfold deleteKey at 1. unfold gret at 1.
    unfold gbind at 1. unfold loadProps at 1. simpl.
    rewrite lookup_alter_eq, lookup_alter_eq, Hp. simpl.
    case_bool_decide.
    + unfold mapJsCodeToCode. case_bool_decide; [done|].
      unfold gbind, rangeMap, lift, gret. simpl.
      destruct (mapJsCodeToCode_loop _ _ _); [|done].
      intros ?; simplify_eq. simpl. rewrite !lookup_alter_eq, Hp. simpl.
      eexists; split; [done|]. by rewrite lookup_delete_ne, lookup_delete_eq.
    + unfold gret. intros ?; simplify_eq. simpl. rewrite !lookup_alter_eq, Hp. simpl.
      eexists; split; [done|]. by rewrite lookup_delete_ne, lookup_delete_eq.
  - unfold gbind at 1. unfold gret at 1. unfold gbind at 1. unfold loadProps at 1. simpl.
    rewrite lookup_alter_eq, Hp. simpl.
    case_bool_decide.
    + unfold mapJsCodeToCode. case_bool_decide; [done|].
      unfold gbind, rangeMap, lift, gret. simpl.
      destruct (mapJsCodeToCode_loop _ _ _); [|done].
      intros ?; simplify_eq. simpl. rewrite !lookup_alter_eq, Hp. simpl.
      eexists; split; [done|]. by rewrite lookup_delete_eq.
    + unfold gret. intros ?; simplify_eq. simpl. rewrite !lookup_alter_eq, Hp. simpl.
      eexists; split; [done|]. by rewrite lookup_delete_eq.
Qed.

End PropsFacts.

(** C2: the generator works on the props map of the element itself.  A
    registered component with a dynamic class loses the key [class] from its
    map during [GenCode]; generating the same element again then yields a
    different options literal, without the field [PropsClass]. *)
Theorem GenCode_mutates_props :
  let e := element "comp" 1%positive in
  let app := Component NewApp "comp" in
  let h : gmap loc (gmap string string) := {[ 1%positive := {[ "class" := "cls" ]} ]} in
  let first := GenCode_run canonicalOrder e app (start h) in
  heapOf first = Ok {[ 1%positive := ∅ ]}
  ∧ heapOf first ≠ Ok h
  ∧ codeOf first
    = Ok ("r.Component_comp(&Options{PropsClass: this[" +:+ dq +:+ "cls" +:+ dq +:+ "], " +:+ nl +:+
          "Slot: map[string]namedSlotFunc{" +:+ dq +:+ "default" +:+ dq +:+ ": " +:+
            defaultClosure (dq +:+ dq) +:+ ",}," +:+ nl +:+
          "P: options," +:+ nl +:+ "})")
  ∧ match first with
    | Ok (_, σ1) =>
        codeOf (GenCode_run canonicalOrder e app σ1)
        = Ok ("r.Component_comp(&Options{" +:+
              "Slot: map[string]namedSlotFunc{" +:+ dq +:+ "default" +:+ dq +:+ ": " +:+
                defaultClosure (dq +:+ dq) +:+ ",}," +:+ nl +:+
              "P: options," +:+ nl +:+ "})")
    | Err _ => False
    end.
Proof.
  intros e app h first. split; [by vm_compute|]. split; [|split; by vm_compute].
  assert (heapOf first = Ok {[ 1%positive := ∅ ]}) as -> by by vm_compute.
  unfold h. by intros [=].
Qed.

(** C1 as it is worded fails: two runs on the same tree with the same
    registry that range over the map [Attrs] in different orders return
    different code. *)
Lemma GenCode_order_counterexample :
  let e := withAttrs [("a", "1"); ("b", "2")] (withRoot (element "div" 1%positive)) in
  admissible canonicalOrder ∧ admissible reverseOrder
  ∧ codeOf (GenCode_run canonicalOrder e NewApp (start ∅))
    = Ok ("r.Tag(" +:+ dq +:+ "div" +:+ dq +:+ ", true, &Options{Attrs: map[string]string{" +:+
            dq +:+ "a" +:+ dq +:+ ": " +:+ dq +:+ "1" +:+ dq +:+ "," +:+
            dq +:+ "b" +:+ dq +:+ ": " +:+ dq +:+ "2" +:+ dq +:+ ",}," +:+ nl +:+
          "Slot: map[string]namedSlotFunc{" +:+ dq +:+ "default" +:+ dq +:+ ": " +:+
            defaultClosure (dq +:+ dq) +:+ ",}," +:+ nl +:+
          "P: options," +:+ nl +:+ "})")
  ∧ codeOf (GenCode_run reverseOrder e NewApp (start ∅))
    = Ok ("r.Tag(" +:+ dq +:+ "div" +:+ dq +:+ ", true, &Options{Attrs: map[string]string{" +:+
            dq +:+ "b" +:+ dq +:+ ": " +:+ dq +:+ "2" +:+ dq +:+ "," +:+
            dq +:+ "a" +:+ dq +:+ ": " +:+ dq +:+ "1" +:+ dq +:+ ",}," +:+ nl +:+
          "Slot: map[string]namedSlotFunc{" +:+ dq +:+ "default" +:+ dq +:+ ": " +:+
            defaultClosure (dq +:+ dq) +:+ ",}," +:+ nl +:+
          "P: options," +:+ nl +:+ "})")
  ∧ codeOf (GenCode_run canonicalOrder e NewApp (start ∅))
    ≠ codeOf (GenCode_run reverseOrder e NewApp (start ∅)).
Proof.
  intros e. split; [apply admissible_canonicalOrder|].
  split; [apply admissible_reverseOrder|].
  split; [by vm_compute|]. split; [by vm_compute|].
  vm_compute. discriminate.
Qed.

(** ** Runs that differ in the order of the range statements *)

Lemma agree_ret {A} (Q : A → Prop) (a : A) : Q a → agree Q (gret a) (gret a).
Proof. intros HQ σ Hσ. split; [done|]. unfold gret. by intros ?? [= <- <-]. Qed.

Lemma agree_bind {A B} (Q : A → Prop) (R : B → Prop) (m1 m2 : Gen A) (f1 f2 : A → Gen B) :
  agree Q m1 m2 →
  (∀ a, Q a → agree R (f1 a) (f2 a)) →
  agree R (gbind m1 f1) (gbind m2 f2).
Proof.
  intros Hm Hf σ Hσ. destruct (Hm σ Hσ) as [Heq Hpost]. unfold gbind. rewrite <- Heq.
  destruct (m1 σ) as [[a σ1]|]; [|done].
  destruct (Hpost a σ1 eq_refl) as [Hσ1 HQ]. by apply Hf.
Qed.

Lemma agree_weaken {A} (Q R : A → Prop) (m1 m2 : Gen A) :
  (∀ a, Q a → R a) → agree Q m1 m2 → agree R m1 m2.
Proof.
  intros HQR Hm σ Hσ. destruct (Hm σ Hσ) as [Heq Hpost]. split; [done|].
  intros a σ' H. destruct (Hpost a σ' H). auto.
Qed.

Lemma agree_lift {A} (r : Result A) : agree (λ _, True) (lift r) (lift r).
Proof.
  intros σ Hσ. split; [done|]. unfold lift. destruct r; [|done]. by intros ?? [= <- <-].
Qed.

Lemma agree_loadProps (l : loc) : agree (λ p, size p ≤ 1) (loadProps l) (loadProps l).
Proof.
  intros σ Hσ. split; [done|]. unfold loadProps. intros ?? [= <- <-]. split; [done|].
  destruct (heap σ !! l) as [p|] eqn:Hp; simpl; [by eapply Hσ|].
  rewrite map_size_empty. lia.
Qed.

Lemma agree_deleteKey (l : loc) (k : string) :
  agree (λ _, True) (deleteKey l k) (deleteKey l k).
Proof.
  intros σ Hσ. split; [done|]. unfold deleteKey. intros ?? [= <- <-]. split; [|done].
  intros l' p. simpl. destruct (decide (l' = l)) as [->|Hne].
  - rewrite lookup_alter_eq. destruct (heap σ !! l) as [q|] eqn:Hq; [|done].
    intros [= <-]. pose proof (Hσ _ _ Hq).
    pose proof (map_subseteq_size _ _ (delete_subseteq q k)). lia.
  - rewrite lookup_alter_ne by done. apply Hσ.
Qed.

Section TwoRuns.

Context (ro1 ro2 : nat → list (string * string) → list (string * string))
        (Hro1 : admissible ro1) (Hro2 : admissible ro2)
        (Js2Go : string → string → Result string)
        (getPropsClass getPropsStyle : Props.t → Result string)
        (genAttrCode : VueElement → Props.t → Result string).

(** A map with one entry at most is ranged over in one way only. *)
Lemma range_small (m : gmap string string) k1 k2 :
  size m ≤ 1 → ro1 k1 (map_to_list m) = ro2 k2 (map_to_list m).
Proof.
  intros Hm. pose proof (Hro1 k1 (map_to_list m)) as H1.
  pose proof (Hro2 k2 (map_to_list m)) as H2.
  rewrite <- (length_map_to_list m) in Hm.
  destruct (map_to_list m) as [|x [|y l]]; simpl in Hm; [| |lia].
  - apply Permutation_nil_r in H1, H2. congruence.
  - apply Permutation_singleton_r in H1, H2. congruence.
Qed.

Lemma agree_rangeMap (m : gmap string string) :
  size m ≤ 1 → agree (λ _, True) (rangeMap ro1 m) (rangeMap ro2 m).
Proof.
  intros Hm σ Hσ. unfold rangeMap. split.
  - by rewrite (range_small m (ranged σ) (ranged σ)).
  - by intros ?? [= <- <-].
Qed.

Lemma agree_mapStringToGoCode (m : gmap string string) :
  size m ≤ 1 → agree (λ _, True) (mapStringToGoCode ro1 m) (mapStringToGoCode ro2 m).
Proof.
  intros Hm. unfold mapStringToGoCode. case_bool_decide; [by apply agree_ret|].
  eapply agree_bind; [by apply agree_rangeMap|]. intros l _. by apply agree_ret.
Qed.

Lemma agree_mapGoCodeToCode (m : gmap string string) (valueType : string) :
  size m ≤ 1 →
  agree (λ _, True) (mapGoCodeToCode ro1 m valueType) (mapGoCodeToCode ro2 m valueType).
Proof.
  intros Hm. unfold mapGoCodeToCode.
  eapply agree_bind; [by apply agree_rangeMap|]. intros l _. by apply agree_ret.
Qed.

Lemma agree_mapJsCodeToCode (m : gmap string string) :
  size m ≤ 1 →
  agree (λ _, True) (mapJsCodeToCode ro1 Js2Go m) (mapJsCodeToCode ro2 Js2Go m).
Proof.
  intros Hm. unfold mapJsCodeToCode. case_bool_decide; [by apply agree_ret|].
  eapply agree_bind; [by apply agree_rangeMap|]. intros l _.
  eapply agree_bind; [apply agree_lift|]. intros props _. by apply agree_ret.
Qed.

Lemma agree_propsCode (o : OptionsGen.t) (c : string) :
  agree (λ _, True)
    (propsCode ro1 Js2Go getPropsClass getPropsStyle o c)
    (propsCode ro2 Js2Go getPropsClass getPropsStyle o c).
Proof.
  unfold propsCode.
  eapply agree_bind; [apply agree_loadProps|]. intros p Hp. simpl in Hp.
  case_bool_decide; [|by apply agree_ret].
  eapply agree_bind; [apply agree_lift|]. intros cCode _.
  eapply (agree_bind (λ _, True)).
  { case_bool_decide; [|by apply agree_ret].
    eapply agree_bind; [apply agree_deleteKey|]. intros _ _. by apply agree_ret. }
  intros c1 _.
  eapply agree_bind; [apply agree_loadProps|]. intros p1 Hp1. simpl in Hp1.
  eapply agree_bind; [apply agree_lift|]. intros cStyle _.
  eapply (agree_bind (λ _, True)).
  { case_bool_decide; [|by apply agree_ret].
    eapply agree_bind; [apply agree_deleteKey|]. intros _ _. by apply agree_ret. }
  intros c2 _.
  eapply agree_bind; [apply agree_loadProps|]. intros p2 Hp2. simpl in Hp2.
  case_bool_decide; [|by apply agree_ret].
  eapply agree_bind; [by apply agree_mapJsCodeToCode|]. intros m _. by apply agree_ret.
Qed.

Lemma agree_ToGoCode (o : OptionsGen.t) :
  size (OptionsGen.Attrs o) ≤ 1 → size (OptionsGen.Style o) ≤ 1 →
  OptionsGen.NamedSlotCode o = ∅ →
  agree (λ _, True)
    (ToGoCode ro1 Js2Go getPropsClass getPropsStyle o)
    (ToGoCode ro2 Js2Go getPropsClass getPropsStyle o).
Proof.
  intros Ha Hs Hn. unfold ToGoCode.
  eapply agree_bind; [apply agree_propsCode|]. intros c1 _.
  eapply (agree_bind (λ _, True)).
  { case_bool_decide; [|by apply agree_ret].
    eapply agree_bind; [by apply agree_mapStringToGoCode|]. intros m _. by apply agree_ret. }
  intros c2 _.
  eapply (agree_bind (λ _, True)).
  { case_bool_decide; [|by apply agree_ret].
    eapply agree_bind; [by apply agree_mapStringToGoCode|]. intros m _. by apply agree_ret. }
  intros c3 _.
  eapply agree_bind.
  { apply agree_mapGoCodeToCode. unfold slotMap. rewrite Hn, (left_id_L ∅ (∪)).
    by rewrite map_size_singleton. }
  intros m _.
  eapply (agree_bind (λ _, True)).
  { case_bool_decide; [|by apply agree_ret].
    eapply agree_bind; [apply agree_lift|]. intros dir _. by apply agree_ret. }
  intros c4 _. by apply agree_ret.
Qed.

Lemma agree_genElement (e : VueElement) (app : App) (d : string) :
  size (Attrs e) ≤ 1 → size (Style e) ≤ 1 →
  agree (λ _, True)
    (genElement ro1 Js2Go getPropsClass getPropsStyle genAttrCode e app d ∅)
    (genElement ro2 Js2Go getPropsClass getPropsStyle genAttrCode e app d ∅).
Proof.
  intros Ha Hs. unfold genElement.
  case_bool_decide.
  { eapply agree_bind; [by apply agree_ToGoCode|]. intros oc _. by apply agree_ret. }
  case_bool_decide; [by apply agree_ret|].
  case_bool_decide.
  { eapply agree_bind; [apply agree_lift|]. intros t _. by apply agree_ret. }
  destruct (IsRoot e || bool_decide (length (Directives e) ≠ 0)).
  { eapply agree_bind; [by apply agree_ToGoCode|]. intros oc _. by apply agree_ret. }
  eapply agree_bind; [apply agree_loadProps|]. intros p _.
  eapply agree_bind; [apply agree_lift|]. intros attrs _. by apply agree_ret.
Qed.

Lemma agree_genChildren gen1 gen2 (cs : list VueElement) (d : string) :
  Forall (λ v, agree (λ r, r.2 = ∅) (gen1 v) (gen2 v)) cs →
  agree (λ r, r.2 = ∅) (genChildren gen1 cs d ∅) (genChildren gen2 cs d ∅).
Proof.
  intros Hcs. revert d. induction Hcs as [|v cs Hv _ IH]; intros d.
  - by apply agree_ret.
  - simpl. destruct (VElse v || VElseIf v); [apply IH|].
    eapply agree_bind; [apply Hv|]. intros [c nc] Hnc. simpl in Hnc. subst nc.
    rewrite (left_id_L ∅ (∪)). apply IH.
Qed.

Lemma agree_genElseChain gen1 gen2 (chain : list (ElseIf.t VueElement)) (code : string) :
  Forall (λ x, agree (λ r, r.2 = ∅) (gen1 (ElseIf.VueElement x)) (gen2 (ElseIf.VueElement x)))
    chain →
  agree (λ r, r.2 = ∅)
    (genElseChain Js2Go gen1 chain code ∅) (genElseChain Js2Go gen2 chain code ∅).
Proof.
  intros Hch. revert code. induction Hch as [|x chain Hx _ IH]; intros code.
  - by apply agree_ret.
  - simpl. eapply agree_bind; [apply Hx|]. intros [c nc] Hnc. simpl in Hnc. subst nc.
    rewrite (left_id_L ∅ (∪)).
    eapply (agree_bind (λ _, True)); [|intros code' _; apply IH].
    case_bool_decide; [by apply agree_ret|].
    case_bool_decide; [|by apply agree_ret].
    eapply agree_bind; [apply agree_lift|]. intros cond _. by apply agree_ret.
Qed.

Lemma orderFree_unfold (e : VueElement) :
  orderFree e
  = bool_decide (size (Attrs e) ≤ 1) && bool_decide (size (Style e) ≤ 1)
    && bool_decide (VSlot e = None)
    && forallb orderFree (Children e)
    && match VIf e with
       | Some vi => forallb (λ x, orderFree (ElseIf.VueElement x)) (VIf.ElseIf vi)
       | None => true
       end.
Proof. by destruct e. Qed.

Lemma Forall_forallb_impl {A} (P : A → Prop) (f : A → bool) (l : list A) :
  Forall (λ x, f x = true → P x) l → forallb f l = true → Forall P l.
Proof.
  induction 1 as [|x l Hx _ IH]; [done|]. simpl.
  intros [Hfx Hl]%andb_true_iff. constructor; auto.
Qed.

(** On an order-free tree the two runs agree, and no named slot comes back. *)
Lemma agree_GenCode (app : App) (e : VueElement) :
  orderFree e = true →
  agree (λ r, r.2 = ∅)
    (GenCode ro1 Js2Go getPropsClass getPropsStyle genAttrCode e app)
    (GenCode ro2 Js2Go getPropsClass getPropsStyle genAttrCode e app).
Proof.
  induction e as [e IHc IHv] using VueElement_tree_ind.
  rewrite orderFree_unfold.
  intros [[[[Ha%bool_decide_eq_true Hs%bool_decide_eq_true]%andb_true_iff
              Hslot%bool_decide_eq_true]%andb_true_iff Hch]%andb_true_iff Hvi]%andb_true_iff.
  rewrite !GenCode_unfold.
  eapply agree_bind.
  { apply agree_genChildren. by eapply Forall_forallb_impl. }
  intros [d n] Hn. simpl in Hn. subst n.
  eapply agree_bind; [by apply agree_genElement|]. intros c _.
  unfold decorateSlot. rewrite Hslot.
  revert IHv Hvi. destruct (VIf e) as [vi|]; intros IHv Hvi; [|by apply agree_ret].
  eapply (agree_bind (λ r, r.2 = ∅)).
  - unfold genVIf_with.
    eapply agree_bind; [apply agree_lift|]. intros cond _.
    eapply agree_bind.
    { apply agree_genElseChain.
      apply (Forall_forallb_impl _ (λ x, orderFree (ElseIf.VueElement x)));
        [exact IHv|exact Hvi]. }
    intros [c2 n2] Hn2. simpl in Hn2. subst n2. by apply agree_ret.
  - intros [c2 n2] Hn2. simpl in Hn2. subst n2. apply agree_ret. simpl.
    by rewrite (left_id_L ∅ (∪)).
Qed.

(** C1, amended: on a tree in which no map that is serialised has more than
    one entry and no node has [v-slot], two runs of [GenCode] with the same
    registry return the same code, the same named-slot map and the same
    store, in whatever order their range statements yield the entries. *)
Theorem GenCode_deterministic_order_free (e : VueElement) (app : App) (σ : Machine) :
  orderFree e = true →
  smallProps σ →
  GenCode ro1 Js2Go getPropsClass getPropsStyle genAttrCode e app σ
  = GenCode ro2 Js2Go getPropsClass getPropsStyle genAttrCode e app σ.
Proof. intros He Hσ. by apply (agree_GenCode app e He σ Hσ). Qed.

End TwoRuns.

Lemma GenCode_deterministic_order_free_witness :
  let e := withAttrs [("id", "a")]
             (withRoot (withChildren [withText "hi" (element "__string" 2%positive)]
                          (element "div" 1%positive))) in
  let h : gmap loc (gmap string string) := {[ 1%positive := {[ "title" := "t" ]} ]} in
  GenCode_run canonicalOrder e NewApp (start h)
  = GenCode_run reverseOrder e NewApp (start h).
Proof.
  intros e h. unfold GenCode_run.
  apply (GenCode_deterministic_order_free canonicalOrder reverseOrder
           admissible_canonicalOrder admissible_reverseOrder).
  - by vm_compute.
  - intros l p H. simpl in H. apply lookup_singleton_Some in H as [<- <-].
    by rewrite map_size_singleton.
Defined.

(** * Further properties *)

(** ** [Props.Omit] and [Props.Only] *)

Lemma copy_loop_lookup (keep : string → bool)
    (step : gmap string string → string * string → gmap string string)
    (entries : list (string * string)) (a : gmap string string) (k : string) :
  (∀ a kv, step a kv = if keep kv.1 then <[kv.1 := kv.2]> a else a) →
  NoDup entries.*1 →
  foldl step a entries !! k
  = if keep k
    then match (list_to_map entries : gmap string string) !! k with
         | Some v => Some v
         | None => a !! k
         end
    else a !! k.
Proof.
  intros Hstep. revert a. induction entries as [|[k' v'] l IH]; intros a Hnd.
  - simpl. rewrite lookup_empty. by destruct (keep k).
  - apply NoDup_cons in Hnd as [Hk' Hnd]. simpl. rewrite IH by done.
    rewrite Hstep. simpl.
    destruct (keep k) eqn:Hk; destruct (decide (k = k')) as [->|Hne].
    + rewrite Hk, lookup_insert_eq.
      rewrite (not_elem_of_list_to_map_1 l k') by done. by rewrite lookup_insert_eq.
    + rewrite lookup_insert_ne by done.
      destruct (list_to_map l !! k); [done|].
      destruct (keep k'); [by rewrite lookup_insert_ne|done].
    + by rewrite Hk.
    + destruct (keep k'); [by rewrite lookup_insert_ne|done].
Qed.

Lemma entries_of_map (p : gmap string string) (entries : list (string * string)) :
  entries ≡ₚ map_to_list p →
  NoDup entries.*1 ∧ (list_to_map entries : gmap string string) = p.
Proof.
  intros Hp. assert (NoDup entries.*1) as Hnd.
  { rewrite Hp. apply NoDup_fst_map_to_list. }
  split; [done|]. rewrite (list_to_map_proper _ _ Hnd Hp). apply list_to_map_to_list.
Qed.

Lemma Omit_loop_filter (p : Props.t) (key : list string)
    (entries : list (string * string)) :
  entries ≡ₚ map_to_list p →
  Props.Omit_loop key entries = filter (λ kv, kv.1 ∉ key) p.
Proof.
  intros [Hnd Hp]%entries_of_map. apply map_eq. intros k.
  unfold Props.Omit_loop.
  rewrite (copy_loop_lookup (λ k, negb (bool_decide (k ∈ key)))); [|intros; by case_bool_decide|done].
  rewrite Hp, lookup_empty. case_bool_decide as Hk; simpl.
  - symmetry. apply map_lookup_filter_None. right. intros v _ Hv. by apply Hv.
  - destruct (p !! k) as [v|] eqn:Hv.
    + symmetry. by apply map_lookup_filter_Some.
    + symmetry. apply map_lookup_filter_None. by left.
Qed.

Lemma Only_loop_filter (p : Props.t) (key : list string)
    (entries : list (string * string)) :
  entries ≡ₚ map_to_list p →
  Props.Only_loop key entries = filter (λ kv, kv.1 ∈ key) p.
Proof.
  intros [Hnd Hp]%entries_of_map. apply map_eq. intros k.
  unfold Props.Only_loop.
  rewrite (copy_loop_lookup (λ k, bool_decide (k ∈ key))); [|intros; by case_bool_decide|done].
  rewrite Hp, lookup_empty. case_bool_decide as Hk; simpl.
  - destruct (p !! k) as [v|] eqn:Hv.
    + symmetry. by apply map_lookup_filter_Some.
    + symmetry. apply map_lookup_filter_None. by left.
  - symmetry. apply map_lookup_filter_None. right. by intros v _.
Qed.

(** [Omit] copies the receiver without the listed keys, in whatever order
    the range statement yields the entries. *)
Theorem Omit_without_keys (p : Props.t) (key : list string)
    (entries : list (string * string)) (k : string) :
  entries ≡ₚ map_to_list p →
  Props.Omit_loop key entries !! k = if decide (k ∈ key) then None else p !! k.
Proof.
  intros Hp. rewrite (Omit_loop_filter p) by done.
  destruct (decide (k ∈ key)) as [Hk|Hk].
  - apply map_lookup_filter_None. right. intros v _ Hn. by apply Hn.
  - destruct (p !! k) as [v|] eqn:Hv.
    + by apply map_lookup_filter_Some.
    + apply map_lookup_filter_None. by left.
Qed.

Lemma Omit_without_keys_witness :
  Props.Omit_loop ["class"] [("id", "a"); ("class", "c")] !! "id" = Some "a"
  ∧ Props.Omit_loop ["class"] [("id", "a"); ("class", "c")] !! "class" = None.
Proof.
  assert ([("id", "a"); ("class", "c")]
          ≡ₚ map_to_list ({[ "class" := "c"; "id" := "a" ]} : Props.t)) as Hp.
  { vm_compute. apply perm_swap. }
  split.
  - by rewrite (Omit_without_keys _ ["class"] _ "id" Hp).
  - by rewrite (Omit_without_keys _ ["class"] _ "class" Hp).
Defined.

(** [Only] copies exactly the entries under the listed keys. *)
Theorem Only_listed_keys (p : Props.t) (key : list string)
    (entries : list (string * string)) (k : string) :
  entries ≡ₚ map_to_list p →
  Props.Only_loop key entries !! k = if decide (k ∈ key) then p !! k else None.
Proof.
  intros Hp. rewrite (Only_loop_filter p) by done.
  destruct (decide (k ∈ key)) as [Hk|Hk].
  - destruct (p !! k) as [v|] eqn:Hv.
    + by apply map_lookup_filter_Some.
    + apply map_lookup_filter_None. by left.
  - apply map_lookup_filter_None. right. by intros v _.
Qed.

Lemma Only_listed_keys_witness :
  Props.Only_loop ["class"] [("id", "a"); ("class", "c")] !! "id" = None
  ∧ Props.Only_loop ["class"] [("id", "a"); ("class", "c")] !! "class" = Some "c".
Proof.
  assert ([("id", "a"); ("class", "c")]
          ≡ₚ map_to_list ({[ "class" := "c"; "id" := "a" ]} : Props.t)) as Hp.
  { vm_compute. apply perm_swap. }
  split.
  - by rewrite (Only_listed_keys _ ["class"] _ "id" Hp).
  - by rewrite (Only_listed_keys _ ["class"] _ "class" Hp).
Defined.

(** [Omit] and [Only] with the same keys split the receiver in two: the
    copies have no key in common and together they are the receiver. *)
Theorem Omit_Only_partition (p : Props.t) (key : list string) :
  Props.Omit p key ##ₘ Props.Only p key
  ∧ Props.Omit p key ∪ Props.Only p key = p.
Proof.
  unfold Props.Omit, Props.Only.
  rewrite (Omit_loop_filter p), (Only_loop_filter p) by done. split.
  - apply map_disjoint_spec. intros k v w [_ Hv]%map_lookup_filter_Some [_ Hw]%map_lookup_filter_Some.
    by apply Hv.
  - apply map_eq. intros k. destruct (decide (k ∈ key)) as [Hk|Hk].
    + rewrite lookup_union_r.
      * destruct (p !! k) as [v|] eqn:Hv.
        -- by apply map_lookup_filter_Some.
        -- apply map_lookup_filter_None. by left.
      * apply map_lookup_filter_None. right. intros v _ Hn. by apply Hn.
    + rewrite lookup_union_l.
      * destruct (p !! k) as [v|] eqn:Hv.
        -- by apply map_lookup_filter_Some.
        -- apply map_lookup_filter_None. by left.
      * apply map_lookup_filter_None. right. by intros v _.
Qed.

(** ** More on the text normaliser *)

Lemma allSpace_cons c (s : string) :
  allSpace (String c s) = is_space c && allSpace s.
Proof. reflexivity. Qed.

Lemma ReplaceAll_nl_space_cons c (s : string) :
  Strings.ReplaceAll (String c s) nl " "
  = String (if bool_decide (c = "010"%char) then " "%char else c)
      (Strings.ReplaceAll s nl " ").
Proof. rewrite ReplaceAll_nl_cons. by case_bool_decide. Qed.

Lemma collapse_go_cons b c (s : string) :
  collapse_go b (String c s)
  = if is_space c
    then (if b then collapse_go true s else String " "%char (collapse_go true s))
    else String c (collapse_go false s).
Proof. reflexivity. Qed.

Lemma collapse_go_single_spaced b (s : string) :
  singleSpaced b (collapse_go b s) = true.
Proof.
  revert b. induction s as [|c s IH]; intros b; [done|].
  rewrite collapse_go_cons. destruct (is_space c) eqn:Hc.
  - destruct b; [apply IH|]. simpl. apply IH.
  - simpl. rewrite Hc. apply IH.
Qed.

Lemma single_spaced_fixed b (s : string) :
  singleSpaced b s = true →
  collapse_go b s = s ∧ Strings.ReplaceAll s nl " " = s.
Proof.
  revert b. induction s as [|c s IH]; intros b H; [done|].
  simpl in H. rewrite collapse_go_cons, ReplaceAll_nl_space_cons.
  destruct (is_space c) eqn:Hc.
  - apply andb_true_iff in H as [[->%bool_decide_eq_true Hb%negb_true_iff]%andb_true_iff H].
    subst b. destruct (IH true H) as [-> ->]. by rewrite bool_decide_eq_false_2.
  - destruct (IH false H) as [-> ->].
    rewrite bool_decide_eq_false_2; [done|]. intros ->. discriminate.
Qed.

(** The texts the normaliser leaves as they are, and the texts it returns,
    are the same: those whose only white space is single spaces. *)
Theorem normalizeText_fixed_points (s : string) :
  (normalizeText s = s ↔ singleSpaced false s = true)
  ∧ singleSpaced false (normalizeText s) = true.
Proof.
  assert (singleSpaced false (normalizeText s) = true) as Hn
    by apply collapse_go_single_spaced.
  split; [|done]. split.
  - intros <-. exact Hn.
  - intros H. unfold normalizeText, collapseSpaces.
    destruct (single_spaced_fixed false s H) as [Hc ->]. exact Hc.
Qed.

Lemma allSpace_ReplaceAll (s : string) :
  allSpace (Strings.ReplaceAll s nl " ") = allSpace s.
Proof.
  induction s as [|c s IH]; [done|].
  rewrite ReplaceAll_nl_space_cons, !allSpace_cons, IH.
  case_bool_decide as Hc; [by subst c|done].
Qed.

Lemma collapse_go_allSpace (s : string) :
  allSpace s = true →
  collapse_go true s = EmptyString
  ∧ collapse_go false s = (if s is EmptyString then EmptyString else " ").
Proof.
  induction s as [|c s IH]; [done|].
  rewrite allSpace_cons. intros [Hc Hs]%andb_true_iff.
  rewrite !collapse_go_cons, Hc. destruct (IH Hs) as [-> _]. done.
Qed.

Lemma collapse_go_not_allSpace b (s : string) :
  allSpace s = false →
  collapse_go b s ≠ EmptyString ∧ collapse_go b s ≠ " ".
Proof.
  revert b. induction s as [|c s IH]; intros b; [done|].
  rewrite allSpace_cons, collapse_go_cons. destruct (is_space c) eqn:Hc; simpl.
  - intros Hs. destruct b; [by apply IH|].
    destruct (IH true Hs) as [H1 _]. split; [done|]. by intros [= H].
  - intros _. split; [done|]. intros [= -> _]. discriminate.
Qed.

(** A text node is dropped exactly when its text is white space only (the
    empty text included). *)
Theorem omitNode_iff_blank (data : string) :
  omitNode (normalizeText data) = allSpace data.
Proof.
  unfold omitNode, normalizeText, collapseSpaces.
  rewrite <- (allSpace_ReplaceAll data).
  destruct (allSpace (Strings.ReplaceAll data nl " ")) eqn:Hs.
  - destruct (collapse_go_allSpace _ Hs) as [_ ->].
    by destruct (Strings.ReplaceAll data nl " ").
  - destruct (collapse_go_not_allSpace false _ Hs) as [H1 H2].
    by rewrite !bool_decide_eq_false_2.
Qed.

(** ** More on the attributes of the lifter *)

(** The operand of [v-for] is accepted exactly when it holds the separator
    [ in ]; without it the lifter panics on [ss[1]]. *)
Theorem parseVFor_panics_iff (val : string) :
  (Strings.Contains val " in " = false →
     Lifter.parseVFor val = Err "index out of range [1] with length 1")
  ∧ (Strings.Contains val " in " = true → ∃ f, Lifter.parseVFor val = Ok f).
Proof.
  split.
  - unfold Strings.Contains. intros H%bool_decide_eq_false.
    assert (Strings.Index val " in " = None) as Hi.
    { destruct (Strings.Index val " in "); [|done]. by destruct H. }
    unfold Lifter.parseVFor, Strings.Split.
    by rewrite (split_go_last _ _ _ Hi).
  - intros H. destruct (split_go_contains " in " val EmptyString H) as (a & b & rest & Hs).
    unfold Lifter.parseVFor, Strings.Split. rewrite Hs. simpl.
    destruct (Strings.Contains (Strings.Trim a " ") ",") eqn:Hc; [|by eexists].
    destruct (split_go_contains "," (Strings.Trim (Strings.Trim a " ") "()") EmptyString)
      as (item & index & rest' & Hsplit).
    { unfold Strings.Trim at 1. by apply TrimRight_parens_comma, TrimLeft_parens_comma. }
    rewrite Hsplit. by eexists.
Qed.

Lemma parseVFor_panics_iff_witness :
  Lifter.parseVFor "item of list" = Err "index out of range [1] with length 1"
  ∧ ∃ f, Lifter.parseVFor "a in b in c" = Ok f.
Proof.
  split.
  - by apply (parseVFor_panics_iff "item of list").
  - by apply (parseVFor_panics_iff "a in b in c").
Defined.

Lemma Split_colon_two (ns x : string) :
  Strings.Index ns ":" = None → Strings.Index x ":" = None →
  Strings.Split (ns +:+ ":" +:+ x) ":" = [ns; x].
Proof.
  intros Hns Hx. apply (Split_two ":" EmptyString); [|done].
  clear Hx. induction ns as [|c ns IH].
  - rewrite app_empty_l. change (":" +:+ x) with (String ":" x).
    by rewrite Index_cons, prefix_cons, prefix_empty.
  - rewrite app_cons, Index_cons. rewrite Index_cons in Hns.
    destruct (String.prefix ":" (String c ns)) eqn:Hp; [done|].
    assert (String.prefix ":" (String c (ns +:+ ":" +:+ x)) = false) as ->.
    { rewrite prefix_cons, prefix_empty in *. by destruct (decide _). }
    rewrite IH; [done|]. by destruct (Strings.Index ns ":").
Qed.

(** [v-bind:x] and its shorthand [:x] do the same: both put the expression
    under [x] into the props. *)
Theorem bind_shorthand (b : Lifter.Buckets) (ns x val : string) :
  Strings.Index x ":" = None →
  Lifter.classifyAttr b (Attribute.Build ns ("v-bind:" +:+ x) val)
  = Ok (Lifter.set_props b (<[x := val]> (Lifter.props b)))
  ∧ Lifter.classifyAttr b (Attribute.Build ns (":" +:+ x) val)
    = Ok (Lifter.set_props b (<[x := val]> (Lifter.props b))).
Proof.
  intros Hx. unfold Lifter.classifyAttr. simpl. split.
  - change ("v-bind:" +:+ x) with ("v-bind" +:+ ":" +:+ x).
    by rewrite (Split_colon_two "v-bind" x).
  - change (":" +:+ x) with (EmptyString +:+ ":" +:+ x).
    by rewrite (Split_colon_two EmptyString x).
Qed.

Lemma bind_shorthand_witness :
  Lifter.classifyAttr Lifter.emptyBuckets (Attribute.Build EmptyString "v-bind:title" "t")
  = Lifter.classifyAttr Lifter.emptyBuckets (Attribute.Build EmptyString ":title" "t").
Proof.
  destruct (bind_shorthand Lifter.emptyBuckets EmptyString "title" "t" eq_refl) as [H1 H2].
  exact (eq_trans H1 (eq_sym H2)).
Defined.

(** [v-slot:name] makes a slot descriptor; an empty value stands for the
    props key [slotProps].  The names [v-for] and [v-if] are taken by the
    cases before it. *)
Theorem slot_attribute (b : Lifter.Buckets) (ns name val : string) :
  Strings.Index name ":" = None → name ≠ "v-for" → name ≠ "v-if" →
  Lifter.classifyAttr b (Attribute.Build ns ("v-slot:" +:+ name) val)
  = Ok (Lifter.set_vSlot b
          (Some {| VSlot.SlotName := name;
                   VSlot.PropsKey := if bool_decide (val = EmptyString)
                                     then "slotProps" else val |})).
Proof.
  intros Hx Hfor Hif. unfold Lifter.classifyAttr. simpl.
  change ("v-slot:" +:+ name) with ("v-slot" +:+ ":" +:+ name).
  rewrite (Split_colon_two "v-slot" name) by done. simpl.
  rewrite (bool_decide_eq_false_2 (name = "v-for")) by done.
  by rewrite (bool_decide_eq_false_2 (name = "v-if")).
Qed.

Lemma slot_attribute_witness :
  Lifter.classifyAttr Lifter.emptyBuckets (Attribute.Build EmptyString "v-slot:header" EmptyString)
  = Ok (Lifter.set_vSlot Lifter.emptyBuckets
          (Some {| VSlot.SlotName := "header"; VSlot.PropsKey := "slotProps" |})).
Proof.
  by apply (slot_attribute Lifter.emptyBuckets EmptyString "header" EmptyString).
Defined.

(** ** The walk over the siblings, as a whole *)

Module LifterWalk.
Import Lifter.

Lemma addElseIfAt_inv j i x l l' :
  addElseIfAt j i x l = Ok l' →
  ∃ u p, l !! j = Some u ∧ VIf u = Some p ∧ l' = chained j u p (pointTo i x) l.
Proof.
  unfold addElseIfAt. intros H.
  destruct (l !! j) as [u|] eqn:Hu; [|done].
  destruct (VIf u) as [p|] eqn:Hp; [|done]. simplify_eq. by exists u, p.
Qed.

Lemma chained_fmap {A} (f : VueElement → A) j u p x l :
  (∀ q, f (set_VIf u q) = f u) → l !! j = Some u →
  f <$> chained j u p x l = f <$> l.
Proof.
  intros Hf Hu. unfold chained. rewrite list_fmap_insert, Hf.
  apply list_insert_id. by rewrite list_lookup_fmap, Hu.
Qed.

Lemma addElseIfAt_fmap {A} (f : VueElement → A) j i x l l' :
  (∀ u q, f (set_VIf u q) = f u) →
  addElseIfAt j i x l = Ok l' → f <$> l' = f <$> l.
Proof.
  intros Hf (u & p & Hu & Hp & ->)%addElseIfAt_inv. by apply chained_fmap.
Qed.

Lemma linkElse_fmap {A} (f : VueElement → A) i v vElse vElseIf w w' :
  (∀ u q, f (set_VIf u q) = f u) →
  linkElse i v vElse vElseIf w = Ok w' →
  f <$> vs w' = (f <$> vs w) ++ [f v].
Proof.
  intros Hf. unfold linkElse.
  set (cur1 := if bool_decide (VIf v ≠ None) then _ else _). intros H.
  assert (∀ l, (match vElse with
                | Some x =>
                    match cur1 with
                    | None => Err "v-else must below v-if"
                    | Some j =>
                        rbind (addElseIfAt j i x l)
                          (λ vs3, Ok {| vs := vs3; ifVueEle := None |})
                    end
                | None => Ok {| vs := l; ifVueEle := cur1 |}
                end) = Ok w' → f <$> vs w' = f <$> l) as Hsecond.
  { intros l Hl. destruct vElse as [y|]; [|by simplify_eq].
    destruct cur1 as [j|]; [|done].
    destruct (addElseIfAt j i y l) as [vs3|] eqn:H3; [|done]. simpl in Hl. simplify_eq.
    by eapply addElseIfAt_fmap. }
  destruct vElseIf as [x|]; simpl in H.
  - destruct cur1 as [j|]; [|done].
    destruct (addElseIfAt j i x (vs w ++ [v])) as [vs2|] eqn:H2; [|done]. simpl in H.
    rewrite (Hsecond _ H), (addElseIfAt_fmap f _ _ _ _ _ Hf H2). by rewrite fmap_app.
  - rewrite (Hsecond _ H). by rewrite fmap_app.
Qed.

Lemma parseNode_result e b v :
  parseNode e = Ok (b, v) →
  shape v = rawShape e
  ∧ VIf v = vIf b
  ∧ VElse v = bool_decide (vElse b ≠ None)
  ∧ VElseIf v = bool_decide (vElseIf b ≠ None).
Proof.
  destruct e as [text tag attrs children root]. simpl. unfold rbind.
  destruct (classifyAttrs emptyBuckets attrs) as [b'|]; [|done].
  destruct (parseSiblings parseNode children 0 _) as [ch|]; [|done].
  by intros [= <- <-].
Qed.

Lemma parseSiblings_shape es i w l :
  parseSiblings parseNode es i w = Ok l →
  shape <$> l = (shape <$> vs w) ++ (rawShape <$> es).
Proof.
  revert i w. induction es as [|e es IH]; intros i w H.
  - simpl in H. simplify_eq. by rewrite app_nil_r.
  - simpl in H. unfold rbind in H.
    destruct (parseNode e) as [[b v]|] eqn:He; [|done].
    destruct (linkElse i v (vElse b) (vElseIf b) w) as [w'|] eqn:Hl; [|done].
    apply IH in H. rewrite H.
    rewrite (linkElse_fmap shape _ _ _ _ _ _ (λ _ _, eq_refl) Hl).
    apply parseNode_result in He as (-> & _). by rewrite <- app_assoc.
Qed.

(** [parseList] returns one element for each raw element, in the same
    order, with the same tag, text and root mark. *)
Theorem parseList_shape (es : list Element.t) (l : list VueElement) :
  parseList es = Ok l →
  length l = length es
  ∧ (λ v, (TagName v, Text v, IsRoot v)) <$> l
    = (λ e, (Element.TagName e, Element.Text e, Element.Root e)) <$> es.
Proof.
  intros H%parseSiblings_shape. simpl in H. split; [|exact H].
  apply (f_equal length) in H. by rewrite !length_fmap in H.
Qed.

Lemma parseList_shape_witness :
  ∃ l, parseList [tag "p" [attr "v-if" "a"]; tag "q" [attr "v-else" EmptyString]] = Ok l
       ∧ length l = 2.
Proof.
  destruct (parseList [tag "p" [attr "v-if" "a"]; tag "q" [attr "v-else" EmptyString]])
    as [l|] eqn:H; [|vm_compute in H; discriminate].
  exists l. split; [done|]. by destruct (parseList_shape _ _ H) as [-> _].
Defined.

Section element_induction.

Variable P : Element.t → Prop.
Hypothesis step : ∀ e, Forall P (Element.Children e) → P e.

Fixpoint Element_tree_ind (e : Element.t) : P e :=
  step e
    ((fix children (l : list Element.t) : Forall P l :=
        match l with
        | [] => @List.Forall_nil _ P
        | x :: l' => @List.Forall_cons _ P x l' (Element_tree_ind x) (children l')
        end) (Element.Children e)).

End element_induction.

Lemma parseVFor_err val msg :
  parseVFor val = Err msg → msg = "index out of range [1] with length 1".
Proof.
  unfold parseVFor. destruct (Strings.Split val " in " !! 1); [|congruence].
  destruct (Strings.Contains _ _); [|done].
  destruct (Strings.Split _ "," !! 1); [done|congruence].
Qed.

Lemma classifyAttr_err b a msg :
  classifyAttr b a = Err msg → msg = "index out of range [1] with length 1".
Proof.
  unfold classifyAttr.
  destruct (match Strings.Split (Attribute.Key a) ":" with
            | [s0; s1] => (s0, s1)
            | _ => ("-", Attribute.Key a)
            end) as [nameSpace key].
  destruct (_ || _); [done|].
  destruct (Strings.HasPrefix _ _).
  - repeat (case_bool_decide; [try done|]).
    + unfold rbind. destruct (parseVFor _) eqn:Hf; [done|].
      intros [= <-]. by eapply parseVFor_err.
    + by destruct (if negb _ then _ else _).
  - repeat (case_bool_decide; [done|]). done.
Qed.

Lemma classifyAttrs_err l b msg :
  classifyAttrs b l = Err msg → msg = "index out of range [1] with length 1".
Proof.
  revert b. induction l as [|a l IH]; intros b; [done|].
  simpl. unfold rbind. destruct (classifyAttr b a) as [b'|] eqn:Ha.
  - apply IH.
  - intros [= <-]. by eapply classifyAttr_err.
Qed.

Lemma cursor_ok_init : cursor_ok {| vs := []; ifVueEle := None |}.
Proof. by intros j. Qed.

(** With a sound cursor the only panics of [linkElse] are the two about a
    dangling else. *)
Lemma linkElse_err v vElse vElseIf w msg :
  cursor_ok w →
  linkElse (length (vs w)) v vElse vElseIf w = Err msg →
  msg = "v-else-if must below v-if" ∨ msg = "v-else must below v-if".
Proof.
  intros Hok. unfold linkElse.
  set (cur1 := if bool_decide (VIf v ≠ None) then _ else _).
  assert (∀ j, cur1 = Some j → ∃ u p, (vs w ++ [v]) !! j = Some u ∧ VIf u = Some p) as H1.
  { intros j. unfold cur1. case_bool_decide as Hif.
    - intros [= <-]. destruct (VIf v) as [p|] eqn:Hp; [|done].
      exists v, p. split; [|done]. by rewrite lookup_app_r, Nat.sub_diag.
    - destruct (_ && _); [done|]. intros Hj.
      destruct (Hok j Hj) as (u & p & Hu & Hp). exists u, p. split; [|done].
      by apply lookup_app_l_Some. }
  intros H. destruct vElseIf as [x|]; simpl in H.
  - destruct cur1 as [j|] eqn:Hc; [|left; simpl in H; by simplify_eq].
    destruct (H1 j eq_refl) as (u & p & Hu & Hp).
    rewrite (LifterFacts.addElseIfAt_ok j _ x _ u p Hu Hp) in H. simpl in H.
    destruct vElse as [y|]; [|done].
    assert (chained j u p (pointTo (length (vs w)) x) (vs w ++ [v]) !! j
            = Some (set_VIf u (Some (VIf.AddElseIf p (pointTo (length (vs w)) x))))) as Hu2.
    { apply list_lookup_insert_eq. by eapply lookup_lt_Some. }
    by rewrite (LifterFacts.addElseIfAt_ok j _ y _ _ _ Hu2 eq_refl) in H.
  - destruct vElse as [y|]; [|done].
    destruct cur1 as [j|] eqn:Hc; [|right; simpl in H; by simplify_eq].
    destruct (H1 j eq_refl) as (u & p & Hu & Hp).
    by rewrite (LifterFacts.addElseIfAt_ok j _ y _ u p Hu Hp) in H.
Qed.

Lemma linkElse_length i v vElse vElseIf w w' :
  linkElse i v vElse vElseIf w = Ok w' → length (vs w') = S (length (vs w)).
Proof.
  intros H%(linkElse_fmap shape); [|done].
  apply (f_equal length) in H. rewrite length_app, !length_fmap in H. simpl in H. lia.
Qed.

Lemma parseSiblings_err es w msg :
  Forall (λ e, ∀ msg, parseNode e = Err msg → msg ∈ lifterPanics) es →
  cursor_ok w →
  parseSiblings parseNode es (length (vs w)) w = Err msg →
  msg ∈ lifterPanics.
Proof.
  intros Hes. revert w. induction Hes as [|e es He _ IH]; intros w Hok H; [done|].
  simpl in H. unfold rbind in H.
  destruct (parseNode e) as [[b v]|] eqn:Hn; [|simplify_eq; by apply He].
  destruct (linkElse _ v (vElse b) (vElseIf b) w) as [w'|] eqn:Hl.
  - apply (IH w').
    + by eapply LifterFacts.cursor_ok_preserved.
    + by rewrite (linkElse_length _ _ _ _ _ _ Hl).
  - simplify_eq. unfold lifterPanics.
    destruct (linkElse_err _ _ _ _ _ Hok Hl) as [-> | ->]; set_solver.
Qed.

Lemma parseNode_err e :
  ∀ msg, parseNode e = Err msg → msg ∈ lifterPanics.
Proof.
  induction e as [e IH] using Element_tree_ind. intros msg.
  destruct e as [text tag attrs children root]. simpl in *. unfold rbind.
  destruct (classifyAttrs emptyBuckets attrs) as [b|] eqn:Ha.
  - destruct (parseSiblings parseNode children 0 _) as [ch|] eqn:Hc; [done|].
    intros [= <-].
    by apply (parseSiblings_err children {| vs := []; ifVueEle := None |} _ IH cursor_ok_init).
  - intros [= <-]. apply classifyAttrs_err in Ha as ->. unfold lifterPanics. set_solver.
Qed.

(** The lifter has three panics and no other: the index error of a [v-for]
    operand without [ in ], and the two complaints about an else without a
    [v-if] before it.  In particular the chain is never extended through a
    nil pointer. *)
Theorem parseList_panics (es : list Element.t) (msg : string) :
  parseList es = Err msg →
  msg = "index out of range [1] with length 1"
  ∨ msg = "v-else-if must below v-if"
  ∨ msg = "v-else must below v-if".
Proof.
  intros H.
  assert (msg ∈ lifterPanics) as Hm.
  { apply (parseSiblings_err es {| vs := []; ifVueEle := None |}); [|apply cursor_ok_init|done].
    apply Forall_forall. intros e _. apply parseNode_err. }
  unfold lifterPanics in Hm. rewrite !elem_of_cons, elem_of_nil in Hm. tauto.
Qed.

Lemma parseList_panics_witness :
  parseList [tag "p" [attr "v-for" "x of xs"]] = Err "index out of range [1] with length 1".
Proof.
  destruct (parseList [tag "p" [attr "v-for" "x of xs"]]) as [l|msg] eqn:H;
    [vm_compute in H; discriminate|].
  destruct (parseList_panics _ _ H) as [-> | [-> | ->]];
    [done|vm_compute in H; discriminate..].
Defined.

End LifterWalk.

(** ** Else nodes and the chains that point to them *)

Module LifterLinks.
Import Lifter.

Lemma linkedTo_app l v k t : linkedTo l k t → linkedTo (l ++ [v]) k t.
Proof.
  intros (u & p & x & Hu & Hp & Hx & Ht). exists u, p, x.
  split; [by apply lookup_app_l_Some|done].
Qed.

Lemma linkedTo_chained_mono l j u p x k t :
  l !! j = Some u → VIf u = Some p →
  linkedTo l k t → linkedTo (chained j u p x l) k t.
Proof.
  intros Hu Hp (u0 & p0 & x0 & Hu0 & Hp0 & Hx0 & Ht). unfold chained.
  destruct (decide (k = j)) as [->|Hne].
  - simplify_eq. eexists _, _, x0. split.
    { apply list_lookup_insert_eq. by eapply lookup_lt_Some. }
    split; [done|]. split; [|done]. simpl. apply elem_of_app. by left.
  - exists u0, p0, x0. by rewrite list_lookup_insert_ne.
Qed.

Lemma linkedTo_chained_new l j u p x i :
  l !! j = Some u → linkedTo (chained j u p (pointTo i x) l) j i.
Proof.
  intros Hu. unfold chained. eexists _, _, (pointTo i x). split.
  { apply list_lookup_insert_eq. by eapply lookup_lt_Some. }
  split; [done|]. split; [|done]. simpl. apply elem_of_app. right. by apply list_elem_of_singleton.
Qed.

Lemma linkElse_links i v vElse vElseIf w w' :
  linkElse i v vElse vElseIf w = Ok w' →
  (∀ k t, linkedTo (vs w ++ [v]) k t → linkedTo (vs w') k t)
  ∧ ((vElse ≠ None ∨ vElseIf ≠ None) → ∃ j, linkedTo (vs w') j i).
Proof.
  unfold linkElse. set (cur1 := if bool_decide (VIf v ≠ None) then _ else _).
  intros H. destruct vElseIf as [x|]; simpl in H.
  - destruct cur1 as [j|]; [|done].
    destruct (addElseIfAt j i x (vs w ++ [v])) as [vs2|] eqn:H2; [|done]. simpl in H.
    apply LifterWalk.addElseIfAt_inv in H2 as (u & p & Hu & Hp & ->).
    destruct vElse as [y|].
    + destruct (addElseIfAt j i y _) as [vs3|] eqn:H3; [|done]. simpl in H. simplify_eq.
      apply LifterWalk.addElseIfAt_inv in H3 as (u2 & p2 & Hu2 & Hp2 & ->). simpl. split.
      * intros k t Hk. apply linkedTo_chained_mono; [done..|].
        by apply linkedTo_chained_mono.
      * intros _. exists j. apply linkedTo_chained_mono; [done..|].
        by apply linkedTo_chained_new.
    + simplify_eq. simpl. split.
      * intros k t Hk. by apply linkedTo_chained_mono.
      * intros _. exists j. by apply linkedTo_chained_new.
  - destruct vElse as [y|].
    + destruct cur1 as [j|]; [|done].
      destruct (addElseIfAt j i y (vs w ++ [v])) as [vs3|] eqn:H3; [|done]. simpl in H.
      simplify_eq. apply LifterWalk.addElseIfAt_inv in H3 as (u & p & Hu & Hp & ->).
      simpl. split.
      * intros k t Hk. by apply linkedTo_chained_mono.
      * intros _. exists j. by apply linkedTo_chained_new.
    + simplify_eq. simpl. split; [done|]. by intros [?|?].
Qed.

Lemma linkElse_linked v vElse vElseIf w w' :
  linkedElse (vs w) →
  VElse v = bool_decide (vElse ≠ None) →
  VElseIf v = bool_decide (vElseIf ≠ None) →
  linkElse (length (vs w)) v vElse vElseIf w = Ok w' →
  linkedElse (vs w').
Proof.
  intros Hl He Hei H.
  pose proof (LifterWalk.linkElse_fmap elseMarks _ _ _ _ _ _ (λ _ _, eq_refl) H) as Hmarks.
  destruct (linkElse_links _ _ _ _ _ _ H) as [Hmono Hnew].
  intros i v0 Hv0 Hflag.
  assert ((elseMarks <$> vs w') !! i = Some (elseMarks v0)) as Hm
    by by rewrite list_lookup_fmap, Hv0.
  rewrite Hmarks in Hm. apply lookup_app_Some in Hm as [Hm|[Hlen Hm]].
  - apply list_lookup_fmap_Some in Hm as (v1 & Hm1 & Hv1).
    destruct (Hl i v1 Hv1) as [j Hj].
    { unfold elseMarks in Hm1. injection Hm1 as E1 E2. by rewrite <- E1, <- E2. }
    exists j. by apply Hmono, linkedTo_app.
  - rewrite length_fmap in Hlen, Hm.
    destruct (i - length (vs w)) as [|n] eqn:Hn; [|done]. simpl in Hm.
    assert (i = length (vs w)) as -> by lia.
    apply Hnew. unfold elseMarks in Hm. injection Hm as E1 E2.
    rewrite <- E1, <- E2, He, Hei in Hflag. apply orb_true_iff in Hflag as [Hf|Hf].
    + left. by apply bool_decide_eq_true in Hf.
    + right. by apply bool_decide_eq_true in Hf.
Qed.

Lemma parseSiblings_linked es w l :
  cursor_ok w → linkedElse (vs w) →
  parseSiblings parseNode es (length (vs w)) w = Ok l →
  linkedElse l.
Proof.
  revert w. induction es as [|e es IH]; intros w Hok Hl H.
  - simpl in H. by simplify_eq.
  - simpl in H. unfold rbind in H.
    destruct (parseNode e) as [[b v]|] eqn:He; [|done].
    destruct (linkElse _ v (vElse b) (vElseIf b) w) as [w'|] eqn:Hk; [|done].
    apply LifterWalk.parseNode_result in He as (_ & _ & Hve & Hvei).
    apply (IH w').
    + by eapply LifterFacts.cursor_ok_preserved.
    + by eapply linkElse_linked.
    + by rewrite (LifterWalk.linkElse_length _ _ _ _ _ _ Hk).
Qed.

(** No else node gets lost: in what [parseList] returns, every element
    marked [VElse] or [VElseIf] is the target of an entry in the chain of
    some [v-if] element of the same level. *)
Theorem parseList_else_linked (es : list Element.t) (l : list VueElement) :
  parseList es = Ok l →
  ∀ i v, l !! i = Some v → VElse v || VElseIf v = true →
    ∃ j u p x, l !! j = Some u ∧ VIf u = Some p
               ∧ x ∈ VIf.ElseIf p ∧ ElseIf.VueElement x = Some i.
Proof.
  intros H i v Hv Hflag.
  assert (linkedElse l) as Hl.
  { apply (parseSiblings_linked es {| vs := []; ifVueEle := None |});
      [apply LifterWalk.cursor_ok_init| |done].
    by intros k u. }
  destruct (Hl i v Hv Hflag) as (j & u & p & x & ?). by exists j, u, p, x.
Qed.

Lemma parseList_else_linked_witness :
  ∃ l, parseList [tag "p" [attr "v-if" "a"]; tag "q" [attr "v-else" EmptyString]] = Ok l
       ∧ ∃ j u p x, l !! j = Some u ∧ VIf u = Some p
                    ∧ x ∈ VIf.ElseIf p ∧ ElseIf.VueElement x = Some 1.
Proof.
  destruct (parseList [tag "p" [attr "v-if" "a"]; tag "q" [attr "v-else" EmptyString]])
    as [l|] eqn:H; [|vm_compute in H; discriminate].
  exists l. split; [done|].
  assert (∃ v, l !! 1 = Some v ∧ VElse v || VElseIf v = true) as (v & Hv & Hf).
  { vm_compute in H. simplify_eq. by eexists. }
  exact (parseList_else_linked _ _ H 1 v Hv Hf).
Defined.

End LifterLinks.

(** ** What [GenCode] does to the store *)

Lemma onlyDrops_refl h : onlyDrops h h.
Proof. intros l. destruct (h !! l); [|done]. intros k. by left. Qed.

Lemma onlyDrops_trans h1 h2 h3 : onlyDrops h1 h2 → onlyDrops h2 h3 → onlyDrops h1 h3.
Proof.
  intros H12 H23 l. specialize (H12 l). specialize (H23 l).
  destruct (h1 !! l) as [p1|], (h2 !! l) as [p2|], (h3 !! l) as [p3|]; try done.
  intros k. destruct (H23 k) as [E|[Hk E]]; [|by right].
  rewrite E. apply H12.
Qed.

Lemma frames_ret {A} (a : A) : frames (gret a).
Proof. intros σ a' σ' [= <- <-]. apply onlyDrops_refl. Qed.

Lemma frames_bind {A B} (m : Gen A) (f : A → Gen B) :
  frames m → (∀ a, frames (f a)) → frames (gbind m f).
Proof.
  intros Hm Hf σ b σ'. unfold gbind.
  destruct (m σ) as [[a σ1]|] eqn:H1; [|done]. intros H2.
  eapply onlyDrops_trans; [by eapply Hm|by eapply Hf].
Qed.

Lemma frames_lift {A} (r : Result A) : frames (lift r).
Proof. intros σ a σ'. unfold lift. destruct r; [|done]. intros [= <- <-]. apply onlyDrops_refl. Qed.

Lemma frames_loadProps l : frames (loadProps l).
Proof. intros σ a σ' [= <- <-]. apply onlyDrops_refl. Qed.

Lemma frames_rangeMap ro m : frames (rangeMap ro m).
Proof. intros σ a σ' [= <- <-]. apply onlyDrops_refl. Qed.

Lemma frames_deleteKey l key :
  key = "class" ∨ key = "style" → frames (deleteKey l key).
Proof.
  intros Hkey σ a σ' [= <- <-]. simpl. intros l'.
  destruct (decide (l' = l)) as [->|Hne].
  - rewrite lookup_alter_eq. destruct (heap σ !! l) as [p|]; [|done]. simpl.
    intros k. destruct (decide (k = key)) as [->|Hk].
    + right. split; [done|]. apply lookup_delete_eq.
    + left. by apply lookup_delete_ne.
  - rewrite lookup_alter_ne by done. destruct (heap σ !! l'); [|done]. intros k. by left.
Qed.

Section Frame.

Context (rangeOrder : nat → list (string * string) → list (string * string))
        (Js2Go : string → string → Result string)
        (getPropsClass getPropsStyle : Props.t → Result string)
        (genAttrCode : VueElement → Props.t → Result string).

Local Abbreviation GenCode := (GenCode rangeOrder Js2Go getPropsClass getPropsStyle genAttrCode).
Local Abbreviation genElement := (genElement rangeOrder Js2Go getPropsClass getPropsStyle genAttrCode).
Local Abbreviation ToGoCode := (ToGoCode rangeOrder Js2Go getPropsClass getPropsStyle).
Local Abbreviation propsCode := (propsCode rangeOrder Js2Go getPropsClass getPropsStyle).

Ltac frames_step :=
  first
    [ apply frames_ret
    | apply frames_lift
    | apply frames_loadProps
    | apply frames_rangeMap
    | apply frames_deleteKey; by auto
    | apply frames_bind; [|intros ?]
    | case_bool_decide ].

Lemma frames_mapStringToGoCode m : frames (mapStringToGoCode rangeOrder m).
Proof. unfold mapStringToGoCode. repeat frames_step. Qed.

Lemma frames_mapGoCodeToCode m vt : frames (mapGoCodeToCode rangeOrder m vt).
Proof. unfold mapGoCodeToCode. repeat frames_step. Qed.

Lemma frames_mapJsCodeToCode m : frames (mapJsCodeToCode rangeOrder Js2Go m).
Proof. unfold mapJsCodeToCode. repeat frames_step. Qed.

Lemma frames_propsCode o c : frames (propsCode o c).
Proof.
  unfold propsCode.
  repeat first [apply frames_mapJsCodeToCode | frames_step].
Qed.

Lemma frames_ToGoCode o : frames (ToGoCode o).
Proof.
  unfold ToGoCode.
  repeat first
    [ apply frames_propsCode | apply frames_mapStringToGoCode
    | apply frames_mapGoCodeToCode | frames_step ].
Qed.

Lemma frames_genElement e app d n : frames (genElement e app d n).
Proof.
  unfold genElement.
  case_bool_decide.
  { apply frames_bind; [apply frames_ToGoCode|]. intros oc. apply frames_ret. }
  case_bool_decide; [apply frames_ret|].
  case_bool_decide.
  { apply frames_bind; [apply frames_lift|]. intros t. apply frames_ret. }
  destruct (IsRoot e || bool_decide (length (Directives e) ≠ 0)).
  { apply frames_bind; [apply frames_ToGoCode|]. intros oc. apply frames_ret. }
  apply frames_bind; [apply frames_loadProps|]. intros p.
  apply frames_bind; [apply frames_lift|]. intros attrs. apply frames_ret.
Qed.

Lemma frames_genChildren gen (cs : list VueElement) d n :
  Forall (λ v, frames (gen v)) cs → frames (genChildren gen cs d n).
Proof.
  intros Hcs. revert d n. induction Hcs as [|v cs Hv _ IH]; intros d n.
  - apply frames_ret.
  - simpl. destruct (VElse v || VElseIf v); [apply IH|].
    apply frames_bind; [done|]. intros [c nc]. apply IH.
Qed.

Lemma frames_genElseChain gen (chain : list (ElseIf.t VueElement)) code n :
  Forall (λ x, frames (gen (ElseIf.VueElement x))) chain →
  frames (genElseChain Js2Go gen chain code n).
Proof.
  intros Hch. revert code n. induction Hch as [|x chain Hx _ IH]; intros code n.
  - apply frames_ret.
  - simpl. apply frames_bind; [done|]. intros [c nc].
    apply frames_bind; [|intros ?; apply IH].
    repeat frames_step.
Qed.

Lemma frames_GenCode (app : App) (e : VueElement) : frames (GenCode e app).
Proof.
  induction e as [e IHc IHv] using VueElement_tree_ind.
  rewrite GenCode_unfold.
  apply frames_bind; [by apply frames_genChildren|]. intros [d n].
  apply frames_bind; [apply frames_genElement|]. intros c. cbv zeta.
  destruct (decorateSlot e (decorateFor e c) n) as [c1 n1].
  revert IHv. destruct (VIf e) as [vi|]; intros IHv; [|apply frames_ret].
  apply frames_bind; [|intros [c2 n2]; apply frames_ret].
  unfold genVIf_with. apply frames_bind; [apply frames_lift|]. intros cond.
  apply frames_bind; [by apply frames_genElseChain|]. intros [c3 n3]. apply frames_ret.
Qed.

(** [GenCode] leaves the store as it is but for the keys [class] and
    [style], which it may delete: no address comes or goes, no entry is
    added or changed, no other key is deleted. *)
Theorem GenCode_frame (e : VueElement) (app : App) (σ σ' : Machine)
    (r : string * gmap string string) :
  GenCode e app σ = Ok (r, σ') →
  ∀ l, match heap σ !! l, heap σ' !! l with
       | Some p, Some p' =>
           ∀ k, p' !! k = p !! k ∨ ((k = "class" ∨ k = "style") ∧ p' !! k = None)
       | None, None => True
       | _, _ => False
       end.
Proof. intros H. exact (frames_GenCode app e σ r σ' H). Qed.

End Frame.

Lemma GenCode_frame_witness :
  let e := element "comp" 1%positive in
  let app := Component NewApp "comp" in
  let h : gmap loc (gmap string string) :=
    {[ 1%positive := {[ "class" := "cls"; "title" := "t" ]} ]} in
  match GenCode_run canonicalOrder e app (start h) with
  | Ok (_, σ') =>
      match heap σ' !! 1%positive with
      | Some p' => p' !! "title" = Some "t"
      | None => False
      end
  | Err _ => False
  end.
Proof.
  intros e app h. unfold GenCode_run.
  destruct (GenCode _ _ _ _ _ e app (start h)) as [[r σ']|] eqn:H;
    [|vm_compute in H; discriminate].
  pose proof (GenCode_frame _ _ _ _ _ e app (start h) σ' r H 1%positive) as Hf.
  change (heap (start h)) with h in Hf. unfold h in Hf.
  rewrite lookup_singleton_eq in Hf. clear H.
  assert (∀ o : option (gmap string string),
            match o with
            | Some p' =>
                ∀ k, p' !! k = ({[ "class" := "cls"; "title" := "t" ]} : gmap string string) !! k
                     ∨ ((k = "class" ∨ k = "style") ∧ p' !! k = None)
            | None => False
            end →
            match o with
            | Some p' => p' !! "title" = Some "t"
            | None => False
            end) as Hgen.
  { intros [p'|] Ho; [|exact Ho].
    destruct (Ho "title") as [->|[[?|?] _]]; [vm_compute; reflexivity|discriminate..]. }
  exact (Hgen _ Hf).
Defined.

(** ** The loop over the children *)

(** Else nodes are passed over: the loop does on the children what it does
    on the children that are not else nodes. *)
Theorem genChildren_skips_else gen (cs : list VueElement) (d : string)
    (n : gmap string string) (σ : Machine) :
  genChildren gen cs d n σ
  = genChildren gen (filter (λ v, VElse v || VElseIf v = false) cs) d n σ.
Proof.
  revert d n σ. induction cs as [|v cs IH]; intros d n σ; [done|].
  destruct (VElse v || VElseIf v) eqn:Hv.
  - rewrite filter_cons_False by by rewrite Hv. simpl. rewrite Hv. apply IH.
  - rewrite filter_cons_True by done. simpl. rewrite Hv. unfold gbind.
    destruct (gen v σ) as [[[c nc] σ1]|]; [|done]. apply IH.
Qed.

(** The loop over a list of children in two parts: the second part goes on
    from the code, the named slots and the state the first part ends with. *)
Theorem genChildren_app gen (cs1 cs2 : list VueElement) (d : string)
    (n : gmap string string) (σ : Machine) :
  genChildren gen (cs1 ++ cs2) d n σ
  = match genChildren gen cs1 d n σ with
    | Ok ((d1, n1), σ1) => genChildren gen cs2 d1 n1 σ1
    | Err msg => Err msg
    end.
Proof.
  revert d n σ. induction cs1 as [|v cs1 IH]; intros d n σ; [done|].
  simpl. destruct (VElse v || VElseIf v); [apply IH|].
  unfold gbind. destruct (gen v σ) as [[[c nc] σ1]|]; [|done]. apply IH.
Qed.

(** ** The keys of the named-slot map *)

Lemma slotNames_unfold (e : VueElement) :
  slotNames e
  = match VSlot e with Some s => {[ VSlot.SlotName s ]} | None => ∅ end
    ∪ ⋃ (slotNames <$> Children e)
    ∪ match VIf e with
      | Some vi => ⋃ ((λ x, slotNames (ElseIf.VueElement x)) <$> VIf.ElseIf vi)
      | None => ∅
      end.
Proof. by destruct e. Qed.

Section SlotNames.

Context (rangeOrder : nat → list (string * string) → list (string * string))
        (Js2Go : string → string → Result string)
        (getPropsClass getPropsStyle : Props.t → Result string)
        (genAttrCode : VueElement → Props.t → Result string).

Local Abbreviation GenCode := (GenCode rangeOrder Js2Go getPropsClass getPropsStyle genAttrCode).
Local Abbreviation genBody := (genBody rangeOrder Js2Go getPropsClass getPropsStyle genAttrCode).
Local Abbreviation genVIf := (genVIf rangeOrder Js2Go getPropsClass getPropsStyle genAttrCode).
Local Abbreviation genElement := (genElement rangeOrder Js2Go getPropsClass getPropsStyle genAttrCode).

Lemma genChildren_dom gen (cs : list VueElement) d n σ d' n' σ' (X : gset string) :
  Forall (λ v, ∀ σ r, gen v σ = Ok r → dom r.1.2 ⊆ slotNames v) cs →
  dom n ⊆ X →
  genChildren gen cs d n σ = Ok ((d', n'), σ') →
  dom n' ⊆ X ∪ ⋃ (slotNames <$> cs).
Proof.
  intros Hcs. revert d n σ X. induction Hcs as [|v cs Hv _ IH]; intros d n σ X Hn H.
  - simpl in H. unfold gret in H. simplify_eq. set_solver.
  - simpl in H. destruct (VElse v || VElseIf v).
    + eapply IH in H; [|done]. set_solver.
    + unfold gbind in H. destruct (gen v σ) as [[[c nc] σ1]|] eqn:Hg; [|done].
      apply Hv in Hg. simpl in Hg.
      eapply (IH _ _ _ (X ∪ slotNames v)) in H.
      * set_solver.
      * rewrite dom_union_L. set_solver.
Qed.

Lemma genElseChain_dom gen (chain : list (ElseIf.t VueElement)) code n σ code' n' σ'
    (X : gset string) :
  Forall (λ x, ∀ σ r, gen (ElseIf.VueElement x) σ = Ok r
                      → dom r.1.2 ⊆ slotNames (ElseIf.VueElement x)) chain →
  dom n ⊆ X →
  genElseChain Js2Go gen chain code n σ = Ok ((code', n'), σ') →
  dom n' ⊆ X ∪ ⋃ ((λ x, slotNames (ElseIf.VueElement x)) <$> chain).
Proof.
  intros Hch. revert code n σ X. induction Hch as [|x chain Hx _ IH]; intros code n σ X Hn H.
  - simpl in H. unfold gret in H. simplify_eq. set_solver.
  - simpl in H. unfold gbind in H.
    destruct (gen (ElseIf.VueElement x) σ) as [[[c nc] σ1]|] eqn:Hg; [|done].
    apply Hx in Hg. simpl in Hg.
    assert (dom (nc ∪ n) ⊆ X ∪ slotNames (ElseIf.VueElement x)) as Hu.
    { rewrite dom_union_L. set_solver. }
    assert (∀ code2 σ2, genElseChain Js2Go gen chain code2 (nc ∪ n) σ2 = Ok (code', n', σ') →
              dom n' ⊆ X ∪ ⋃ ((λ x, slotNames (ElseIf.VueElement x)) <$> x :: chain)) as Hrest.
    { intros code2 σ2 H2. eapply IH in H2; [|exact Hu]. set_solver. }
    case_bool_decide.
    + unfold gret in H. by eapply Hrest.
    + case_bool_decide.
      * unfold lift, gret in H. destruct (Js2Go _ _); [|done]. by eapply Hrest.
      * unfold gret in H. by eapply Hrest.
Qed.

Lemma GenCode_dom (app : App) (e : VueElement) :
  ∀ σ r, GenCode e app σ = Ok r → dom r.1.2 ⊆ slotNames e.
Proof.
  induction e as [e IHc IHv] using VueElement_tree_ind. intros σ r.
  rewrite GenCode_decorate, slotNames_unfold.
  destruct (genBody e app σ) as [[[body ns] σ1]|] eqn:Hb; [|done].
  assert (dom ns ⊆ ⋃ (slotNames <$> Children e)) as Hns.
  { unfold genBody, gbind in Hb.
    destruct (genChildren _ _ _ _ σ) as [[[d n] σ0]|] eqn:Hc; [|done].
    eapply (genChildren_dom _ _ _ _ _ _ _ _ ∅) in Hc; [|done|set_solver].
    destruct (genElement _ _ _ _ σ0) as [[c σ2]|]; [|done].
    unfold gret in Hb. simplify_eq. set_solver. }
  assert (dom (decorateSlot e (decorateFor e body) ns).2
          ⊆ match VSlot e with Some s => {[ VSlot.SlotName s ]} | None => ∅ end
            ∪ ⋃ (slotNames <$> Children e)) as Hds.
  { unfold decorateSlot. destruct (VSlot e) as [s|]; simpl; [|set_solver].
    rewrite dom_union_L, dom_singleton_L. set_solver. }
  destruct (decorateSlot e (decorateFor e body) ns) as [c n]. simpl in Hds.
  revert IHv. destruct (VIf e) as [vi|]; intros IHv.
  - destruct (genVIf vi c app σ1) as [[[c' n2] σ2]|] eqn:Hv; [|done].
    intros ?; simplify_eq. simpl.
    unfold genVIf, genVIf_with, gbind, lift, gret in Hv.
    destruct (Js2Go _ _); [|done].
    destruct (genElseChain _ _ _ _ _ σ1) as [[[c2 n3] σ3]|] eqn:Hc; [|done].
    simplify_eq.
    eapply (genElseChain_dom _ _ _ _ _ _ _ _ ∅) in Hc; [|done|set_solver].
    rewrite dom_union_L. set_solver.
  - intros ?; simplify_eq. simpl. set_solver.
Qed.

(** The named slots that [GenCode] returns go by slot names of the tree,
    and each is a closure made by [genVSlot]; a tree without [v-slot]
    returns no named slot. *)
Theorem GenCode_named_slots (e : VueElement) (app : App) (σ σ' : Machine)
    (c : string) (ns : gmap string string) :
  GenCode e app σ = Ok ((c, ns), σ') →
  dom ns ⊆ slotNames e
  ∧ (∀ k v, ns !! k = Some v → ∃ s body, v = slotClosure s body)
  ∧ (slotNames e = ∅ → ns = ∅).
Proof.
  intros H. pose proof (GenCode_dom app e σ _ H) as Hd. simpl in Hd.
  split; [done|]. split.
  - exact (GenCode_closures _ _ _ _ _ app e σ _ H).
  - intros He. apply dom_empty_iff_L. set_solver.
Qed.

End SlotNames.

Lemma GenCode_named_slots_witness :
  let e := withChildren
             [withVSlot (VSlot.Build "hd" "sp") (withText "A" (element "template" 2%positive))]
             (element "comp" 1%positive) in
  match GenCode_run canonicalOrder e (Component NewApp "comp") (start ∅) with
  | Ok ((_, ns), _) => dom ns ⊆ {[ "hd" ]}
  | Err _ => False
  end.
Proof.
  intros e. unfold GenCode_run.
  destruct (GenCode _ _ _ _ _ e (Component NewApp "comp") (start ∅))
    as [[[c ns] σ']|] eqn:H; [|vm_compute in H; discriminate].
  destruct (GenCode_named_slots _ _ _ _ _ e _ _ _ _ _ H) as (Hd & _ & _).
  clear H. rewrite slotNames_unfold in Hd. simpl in Hd. set_solver.
Defined.

(** ** The options literal as a whole *)

Lemma yields_ret {A} (Q : A → Prop) (a : A) : Q a → yields Q (gret a).
Proof. intros Ha σ a' σ' [= <- <-]. done. Qed.

Lemma yields_bind {A B} (P : A → Prop) (Q : B → Prop) (m : Gen A) (f : A → Gen B) :
  yields P m → (∀ a, P a → yields Q (f a)) → yields Q (gbind m f).
Proof.
  intros Hm Hf σ b σ'. unfold gbind.
  destruct (m σ) as [[a σ1]|] eqn:Ha; [|done].
  intros Hb. exact (Hf a (Hm _ _ _ Ha) _ _ _ Hb).
Qed.

Lemma yields_bind_any {A B} (Q : B → Prop) (m : Gen A) (f : A → Gen B) :
  (∀ a, yields Q (f a)) → yields Q (gbind m f).
Proof.
  intros Hf. apply (yields_bind (λ _, True)); [by intros ???|]. intros a _. apply Hf.
Qed.

Lemma extends_refl c : extends c c.
Proof. exists EmptyString. by rewrite app_empty_r. Qed.

Lemma extends_app c r : extends c (c +:+ r).
Proof. by exists r. Qed.

Lemma extends_trans a b c : extends a b → extends b c → extends a c.
Proof. intros [r1 ->] [r2 ->]. exists (r1 +:+ r2). by rewrite app_assoc_s. Qed.

Lemma extends_more a b r : extends a b → extends a (b +:+ r).
Proof. intros H. eapply extends_trans; [done|apply extends_app]. Qed.

Section OptionsShape.

Context (rangeOrder : nat → list (string * string) → list (string * string))
        (Js2Go : string → string → Result string)
        (getPropsClass getPropsStyle : Props.t → Result string)
        (genAttrCode : VueElement → Props.t → Result string).

Local Abbreviation GenCode := (GenCode rangeOrder Js2Go getPropsClass getPropsStyle genAttrCode).
Local Abbreviation genBody := (genBody rangeOrder Js2Go getPropsClass getPropsStyle genAttrCode).
Local Abbreviation genElement := (genElement rangeOrder Js2Go getPropsClass getPropsStyle genAttrCode).
Local Abbreviation ToGoCode := (ToGoCode rangeOrder Js2Go getPropsClass getPropsStyle).
Local Abbreviation propsCode := (propsCode rangeOrder Js2Go getPropsClass getPropsStyle).

(** A field that is written under a condition comes after what is there. *)
Lemma field_extends (b : bool) (M : Gen string) (F : string → string) c0 c :
  extends c0 c →
  yields (extends c0) (if b then gbind M (λ m, gret (c +:+ F m)) else gret c).
Proof.
  intros Hc. destruct b.
  - apply yields_bind_any. intros m. apply yields_ret. by apply extends_more.
  - by apply yields_ret.
Qed.

Lemma propsCode_extends o c : yields (extends c) (propsCode o c).
Proof.
  unfold propsCode.
  apply yields_bind_any. intros p.
  case_bool_decide; [|apply yields_ret, extends_refl].
  apply yields_bind_any. intros cCode.
  apply (yields_bind (extends c)).
  { case_bool_decide; [|apply yields_ret, extends_refl].
    apply yields_bind_any. intros _. apply yields_ret. rewrite <- !app_assoc_s.
    apply extends_more, extends_more, extends_more, extends_app. }
  intros c1 H1.
  apply yields_bind_any. intros p1.
  apply yields_bind_any. intros cStyle.
  apply (yields_bind (extends c)).
  { case_bool_decide; [|by apply yields_ret].
    apply yields_bind_any. intros _. apply yields_ret. rewrite <- !app_assoc_s.
    by do 4 apply extends_more. }
  intros c2 H2.
  apply yields_bind_any. intros p2.
  case_bool_decide; [|by apply yields_ret].
  apply yields_bind_any. intros m. apply yields_ret. rewrite <- !app_assoc_s.
  by do 4 apply extends_more.
Qed.

(** Every options literal opens with [&Options{], passes the options of the
    caller on in the field [P], writes the directives after it if there are
    any, and closes. *)
Lemma ToGoCode_shape (o : OptionsGen.t) :
  yields (λ c, ∃ fields dirs,
            c = "&Options{" +:+ fields +:+ "P: options," +:+ nl +:+ dirs +:+ "}"
            ∧ (OptionsGen.Directives o = [] → dirs = EmptyString))
         (ToGoCode o).
Proof.
  unfold ToGoCode.
  eapply yields_bind; [apply propsCode_extends|]. intros c1 H1.
  eapply yields_bind.
  { apply (field_extends _ _ (λ m, "Attrs: " +:+ m +:+ "," +:+ nl)), H1. }
  intros c2 H2.
  eapply yields_bind.
  { apply (field_extends _ _ (λ m, "Style: " +:+ m +:+ "," +:+ nl)).
    instantiate (1 := "&Options{").
    case_bool_decide; [|done]. rewrite <- !app_assoc_s. by do 4 apply extends_more. }
  intros c3 H3.
  apply yields_bind_any. intros m.
  set (c4 := if bool_decide (length (OptionsGen.StyleKeys o) ≠ 0) then _ else c3).
  assert (extends "&Options{" c4) as [r4 Hr4].
  { unfold c4. case_bool_decide; [|done]. rewrite <- !app_assoc_s. by do 4 apply extends_more. }
  rewrite Hr4. clear Hr4 c4.
  cbv zeta.
  apply (yields_bind (λ c5, ∃ dirs,
           c5 = ("&Options{" +:+ r4) +:+ "Slot: " +:+ m +:+ "," +:+ nl
                +:+ "P: options," +:+ nl +:+ dirs
           ∧ (OptionsGen.Directives o = [] → dirs = EmptyString))).
  - case_bool_decide as Hd.
    + apply yields_bind_any. intros dir. apply yields_ret.
      eexists. split; [by rewrite !app_assoc_s|].
      intros Hnil. by rewrite Hnil in Hd.
    + apply yields_ret. exists EmptyString.
      split; [by rewrite !app_assoc_s, !app_empty_r|done].
  - intros c5 (dirs & -> & Hdirs). apply yields_ret.
    exists (r4 +:+ "Slot: " +:+ m +:+ "," +:+ nl), dirs.
    split; [by rewrite !app_assoc_s|done].
Qed.

(** A tag that is registered as a component is rendered as a call of the
    component function on an options literal, whatever the tag is
    ([template] and [__string] included); an element that is the root or has
    directives, as a call of [r.Tag]. *)
Lemma genElement_calls (e : VueElement) (app : App) d n :
  yields (λ c,
    (TagName e ∈ Components app →
       ∃ fields dirs,
         c = "r.Component_" +:+ TagName e +:+ "(&Options{" +:+ fields
             +:+ "P: options," +:+ nl +:+ dirs +:+ "})"
         ∧ (Directives e = [] → dirs = EmptyString))
    ∧ (TagName e ∉ Components app → TagName e ≠ "template" → TagName e ≠ "__string" →
       IsRoot e = true ∨ Directives e ≠ [] →
       ∃ fields dirs,
         c = "r.Tag(" +:+ dq +:+ TagName e +:+ dq +:+ ", " +:+ boolToStr (IsRoot e)
             +:+ ", &Options{" +:+ fields +:+ "P: options," +:+ nl +:+ dirs +:+ "})"
         ∧ (Directives e = [] → dirs = EmptyString)))
    (genElement e app d n).
Proof.
  unfold genElement. case_bool_decide as Hc.
  { eapply yields_bind; [apply ToGoCode_shape|].
    intros oc (fields & dirs & -> & Hd). apply yields_ret. split; [|done].
    intros _. exists fields, dirs. split; [by rewrite !app_assoc_s|exact Hd]. }
  case_bool_decide as Ht.
  { apply yields_ret. split; [done|]. by intros _ ?. }
  case_bool_decide as Hs.
  { apply yields_bind_any. intros t. apply yields_ret. split; [done|]. by intros _ _ ?. }
  destruct (IsRoot e || bool_decide (length (Directives e) ≠ 0)) eqn:Hr.
  { eapply yields_bind; [apply ToGoCode_shape|].
    intros oc (fields & dirs & -> & Hd). apply yields_ret. split; [done|].
    intros _ _ _ _. exists fields, dirs. split; [by rewrite !app_assoc_s|exact Hd]. }
  apply yields_bind_any. intros p. apply yields_bind_any. intros a. apply yields_ret.
  split; [done|]. intros _ _ _ [Hroot|Hdir].
  - by rewrite Hroot in Hr.
  - apply orb_false_iff in Hr as [_ Hr]. apply bool_decide_eq_false in Hr.
    destruct (Directives e); [done|]. simpl in Hr. lia.
Qed.

(** An element without [v-for], [v-slot] and [v-if] returns the code of
    [genElement] as it is. *)
Lemma GenCode_plain (e : VueElement) (app : App) σ c ns σ' :
  VFor e = None → VSlot e = None → VIf e = None →
  GenCode e app σ = Ok ((c, ns), σ') →
  ∃ d n σ0, genElement e app d n σ0 = Ok (c, σ').
Proof.
  intros Hf Hs Hi. rewrite GenCode_unfold. unfold gbind at 1.
  destruct (genChildren _ _ _ _ σ) as [[[d n] σ0]|]; [|done].
  cbv zeta. unfold gbind at 1.
  match goal with
  | |- match ?x with _ => _ end = _ → _ => destruct x as [[c1 σ1]|] eqn:He; [|done]
  end.
  unfold decorateFor, decorateSlot. rewrite Hf, Hs, Hi. unfold gret.
  intros [= <- <- <-]. eauto.
Qed.

(** A tag registered with the application is rendered as a call of its
    component function on one options literal; the literal forwards the
    options of the caller in [P], and has a directives field only if the
    element has directives.  This holds for every tag name, [template] and
    [__string] included. *)
Theorem component_call_code (e : VueElement) (app : App) σ c ns σ' :
  TagName e ∈ Components app →
  VFor e = None → VSlot e = None → VIf e = None →
  GenCode e app σ = Ok ((c, ns), σ') →
  ∃ fields dirs,
    c = "r.Component_" +:+ TagName e +:+ "(&Options{" +:+ fields
        +:+ "P: options," +:+ nl +:+ dirs +:+ "})"
    ∧ (Directives e = [] → dirs = EmptyString).
Proof.
  intros Hc Hf Hs Hi H.
  destruct (GenCode_plain _ _ _ _ _ _ Hf Hs Hi H) as (d & n & σ0 & He).
  apply genElement_calls in He as [He _]. by apply He.
Qed.

(** An html tag that is the root of its component, or has a custom
    directive, is rendered as a call of [r.Tag] with the tag name, the root
    flag and one options literal. *)
Theorem dynamic_tag_code (e : VueElement) (app : App) σ c ns σ' :
  TagName e ∉ Components app → TagName e ≠ "template" → TagName e ≠ "__string" →
  IsRoot e = true ∨ Directives e ≠ [] →
  VFor e = None → VSlot e = None → VIf e = None →
  GenCode e app σ = Ok ((c, ns), σ') →
  ∃ fields dirs,
    c = "r.Tag(" +:+ dq +:+ TagName e +:+ dq +:+ ", " +:+ boolToStr (IsRoot e)
        +:+ ", &Options{" +:+ fields +:+ "P: options," +:+ nl +:+ dirs +:+ "})"
    ∧ (Directives e = [] → dirs = EmptyString).
Proof.
  intros Hc Ht Hstr Hdyn Hf Hs Hi H.
  destruct (GenCode_plain _ _ _ _ _ _ Hf Hs Hi H) as (d & n & σ0 & He).
  apply genElement_calls in He as [_ He]. by apply He.
Qed.

End OptionsShape.

Lemma component_call_code_witness :
  let e := withChildren [withText "A" (element "__string" 2%positive)]
             (element "slot" 1%positive) in
  match GenCode_run canonicalOrder e NewApp (start ∅) with
  | Ok ((c, _), _) =>
      ∃ fields dirs,
        c = "r.Component_slot(&Options{" +:+ fields
            +:+ "P: options," +:+ nl +:+ dirs +:+ "})"
        ∧ dirs = EmptyString
  | Err _ => False
  end.
Proof.
  intros e. unfold GenCode_run.
  destruct (GenCode _ _ _ _ _ e NewApp (start ∅))
    as [[[c ns] σ']|] eqn:H; [|vm_compute in H; discriminate].
  assert ("slot" ∈ Components NewApp) as Hin by (by vm_compute).
  destruct (component_call_code _ _ _ _ _ e NewApp _ _ _ _ Hin eq_refl eq_refl eq_refl H)
    as (fields & dirs & -> & Hd).
  exists fields, dirs. split; [done|]. by apply Hd.
Defined.

Lemma dynamic_tag_code_witness :
  let e := withRoot (element "div" 1%positive) in
  match GenCode_run canonicalOrder e NewApp (start ∅) with
  | Ok ((c, _), _) =>
      ∃ fields dirs,
        c = "r.Tag(" +:+ dq +:+ "div" +:+ dq +:+ ", true, &Options{" +:+ fields
            +:+ "P: options," +:+ nl +:+ dirs +:+ "})"
        ∧ dirs = EmptyString
  | Err _ => False
  end.
Proof.
  intros e. unfold GenCode_run.
  destruct (GenCode _ _ _ _ _ e NewApp (start ∅))
    as [[[c ns] σ']|] eqn:H; [|vm_compute in H; discriminate].
  assert ("div" ∉ Components NewApp) as Hin by (by vm_compute).
  destruct (dynamic_tag_code _ _ _ _ _ e NewApp _ _ _ _ Hin ltac:(done) ltac:(done)
              (or_introl eq_refl) eq_refl eq_refl eq_refl H)
    as (fields & dirs & -> & Hd).
  exists fields, dirs. split; [done|]. by apply Hd.
Defined.

(** ** From the html tree to raw elements *)

Module HtmlFacts.
Import Html.

Section node_induction.

Variable P : Node → Prop.
Hypothesis step : ∀ n, Forall P (Children n) → P n.

Fixpoint Node_tree_ind (n : Node) : P n :=
  step n
    ((fix children (l : list Node) : Forall P l :=
        match l with
        | [] => @List.Forall_nil _ P
        | x :: l' => @List.Forall_cons _ P x l' (Node_tree_ind x) (children l')
        end) (Children n)).

End node_induction.

Lemma reached_iff nodes n :
  reached nodes n ↔ ∃ m, m ∈ nodes ∧ reached [m] n.
Proof.
  split.
  - induction 1 as [n Hn|p n _ (m & Hm & Hp) Hb Hn].
    + exists n. split; [done|]. apply reached_top. set_solver.
    + exists m. split; [done|]. by eapply reached_child.
  - intros (m & Hm & H). induction H as [n Hn|p n _ IH Hb Hn].
    + apply list_elem_of_singleton in Hn as ->. by apply reached_top.
    + by eapply reached_child.
Qed.

Lemma reached_node m n :
  reached [m] n ↔ n = m ∨ (¬ blankText m ∧ reached (Children m) n).
Proof.
  split.
  - induction 1 as [n Hn|p n _ [->|[Hm Hp]] Hb Hn].
    + left. by apply list_elem_of_singleton in Hn.
    + right. split; [done|]. by apply reached_top.
    + right. split; [done|]. by eapply reached_child.
  - intros [->|[Hm H]]; [apply reached_top; set_solver|].
    induction H as [n Hn|p n _ IH Hb Hn].
    + eapply reached_child; [|done..]. apply reached_top. set_solver.
    + by eapply reached_child.
Qed.

Lemma reached_cons m nodes n :
  reached (m :: nodes) n ↔ reached [m] n ∨ reached nodes n.
Proof.
  rewrite (reached_iff (m :: nodes)), (reached_iff nodes). split.
  - intros (x & [->|Hx]%elem_of_cons & H); [by left|right; eauto].
  - intros [H|(x & Hx & H)].
    + exists m. split; [set_solver|done].
    + exists x. split; [set_solver|done].
Qed.

Lemma reached_nil n : ¬ reached [] n.
Proof. intros (m & Hm & _)%reached_iff. set_solver. Qed.

(** The panics of the conversion, node by node. *)
Local Abbreviation panicsRight convert := (λ n : Node,
  (∀ msg, convert n = Err msg → msg = nodePanic)
  ∧ (convert n = Err nodePanic ↔ ∃ x, reached [n] x ∧ ¬ taken x)).

Lemma convertAll_panics nodes :
  Forall (panicsRight convertNode) nodes →
  (∀ msg, convertAll convertNode nodes = Err msg → msg = nodePanic)
  ∧ (convertAll convertNode nodes = Err nodePanic ↔ ∃ x, reached nodes x ∧ ¬ taken x).
Proof.
  induction 1 as [|n nodes [Hn1 Hn2] _ [IH1 IH2]].
  - split; [done|]. split; [done|]. intros (x & Hx & _). by apply reached_nil in Hx.
  - simpl. unfold rbind.
    destruct (convertNode n) as [o|msg0] eqn:Hc.
    + destruct (convertAll convertNode nodes) as [es|msg1] eqn:Hes.
      * split; [done|]. split; [done|].
        intros (x & [Hx|Hx]%reached_cons & Ht).
        -- assert (Ok o = Err nodePanic) by (apply Hn2; eauto). done.
        -- assert (Ok es = Err nodePanic) by (apply IH2; eauto). done.
      * split; [intros msg [= <-]; by apply IH1|].
        rewrite (IH1 _ eq_refl) in *. split; [|done].
        intros _. destruct (proj1 IH2 eq_refl) as (x & Hx & Ht).
        exists x. split; [|done]. apply reached_cons. by right.
    + rewrite (Hn1 _ eq_refl) in *. split; [by intros msg [= <-]|]. split; [|done].
      intros _. destruct (proj1 Hn2 eq_refl) as (x & Hx & Ht).
      exists x. split; [|done]. apply reached_cons. by left.
Qed.

Lemma convertNode_panics n : panicsRight convertNode n.
Proof.
  induction n as [n IH] using Node_tree_ind.
  apply convertAll_panics in IH as [IH1 IH2].
  assert (∀ text tag,
            ¬ blankText n → taken n →
            (∀ msg, rbind (convertAll convertNode (Children n))
                      (λ cs, Ok (Some (Element.Build text tag (Attr n) cs false))) = Err msg →
                    msg = nodePanic)
            ∧ (rbind (convertAll convertNode (Children n))
                 (λ cs, Ok (Some (Element.Build text tag (Attr n) cs false))) = Err nodePanic
               ↔ ∃ x, reached [n] x ∧ ¬ taken x)) as Hbuild.
  { intros text tag Hb Ht. unfold rbind.
    destruct (convertAll convertNode (Children n)) as [cs|msg0] eqn:Hcs.
    - split; [done|]. split; [done|].
      intros (x & [->|[_ Hx]]%reached_node & Hx'); [done|].
      assert (Ok cs = Err nodePanic) by (apply IH2; eauto). done.
    - rewrite (IH1 _ eq_refl) in *. split; [by intros msg [= <-]|]. split; [|done].
      intros _. destruct (proj1 IH2 eq_refl) as (x & Hx & Hx').
      exists x. split; [|done]. apply reached_node. by right. }
  destruct n as [ty data attr children]. simpl in *.
  destruct ty; simpl.
  all: try (split; [by intros msg [= <-]|]; split; [|done]; intros _;
            eexists; split; [apply reached_top, list_elem_of_singleton; reflexivity|];
            unfold taken; simpl; by intros [|[|]]).
  - destruct (omitNode (normalizeText data)) eqn:Ho.
    + split; [done|]. split; [done|].
      intros (x & [->|[Hb _]]%reached_node & Hx).
      * destruct Hx. by left.
      * destruct Hb. by split.
    + apply Hbuild; [|by left]. intros [_ Hb]. simpl in Hb. congruence.
  - apply Hbuild; [|right; by left]. by intros [? _].
  - apply Hbuild; [|right; by right]. by intros [? _].
Qed.

Lemma taken_dec n : taken n ∨ ¬ taken n.
Proof.
  unfold taken. destruct (Type' n); first [by left; eauto | right; by intros [|[|]]].
Qed.

(** [hNodeToElement] panics if and only if it comes to a node that is
    neither text, document nor element, such as a comment or a doctype; a
    node below a blank text node does not count.  It has no other panic. *)
Theorem hNodeToElement_panics_iff (nodes : list Node) :
  (hNodeToElement nodes = Err nodePanic ↔ ∃ n, reached nodes n ∧ ¬ taken n)
  ∧ ((∃ es, hNodeToElement nodes = Ok es) ↔ ∀ n, reached nodes n → taken n).
Proof.
  assert (Forall (panicsRight convertNode) nodes) as H.
  { apply Forall_forall. intros n _. apply convertNode_panics. }
  apply convertAll_panics in H as [H1 H2]. unfold hNodeToElement.
  split; [done|]. split.
  - intros [es Hes] n Hn. destruct (taken_dec n) as [|Hx]; [done|].
    assert (convertAll convertNode nodes = Err nodePanic) by (apply H2; eauto). congruence.
  - intros Hall. destruct (convertAll convertNode nodes) as [es|msg] eqn:Hes; [eauto|].
    rewrite (H1 _ eq_refl) in H2. destruct (proj1 H2 eq_refl) as (x & Hx & Hx').
    destruct Hx'. by apply Hall.
Qed.

Lemma convertAll_well_formed nodes :
  Forall (λ n, ∀ e, convertNode n = Ok (Some e) → everyRaw wellFormedRaw e = true) nodes →
  ∀ es, convertAll convertNode nodes = Ok es →
        forallb (everyRaw wellFormedRaw) es = true.
Proof.
  induction 1 as [|n nodes Hn _ IH]; intros es; simpl; [by intros [= <-]|].
  unfold rbind. destruct (convertNode n) as [o|] eqn:Hc; [|done].
  destruct (convertAll convertNode nodes) as [es'|]; [|done].
  intros [= <-]. destruct o as [e|]; [|by apply IH].
  simpl. rewrite (IH _ eq_refl). rewrite andb_true_r. by apply Hn.
Qed.

Lemma convertNode_well_formed n :
  ∀ e, convertNode n = Ok (Some e) → everyRaw wellFormedRaw e = true.
Proof.
  induction n as [n IH] using Node_tree_ind. intros e.
  pose proof (convertAll_well_formed _ IH) as Hcs.
  destruct n as [ty data attr children]. simpl in *.
  destruct ty; simpl; try done.
  - destruct (omitNode (normalizeText data)) eqn:Ho; [done|].
    unfold rbind. destruct (convertAll convertNode children) as [cs|]; [|done].
    intros [= <-]. simpl. rewrite (Hcs _ eq_refl), andb_true_r.
    unfold wellFormedRaw. simpl. unfold normalizeText, collapseSpaces.
    rewrite collapse_go_single_spaced.
    unfold omitNode in Ho. apply orb_false_iff in Ho as [Ho _].
    unfold normalizeText, collapseSpaces in Ho. rewrite Ho.
    simpl. by rewrite orb_true_r.
  - unfold rbind. destruct (convertAll convertNode children) as [cs|]; [|done].
    intros [= <-]. simpl. by rewrite (Hcs _ eq_refl).
  - unfold rbind. destruct (convertAll convertNode children) as [cs|]; [|done].
    intros [= <-]. simpl. by rewrite (Hcs _ eq_refl).
Qed.

(** What [hNodeToElement] returns is well formed at every depth: no element
    is marked as root, and an element with a text is a [__string] element
    whose text is single spaced and is not the lone space. *)
Theorem hNodeToElement_well_formed (nodes : list Node) (es : list Element.t) :
  hNodeToElement nodes = Ok es →
  Forall (λ e, everyRaw wellFormedRaw e = true) es.
Proof.
  intros H. apply (convertAll_well_formed nodes) in H.
  - apply Forall_forall. intros e He.
    rewrite forallb_forall in H. apply H. by apply list_elem_of_In.
  - apply Forall_forall. intros n _. apply convertNode_well_formed.
Qed.

Lemma hNodeToElement_well_formed_witness :
  let nodes :=
    [MkNode ElementNode "div" []
       [MkNode TextNode (" a  b" +:+ nl) [] [];
        MkNode TextNode "   " [] [];
        MkNode ElementNode "p" [] []]] in
  ∃ es, hNodeToElement nodes = Ok es
        ∧ Forall (λ e, everyRaw wellFormedRaw e = true) es.
Proof.
  intros nodes.
  destruct (hNodeToElement nodes) as [es|] eqn:H; [|vm_compute in H; discriminate].
  exists es. split; [done|]. exact (hNodeToElement_well_formed nodes es H).
Defined.

End HtmlFacts.

(** ** The lifted tree, level by level *)

Module LifterTree.
Import Lifter.

Lemma parseNode_children e b v :
  parseNode e = Ok (b, v) → parseList (Element.Children e) = Ok (Children v).
Proof.
  destruct e as [text tag attrs children root]. simpl. unfold rbind, parseList.
  destruct (classifyAttrs emptyBuckets attrs) as [b'|]; [|done].
  destruct (parseSiblings parseNode children 0 _) as [ch|]; [|done].
  by intros [= <- <-].
Qed.

Lemma parseSiblings_children es i w l :
  parseSiblings parseNode es i w = Ok l →
  ∃ chs, Children <$> l = (Children <$> vs w) ++ chs
         ∧ Forall2 (λ e ch, parseList (Element.Children e) = Ok ch) es chs.
Proof.
  revert i w. induction es as [|e es IH]; intros i w H.
  - simpl in H. simplify_eq. exists []. by rewrite app_nil_r.
  - simpl in H. unfold rbind in H.
    destruct (parseNode e) as [[b v]|] eqn:He; [|done].
    destruct (linkElse i v (vElse b) (vElseIf b) w) as [w'|] eqn:Hl; [|done].
    apply IH in H as (chs & -> & Hchs).
    rewrite (LifterWalk.linkElse_fmap Children _ _ _ _ _ _ (λ _ _, eq_refl) Hl).
    exists (Children v :: chs). rewrite <- app_assoc. split; [done|].
    constructor; [|done]. by eapply parseNode_children.
Qed.

(** The children of a lifted element are what [parseList] returns for the
    children of its raw element: what holds of every result of [parseList]
    holds at every level of the tree. *)
Theorem parseList_children (es : list Element.t) (l : list VueElement)
    (i : nat) (e : Element.t) (v : VueElement) :
  parseList es = Ok l → es !! i = Some e → l !! i = Some v →
  parseList (Element.Children e) = Ok (Children v).
Proof.
  intros (chs & Hl & Hchs)%parseSiblings_children He Hv. simpl in Hl.
  assert (chs !! i = Some (Children v)) as Hc.
  { by rewrite <- Hl, list_lookup_fmap, Hv. }
  by eapply Forall2_lookup_lr in Hchs.
Qed.

Lemma parseList_children_witness :
  ∃ l v, parseList [Element.Build EmptyString "ul" [] [tag "li" [attr "v-if" "a"]; tag "li" [attr "v-else" EmptyString]] false]
         = Ok l
       ∧ l !! 0 = Some v
       ∧ parseList [tag "li" [attr "v-if" "a"]; tag "li" [attr "v-else" EmptyString]]
         = Ok (Children v).
Proof.
  set (es := [Element.Build EmptyString "ul" [] [tag "li" [attr "v-if" "a"]; tag "li" [attr "v-else" EmptyString]] false]).
  destruct (parseList es) as [l|] eqn:H; [|vm_compute in H; discriminate].
  destruct (l !! 0) as [v|] eqn:Hv;
    [|apply (f_equal (λ r, match r with Ok x => x !! 0 | Err _ => None end)) in H;
      rewrite Hv in H; vm_compute in H; discriminate].
  exists l, v. split; [done|]. split; [done|].
  exact (parseList_children es l 0 _ v H eq_refl Hv).
Defined.

(** The ordered key lists go with their maps. *)
Local Abbreviation keysMirror sk s ak a :=
  (list_to_set sk =@{gset string} dom s ∧ list_to_set ak =@{gset string} dom a).

Lemma styleDecl_keys b v :
  keysMirror (styleKeys b) (style b) (attrsKeys b) (attrs b) →
  keysMirror (styleKeys (styleDecl b v)) (style (styleDecl b v))
             (attrsKeys (styleDecl b v)) (attrs (styleDecl b v)).
Proof.
  intros [Hs Ha]. unfold styleDecl.
  destruct (Strings.Split _ _) as [|k [|x [|? ?]]]; try done.
  simpl. split; [|done].
  rewrite list_to_set_app_L, dom_insert_L, Hs. simpl. set_solver.
Qed.

Lemma styleDecls_keys l b :
  keysMirror (styleKeys b) (style b) (attrsKeys b) (attrs b) →
  keysMirror (styleKeys (foldl styleDecl b l)) (style (foldl styleDecl b l))
             (attrsKeys (foldl styleDecl b l)) (attrs (foldl styleDecl b l)).
Proof.
  revert b. induction l as [|v l IH]; intros b Hb; [done|].
  simpl. by apply IH, styleDecl_keys.
Qed.

Lemma classifyAttr_keys b a b' :
  keysMirror (styleKeys b) (style b) (attrsKeys b) (attrs b) →
  classifyAttr b a = Ok b' →
  keysMirror (styleKeys b') (style b') (attrsKeys b') (attrs b').
Proof.
  intros Hb. unfold classifyAttr.
  destruct (match Strings.Split (Attribute.Key a) ":" with
            | [s0; s1] => (s0, s1)
            | _ => ("-", Attribute.Key a)
            end) as [nameSpace key].
  destruct (_ || _); [by intros [= <-]|].
  destruct (Strings.HasPrefix _ _).
  - repeat (case_bool_decide; [try by intros [= <-]|]).
    + unfold rbind. destruct (parseVFor _); [|done]. by intros [= <-].
    + destruct (if negb _ then _ else _). by intros [= <-].
  - case_bool_decide; [by intros [= <-]|].
    case_bool_decide; [intros [= <-]; by apply styleDecls_keys|].
    intros [= <-]. simpl. destruct Hb as [Hs Ha]. split; [done|].
    rewrite list_to_set_app_L, dom_insert_L, Ha. simpl. set_solver.
Qed.

Lemma classifyAttrs_keys l b b' :
  keysMirror (styleKeys b) (style b) (attrsKeys b) (attrs b) →
  classifyAttrs b l = Ok b' →
  keysMirror (styleKeys b') (style b') (attrsKeys b') (attrs b').
Proof.
  revert b. induction l as [|a l IH]; intros b Hb; simpl; [by intros [= <-]|].
  unfold rbind. destruct (classifyAttr b a) as [b1|] eqn:Ha; [|done].
  apply IH. by eapply classifyAttr_keys.
Qed.

Lemma parseNode_keys e b v :
  parseNode e = Ok (b, v) →
  keysMirror (StyleKeys v) (Style v) (AttrsKeys v) (Attrs v).
Proof.
  destruct e as [text tag attrs children root]. simpl. unfold rbind.
  destruct (classifyAttrs emptyBuckets attrs) as [b'|] eqn:Hb; [|done].
  destruct (parseSiblings parseNode children 0 _) as [ch|]; [|done].
  intros [= <- <-]. simpl. eapply classifyAttrs_keys; [|done]. simpl.
  by rewrite !dom_empty_L.
Qed.

Lemma parseSiblings_keys es i w l :
  Forall (λ v, keysMirror (StyleKeys v) (Style v) (AttrsKeys v) (Attrs v)) (vs w) →
  parseSiblings parseNode es i w = Ok l →
  Forall (λ v, keysMirror (StyleKeys v) (Style v) (AttrsKeys v) (Attrs v)) l.
Proof.
  set (f := λ v, (StyleKeys v, Style v, AttrsKeys v, Attrs v)).
  assert (∀ l : list VueElement,
            Forall (λ v, keysMirror (StyleKeys v) (Style v) (AttrsKeys v) (Attrs v)) l
            ↔ Forall (λ x : list string * gmap string string * list string * gmap string string,
                        keysMirror x.1.1.1 x.1.1.2 x.1.2 x.2) (f <$> l)) as Hf.
  { intros l0. by rewrite Forall_fmap. }
  revert i w. induction es as [|e es IH]; intros i w Hw H.
  - simpl in H. by simplify_eq.
  - simpl in H. unfold rbind in H.
    destruct (parseNode e) as [[b v]|] eqn:He; [|done].
    destruct (linkElse i v (vElse b) (vElseIf b) w) as [w'|] eqn:Hl; [|done].
    apply IH in H; [done|].
    apply Hf. rewrite (LifterWalk.linkElse_fmap f _ _ _ _ _ _ (λ _ _, eq_refl) Hl).
    apply Forall_app. split; [by apply Hf|].
    apply Forall_singleton. simpl. by eapply parseNode_keys.
Qed.

(** In every element that [parseList] returns, [StyleKeys] lists the keys
    of [Style] and [AttrsKeys] the keys of [Attrs], no key more and no key
    less. *)
Theorem parseList_key_lists (es : list Element.t) (l : list VueElement) :
  parseList es = Ok l →
  Forall (λ v, list_to_set (StyleKeys v) =@{gset string} dom (Style v)
               ∧ list_to_set (AttrsKeys v) =@{gset string} dom (Attrs v)) l.
Proof. intros H. by eapply parseSiblings_keys in H. Qed.

Lemma parseList_key_lists_witness :
  ∃ l, parseList [tag "p" [attr "style" "color: red; top:1; color: blue"; attr "id" "x"]] = Ok l
       ∧ Forall (λ v, list_to_set (StyleKeys v) =@{gset string} dom (Style v)
                      ∧ list_to_set (AttrsKeys v) =@{gset string} dom (Attrs v)) l.
Proof.
  destruct (parseList [tag "p" [attr "style" "color: red; top:1; color: blue"; attr "id" "x"]])
    as [l|] eqn:H; [|vm_compute in H; discriminate].
  exists l. split; [done|]. exact (parseList_key_lists _ l H).
Defined.

End LifterTree.

(** ** [ParseVue] and the root mark *)

Module ParseVueFacts.
Import Lifter.

Lemma everyRaw_unfold P e :
  everyRaw P e = P e && forallb (everyRaw P) (Element.Children e).
Proof. by destruct e. Qed.

Lemma rootFree_unfold v :
  rootFree v = negb (IsRoot v) && forallb rootFree (Children v).
Proof. by destruct v. Qed.

Lemma forallb_Forall {A} (f : A → bool) (l : list A) :
  forallb f l = true ↔ Forall (λ x, f x = true) l.
Proof.
  induction l as [|x l IH]; simpl; [by split|].
  rewrite andb_true_iff, Forall_cons, IH. done.
Qed.

Lemma well_formed_no_root e :
  everyRaw wellFormedRaw e = true → everyRaw (λ x, negb (Element.Root x)) e = true.
Proof.
  induction e as [e IH] using LifterWalk.Element_tree_ind.
  rewrite !everyRaw_unfold, !andb_true_iff, !forallb_Forall.
  intros [Hw Hc]. split.
  - unfold wellFormedRaw in Hw. by apply andb_true_iff in Hw as [Hw _].
  - rewrite Forall_forall in IH, Hc. apply Forall_forall. intros c Hin.
    by apply IH, Hc.
Qed.

Lemma parseSiblings_rootFree es i w l :
  Forall (λ e, ∀ b v, parseNode e = Ok (b, v) → rootFree v = true) es →
  Forall (λ v, rootFree v = true) (vs w) →
  parseSiblings parseNode es i w = Ok l →
  Forall (λ v, rootFree v = true) l.
Proof.
  assert (∀ l : list VueElement,
            Forall (λ v, rootFree v = true) l ↔ Forall (λ x, x = true) (rootFree <$> l)) as Hf.
  { intros l0. by rewrite Forall_fmap. }
  intros Hes. revert i w. induction Hes as [|e es He _ IH]; intros i w Hw H.
  - simpl in H. by simplify_eq.
  - simpl in H. unfold rbind in H.
    destruct (parseNode e) as [[b v]|] eqn:Hn; [|done].
    destruct (linkElse i v (vElse b) (vElseIf b) w) as [w'|] eqn:Hl; [|done].
    apply IH in H; [done|]. apply Hf.
    rewrite (LifterWalk.linkElse_fmap rootFree _ _ _ _ _ _
               (λ u q, ltac:(by destruct u)) Hl).
    apply Forall_app. split; [by apply Hf|].
    apply Forall_singleton. by eapply He.
Qed.

Lemma parseNode_rootFree e :
  everyRaw (λ x, negb (Element.Root x)) e = true →
  ∀ b v, parseNode e = Ok (b, v) → rootFree v = true.
Proof.
  induction e as [e IH] using LifterWalk.Element_tree_ind.
  rewrite everyRaw_unfold, andb_true_iff, forallb_Forall. intros [Hr Hc] b v.
  destruct e as [text tag attrs children root]. simpl in *. unfold rbind.
  destruct (classifyAttrs emptyBuckets attrs) as [b'|]; [|done].
  destruct (parseSiblings parseNode children 0 _) as [ch|] eqn:Hch; [|done].
  intros [= <- <-]. simpl. rewrite Hr. simpl. apply forallb_Forall.
  apply (parseSiblings_rootFree children 0 {| vs := []; ifVueEle := None |} ch);
    [|by constructor|done].
  rewrite Forall_forall in IH, Hc. apply Forall_forall. intros c Hin. by apply IH, Hc.
Qed.

Lemma parseList_rootFree es l :
  Forall (λ e, everyRaw (λ x, negb (Element.Root x)) e = true) es →
  parseList es = Ok l → Forall (λ v, rootFree v = true) l.
Proof.
  intros Hes. apply parseSiblings_rootFree; [|by constructor].
  eapply Forall_impl; [done|]. intros e He. by apply parseNode_rootFree.
Qed.

(** [Parse] returns the element lifted from [e]. *)
Lemma Parse_fields e v :
  Parse e = Ok v →
  IsRoot v = Element.Root e ∧ TagName v = Element.TagName e
  ∧ parseList (Element.Children e) = Ok (Children v).
Proof.
  unfold Parse, parseList. simpl. unfold rbind.
  destruct (parseNode e) as [[b v0]|] eqn:He; [|done].
  destruct (linkElse 0 v0 (vElse b) (vElseIf b) _) as [w'|] eqn:Hl; [|done].
  destruct (vs w' !! 0) as [v1|] eqn:Hv; [|done]. intros [= <-].
  pose proof (LifterWalk.linkElse_fmap (λ u, (IsRoot u, TagName u, Children u))
                _ _ _ _ _ _ (λ _ _, eq_refl) Hl) as Hf.
  simpl in Hf. apply (f_equal (λ l, l !! 0)) in Hf.
  rewrite list_lookup_fmap, Hv in Hf. simpl in Hf. injection Hf as -> -> ->.
  pose proof (LifterTree.parseNode_children _ _ _ He) as Hc.
  apply LifterWalk.parseNode_result in He as (Hs & _). unfold shape, rawShape in Hs.
  by simplify_eq.
Qed.

Lemma Parse_err e msg : Parse e = Err msg → msg ∈ lifterPanics.
Proof.
  unfold Parse, rbind. destruct (parseList [e]) as [l|msg0] eqn:Hl.
  - apply LifterWalk.parseSiblings_shape in Hl. simpl in Hl.
    destruct l as [|v l]; [done|]. done.
  - intros [= <-].
    apply (LifterWalk.parseSiblings_err [e] {| vs := []; ifVueEle := None |});
      [|apply LifterWalk.cursor_ok_init|done].
    apply Forall_forall. intros x _. apply LifterWalk.parseNode_err.
Qed.

Lemma parseList_roots es l :
  parseList es = Ok l → IsRoot <$> l = Element.Root <$> es.
Proof.
  intros H%LifterWalk.parseSiblings_shape. simpl in H.
  apply (f_equal (fmap (λ x : string * string * bool, x.2))) in H.
  by rewrite <- !list_fmap_compose in H.
Qed.

(** In the tree that [ParseVue] returns the top element is never the root,
    an element of the second level is the root exactly if the top element is
    a [template] with this one child, and no element further down is the
    root. *)
Theorem ParseVue_root (nodes : list Html.Node) (v : VueElement) :
  ParseVue nodes = Ok v →
  IsRoot v = false
  ∧ (∀ c, c ∈ Children v →
       (IsRoot c = true ↔ TagName v = "template" ∧ length (Children v) = 1))
  ∧ (∀ c, c ∈ Children v → Forall (λ d, rootFree d = true) (Children c)).
Proof.
  unfold ParseVue, rbind.
  destruct (Html.hNodeToElement nodes) as [es|] eqn:Hes; [|done].
  apply HtmlFacts.convertAll_well_formed in Hes;
    [|apply Forall_forall; intros n _; apply HtmlFacts.convertNode_well_formed].
  apply forallb_Forall in Hes.
  assert (Forall (λ e, everyRaw (λ x, negb (Element.Root x)) e = true) es) as Hnr.
  { eapply Forall_impl; [done|]. intros e. apply well_formed_no_root. }
  clear Hes.
  (* an element whose raw element has no root mark anywhere *)
  assert (∀ e, everyRaw (λ x, negb (Element.Root x)) e = true → Parse e = Ok v →
            IsRoot v = false
            ∧ (∀ c, c ∈ Children v → IsRoot c = false)
            ∧ (∀ c, c ∈ Children v → Forall (λ d, rootFree d = true) (Children c))
            ∧ TagName v = Element.TagName e
            ∧ length (Children v) = length (Element.Children e)) as Hplain.
  { intros e He (Hr & Ht & Hc)%Parse_fields.
    rewrite everyRaw_unfold, andb_true_iff, forallb_Forall in He. destruct He as [He Hce].
    pose proof (parseList_rootFree _ _ Hce Hc) as Hfree. rewrite Forall_forall in Hfree.
    split; [rewrite Hr; by destruct (Element.Root e)|].
    split; [|split; [|split; [done|]]].
    - intros c Hin. specialize (Hfree c Hin).
      rewrite rootFree_unfold, andb_true_iff in Hfree. destruct Hfree as [Hf _].
      by destruct (IsRoot c).
    - intros c Hin. specialize (Hfree c Hin).
      rewrite rootFree_unfold, andb_true_iff, forallb_Forall in Hfree. by destruct Hfree.
    - apply LifterWalk.parseSiblings_shape in Hc. simpl in Hc.
      apply (f_equal length) in Hc. by rewrite !length_fmap in Hc. }
  unfold parseRoot.
  destruct es as [|e0 [|e1 es]].
  - intros H. apply Hplain in H as (H1 & H2 & H3 & H4 & H5); [|done].
    split; [done|]. split; [|done]. intros c Hin. simpl in H5.
    destruct (Children v); [by apply elem_of_nil in Hin|done].
  - apply (proj1 (Forall_singleton _ _)) in Hnr. cbv beta in Hnr.
    case_bool_decide as Htpl.
    + unfold markRoot.
      destruct (Element.Children e0) as [|c0 [|c1 cs]] eqn:Hch.
      * intros H. apply Hplain in H as (H1 & H2 & H3 & H4 & H5); [|done].
        split; [done|]. split; [|done]. intros c Hin. rewrite Hch in H5.
        destruct (Children v); [by apply elem_of_nil in Hin|done].
      * intros (Hr & Ht & Hc)%Parse_fields. simpl in Hr, Ht, Hc.
        rewrite everyRaw_unfold, Hch in Hnr. simpl in Hnr.
        rewrite !andb_true_iff in Hnr. destruct Hnr as (Hr0 & Hc0 & _).
        rewrite everyRaw_unfold, andb_true_iff, forallb_Forall in Hc0.
        destruct Hc0 as [_ Hc0].
        pose proof (parseList_roots _ _ Hc) as Hroots. simpl in Hroots.
        destruct (Children v) as [|c [|c' l]] eqn:Hv; [done| |done].
        injection Hroots as Hroot.
        destruct (Parse_fields
                    (Element.Build (Element.Text c0) (Element.TagName c0)
                       (Element.Attrs c0) (Element.Children c0) true) c) as (_ & _ & Hcc).
        { unfold Parse. rewrite Hc. done. }
        simpl in Hcc. pose proof (parseList_rootFree _ _ Hc0 Hcc) as Hfree.
        split; [rewrite Hr; by destruct (Element.Root e0)|]. split.
        -- intros x ->%list_elem_of_singleton. by rewrite Hroot, Ht, Htpl.
        -- by intros x ->%list_elem_of_singleton.
      * intros H. apply Hplain in H as (H1 & H2 & H3 & H4 & H5); [|done].
        split; [done|]. split; [|done]. intros c Hin. rewrite Hch in H5. simpl in H5.
        rewrite (H2 c Hin), H5. split; [done|]. intros [_ ?]. lia.
    + intros H. apply Hplain in H as (H1 & H2 & H3 & H4 & H5); [|done].
      split; [done|]. split; [|done]. intros c Hin.
      rewrite (H2 c Hin), H4. split; [done|]. by intros [? _].
  - intros H. apply Hplain in H as (H1 & H2 & H3 & H4 & H5).
    + split; [done|]. split; [|done]. intros c Hin. simpl in H5.
      rewrite (H2 c Hin), H5. split; [done|]. intros [_ ?]. lia.
    + rewrite everyRaw_unfold. apply andb_true_iff. split; [done|].
      apply forallb_Forall. exact Hnr.
Qed.

(** [ParseVue] has the panic of [hNodeToElement] and the three panics of
    the lifter, and no other: [vs[0]] in [Parse] is always there. *)
Theorem ParseVue_panics (nodes : list Html.Node) (msg : string) :
  ParseVue nodes = Err msg →
  msg = Html.nodePanic
  ∨ msg = "index out of range [1] with length 1"
  ∨ msg = "v-else-if must below v-if"
  ∨ msg = "v-else must below v-if".
Proof.
  unfold ParseVue, rbind.
  destruct (Html.hNodeToElement nodes) as [es|msg0] eqn:Hes.
  - intros H. right.
    assert (msg ∈ lifterPanics) as Hm.
    { unfold parseRoot in H. destruct es as [|e0 [|e1 es]]; by eapply Parse_err. }
    unfold lifterPanics in Hm. rewrite !elem_of_cons, elem_of_nil in Hm. tauto.
  - intros [= <-]. left.
    assert (Forall (λ n, (∀ m, Html.convertNode n = Err m → m = Html.nodePanic)
                         ∧ (Html.convertNode n = Err Html.nodePanic
                            ↔ ∃ x, reached [n] x ∧ ¬ taken x)) nodes) as H.
    { apply Forall_forall. intros n _. apply HtmlFacts.convertNode_panics. }
    apply HtmlFacts.convertAll_panics in H as [H _]. by apply H.
Qed.

Lemma ParseVue_root_witness :
  let nodes :=
    [Html.MkNode Html.ElementNode "template" []
       [Html.MkNode Html.ElementNode "div" []
          [Html.MkNode Html.TextNode "hi" [] []]]] in
  ∃ v, ParseVue nodes = Ok v
       ∧ IsRoot v = false
       ∧ (∀ c, c ∈ Children v →
            (IsRoot c = true ↔ TagName v = "template" ∧ length (Children v) = 1))
       ∧ (∀ c, c ∈ Children v → Forall (λ d, rootFree d = true) (Children c)).
Proof.
  intros nodes.
  destruct (ParseVue nodes) as [v|] eqn:H; [|vm_compute in H; discriminate].
  exists v. split; [done|]. exact (ParseVue_root nodes v H).
Defined.

Lemma ParseVue_panics_witness :
  let nodes :=
    [Html.MkNode Html.ElementNode "div" []
       [Html.MkNode Html.CommentNode " note " [] []]] in
  ∃ msg, ParseVue nodes = Err msg
         ∧ (msg = Html.nodePanic
            ∨ msg = "index out of range [1] with length 1"
            ∨ msg = "v-else-if must below v-if"
            ∨ msg = "v-else must below v-if").
Proof.
  intros nodes.
  destruct (ParseVue nodes) as [v|msg] eqn:H; [vm_compute in H; discriminate|].
  exists msg. split; [done|]. exact (ParseVue_panics nodes msg H).
Defined.

End ParseVueFacts.

(** ** The static classes *)

Module LifterClass.
Import Lifter.

Lemma mem_snoc c (s : string) d :
  Strings.mem c (s +:+ String d EmptyString) = Strings.mem c s || bool_decide (c = d).
Proof.
  induction s as [|x s IH].
  - rewrite app_empty_l, !mem_cons. by destruct (bool_decide (c = d)).
  - rewrite app_cons, !mem_cons, IH. by rewrite orb_assoc.
Qed.

(** On a separator of one byte [Split] cuts at every such byte: no piece has
    the byte in it. *)
Lemma split_go_pieces (c : ascii) (s cur : string) :
  Strings.mem c cur = false →
  Forall (λ p, Strings.mem c p = false) (Strings.split_go (String c EmptyString) s 0 cur).
Proof.
  revert cur. induction s as [|x s IH]; intros cur Hcur.
  - simpl. by apply Forall_singleton.
  - rewrite split_go_cons, prefix_cons, prefix_empty.
    destruct (decide (c = x)) as [->|Hne].
    + simpl. constructor; [done|]. by apply IH.
    + apply IH. rewrite mem_snoc, Hcur. simpl. by apply bool_decide_eq_false.
Qed.

Local Abbreviation token t := (t ≠ EmptyString ∧ Strings.mem " " t = false).

Lemma class_tokens (val : string) :
  Forall (λ t, token t) (filter (λ v, v ≠ EmptyString) (Strings.Split val " ")).
Proof.
  apply Forall_forall. intros t [Ht Hin]%list_elem_of_filter. split; [done|].
  pose proof (split_go_pieces " " val EmptyString eq_refl) as H.
  rewrite Forall_forall in H. by apply H.
Qed.

Lemma styleDecl_class b v : class (styleDecl b v) = class b.
Proof.
  unfold styleDecl. by destruct (Strings.Split _ _) as [|k [|x [|? ?]]].
Qed.

Lemma styleDecls_class l b : class (foldl styleDecl b l) = class b.
Proof.
  revert b. induction l as [|v l IH]; intros b; [done|].
  simpl. by rewrite IH, styleDecl_class.
Qed.

Lemma classifyAttr_class b a b' :
  Forall (λ t, token t) (class b) →
  classifyAttr b a = Ok b' →
  Forall (λ t, token t) (class b').
Proof.
  intros Hb. unfold classifyAttr.
  destruct (match Strings.Split (Attribute.Key a) ":" with
            | [s0; s1] => (s0, s1)
            | _ => ("-", Attribute.Key a)
            end) as [nameSpace key].
  destruct (_ || _); [by intros [= <-]|].
  destruct (Strings.HasPrefix _ _).
  - repeat (case_bool_decide; [try by intros [= <-]|]).
    + unfold rbind. destruct (parseVFor _); [|done]. by intros [= <-].
    + destruct (if negb _ then _ else _). by intros [= <-].
  - case_bool_decide.
    { intros [= <-]. simpl. apply Forall_app. split; [done|]. apply class_tokens. }
    case_bool_decide; [intros [= <-]; by rewrite styleDecls_class|].
    by intros [= <-].
Qed.

Lemma classifyAttrs_class l b b' :
  Forall (λ t, token t) (class b) →
  classifyAttrs b l = Ok b' →
  Forall (λ t, token t) (class b').
Proof.
  revert b. induction l as [|a l IH]; intros b Hb; simpl; [by intros [= <-]|].
  unfold rbind. destruct (classifyAttr b a) as [b1|] eqn:Ha; [|done].
  apply IH. by eapply classifyAttr_class.
Qed.

Lemma parseNode_class e b v :
  parseNode e = Ok (b, v) → Forall (λ t, token t) (Class v).
Proof.
  destruct e as [text tag attrs children root]. simpl. unfold rbind.
  destruct (classifyAttrs emptyBuckets attrs) as [b'|] eqn:Hb; [|done].
  destruct (parseSiblings parseNode children 0 _) as [ch|]; [|done].
  intros [= <- <-]. simpl. eapply classifyAttrs_class; [|done]. by constructor.
Qed.

Lemma parseSiblings_class es i w l :
  Forall (λ v, Forall (λ t, token t) (Class v)) (vs w) →
  parseSiblings parseNode es i w = Ok l →
  Forall (λ v, Forall (λ t, token t) (Class v)) l.
Proof.
  assert (∀ l : list VueElement,
            Forall (λ v, Forall (λ t, token t) (Class v)) l
            ↔ Forall (λ x : list string, Forall (λ t, token t) x) (Class <$> l)) as Hf.
  { intros l0. by rewrite Forall_fmap. }
  revert i w. induction es as [|e es IH]; intros i w Hw H.
  - simpl in H. by simplify_eq.
  - simpl in H. unfold rbind in H.
    destruct (parseNode e) as [[b v]|] eqn:He; [|done].
    destruct (linkElse i v (vElse b) (vElseIf b) w) as [w'|] eqn:Hl; [|done].
    apply IH in H; [done|].
    apply Hf. rewrite (LifterWalk.linkElse_fmap Class _ _ _ _ _ _ (λ _ _, eq_refl) Hl).
    apply Forall_app. split; [by apply Hf|].
    apply Forall_singleton. by eapply parseNode_class.
Qed.

(** Every static class of an element that [parseList] returns is a token:
    it is not empty and has no space in it, however the [class] attributes
    were spaced. *)
Theorem parseList_class_tokens (es : list Element.t) (l : list VueElement) :
  parseList es = Ok l →
  Forall (λ v, Forall (λ t, t ≠ EmptyString ∧ Strings.mem " " t = false) (Class v)) l.
Proof. intros H. eapply parseSiblings_class in H; [done|by constructor]. Qed.

Lemma parseList_class_tokens_witness :
  ∃ l, parseList [tag "p" [attr "class" "  a   b "; attr "class" "c"]] = Ok l
       ∧ Forall (λ v, Forall (λ t, t ≠ EmptyString ∧ Strings.mem " " t = false) (Class v)) l.
Proof.
  destruct (parseList [tag "p" [attr "class" "  a   b "; attr "class" "c"]])
    as [l|] eqn:H; [|vm_compute in H; discriminate].
  exists l. split; [done|]. exact (parseList_class_tokens _ l H).
Defined.

End LifterClass.

(** ** The else chains are ladders *)

Module LifterLadder.
Import Lifter.

Local Abbreviation openChain c :=
  (Forall (λ x : ElseIf.t (option nat), ElseIf.Types x = "elseif") c).

Lemma ladder_open (c : list (ElseIf.t (option nat))) : openChain c → ladder c = true.
Proof.
  induction 1 as [|x c Hx _ IH]; [done|]. simpl. by rewrite bool_decide_eq_true_2.
Qed.

Lemma ladder_closed (c : list (ElseIf.t (option nat))) y :
  openChain c → ElseIf.Types y = "else" → ladder (c ++ [y]) = true.
Proof.
  intros Hc Hy. induction Hc as [|x c Hx _ IH]; simpl.
  - rewrite Hy. done.
  - by rewrite bool_decide_eq_true_2.
Qed.

(** The chains of [l] are ladders, and the chain under the cursor is open. *)
Local Abbreviation ladders l cur :=
  (∀ j u p, l !! j = Some u → VIf u = Some p →
            ladder (VIf.ElseIf p) = true
            ∧ (cur = Some j → openChain (VIf.ElseIf p))).

Lemma addElseIfAt_open j i x l l' :
  ElseIf.Types x = "elseif" →
  ladders l (Some j) → addElseIfAt j i x l = Ok l' → ladders l' (Some j).
Proof.
  intros Hx Hl (u & p & Hu & Hp & ->)%LifterWalk.addElseIfAt_inv k u' p' Hk Hp'.
  unfold chained in Hk. destruct (decide (k = j)) as [->|Hne].
  - rewrite list_lookup_insert_eq in Hk by by eapply lookup_lt_Some.
    simplify_eq. simpl.
    destruct (Hl j u p Hu Hp) as [_ Hopen].
    assert (openChain (VIf.ElseIf p ++ [pointTo i x])) as Ho.
    { apply Forall_app. split; [by apply Hopen|]. by apply Forall_singleton. }
    simpl in Hp'. injection Hp' as <-. simpl.
    split; [by apply ladder_open|done].
  - rewrite list_lookup_insert_ne in Hk by done. destruct (Hl k u' p' Hk Hp') as [H1 H2].
    split; [done|]. intros [= ->]. done.
Qed.

Lemma addElseIfAt_closed j i y l l' :
  ElseIf.Types y = "else" →
  ladders l (Some j) → addElseIfAt j i y l = Ok l' → ladders l' None.
Proof.
  intros Hy Hl (u & p & Hu & Hp & ->)%LifterWalk.addElseIfAt_inv k u' p' Hk Hp'.
  split; [|done].
  unfold chained in Hk. destruct (decide (k = j)) as [->|Hne].
  - rewrite list_lookup_insert_eq in Hk by by eapply lookup_lt_Some.
    simplify_eq. simpl in Hp'. injection Hp' as <-. simpl.
    destruct (Hl j u p Hu Hp) as [_ Hopen]. apply ladder_closed; [by apply Hopen|done].
  - rewrite list_lookup_insert_ne in Hk by done. by destruct (Hl k u' p' Hk Hp').
Qed.

Lemma linkElse_ladders v vElse vElseIf w w' :
  ladders (vs w) (ifVueEle w) →
  (∀ p, VIf v = Some p → VIf.ElseIf p = []) →
  (∀ y, vElse = Some y → ElseIf.Types y = "else") →
  (∀ x, vElseIf = Some x → ElseIf.Types x = "elseif") →
  linkElse (length (vs w)) v vElse vElseIf w = Ok w' →
  ladders (vs w') (ifVueEle w').
Proof.
  intros Hw Hv Hy Hx. unfold linkElse.
  set (cur1 := if bool_decide (VIf v ≠ None) then _ else _).
  assert (ladders (vs w ++ [v]) cur1) as H1.
  { intros j u p Hu Hp. apply lookup_app_Some in Hu as [Hu|[Hlen Hu]].
    - destruct (Hw j u p Hu Hp) as [Hl Ho]. split; [done|].
      unfold cur1. case_bool_decide.
      + intros [= <-]. apply lookup_lt_Some in Hu. lia.
      + destruct (_ && _); [done|]. exact Ho.
    - apply list_lookup_singleton_Some in Hu as [_ <-].
      rewrite (Hv p Hp). split; [done|]. intros _. constructor. }
  clearbody cur1. intros H.
  destruct vElseIf as [x|]; simpl in H.
  - destruct cur1 as [j|]; [|done].
    destruct (addElseIfAt j _ x (vs w ++ [v])) as [vs2|] eqn:H2; [|done]. simpl in H.
    pose proof (addElseIfAt_open _ _ _ _ _ (Hx x eq_refl) H1 H2) as H2'.
    destruct vElse as [y|].
    + destruct (addElseIfAt j _ y vs2) as [vs3|] eqn:H3; [|done]. simpl in H. simplify_eq.
      simpl. exact (addElseIfAt_closed _ _ _ _ _ (Hy y eq_refl) H2' H3).
    + by simplify_eq.
  - destruct vElse as [y|].
    + destruct cur1 as [j|]; [|done].
      destruct (addElseIfAt j _ y (vs w ++ [v])) as [vs3|] eqn:H3; [|done]. simpl in H.
      simplify_eq. simpl. exact (addElseIfAt_closed _ _ _ _ _ (Hy y eq_refl) H1 H3).
    + by simplify_eq.
Qed.

(** What the attribute loop leaves in the buckets for the chains. *)
Local Abbreviation marks b :=
  ((∀ p, vIf b = Some p → VIf.ElseIf p = [])
   ∧ (∀ y, vElse b = Some y → ElseIf.Types y = "else")
   ∧ (∀ x, vElseIf b = Some x → ElseIf.Types x = "elseif")).

Lemma styleDecl_marks b v : marks b → marks (styleDecl b v).
Proof.
  intros Hb. unfold styleDecl. by destruct (Strings.Split _ _) as [|k [|x [|? ?]]].
Qed.

Lemma styleDecls_marks l b : marks b → marks (foldl styleDecl b l).
Proof.
  revert b. induction l as [|v l IH]; intros b Hb; [done|].
  simpl. by apply IH, styleDecl_marks.
Qed.

Lemma classifyAttr_marks b a b' : marks b → classifyAttr b a = Ok b' → marks b'.
Proof.
  intros Hb. unfold classifyAttr.
  destruct (match Strings.Split (Attribute.Key a) ":" with
            | [s0; s1] => (s0, s1)
            | _ => ("-", Attribute.Key a)
            end) as [nameSpace key].
  destruct (_ || _); [by intros [= <-]|].
  destruct (Strings.HasPrefix _ _).
  - destruct Hb as (H1 & H2 & H3).
    repeat (case_bool_decide;
            [try (intros [= <-]; simpl; repeat split; first [done | by intros ? [= <-]])|]).
    + unfold rbind. destruct (parseVFor _); [|done]. by intros [= <-].
    + destruct (if negb _ then _ else _). by intros [= <-].
  - case_bool_decide; [by intros [= <-]|].
    case_bool_decide; [intros [= <-]; by apply styleDecls_marks|].
    by intros [= <-].
Qed.

Lemma classifyAttrs_marks l b b' : marks b → classifyAttrs b l = Ok b' → marks b'.
Proof.
  revert b. induction l as [|a l IH]; intros b Hb; simpl; [by intros [= <-]|].
  unfold rbind. destruct (classifyAttr b a) as [b1|] eqn:Ha; [|done].
  apply IH. by eapply classifyAttr_marks.
Qed.

Lemma parseNode_marks e b v : parseNode e = Ok (b, v) → marks b ∧ VIf v = vIf b.
Proof.
  destruct e as [text tag attrs children root]. simpl. unfold rbind.
  destruct (classifyAttrs emptyBuckets attrs) as [b'|] eqn:Hb; [|done].
  destruct (parseSiblings parseNode children 0 _) as [ch|]; [|done].
  intros [= <- <-]. split; [|done]. eapply classifyAttrs_marks; [|done]. done.
Qed.

Lemma parseSiblings_ladders es w l :
  ladders (vs w) (ifVueEle w) →
  parseSiblings parseNode es (length (vs w)) w = Ok l →
  ladders l (@None nat).
Proof.
  revert w. induction es as [|e es IH]; intros w Hw H.
  - simpl in H. simplify_eq. intros j u p Hu Hp. by destruct (Hw j u p Hu Hp).
  - simpl in H. unfold rbind in H.
    destruct (parseNode e) as [[b v]|] eqn:He; [|done].
    destruct (linkElse _ v (vElse b) (vElseIf b) w) as [w'|] eqn:Hk; [|done].
    apply parseNode_marks in He as [(M1 & M2 & M3) Hv].
    apply (IH w').
    + eapply linkElse_ladders; [done| |done..]. intros p. rewrite Hv. apply M1.
    + by rewrite (LifterWalk.linkElse_length _ _ _ _ _ _ Hk).
Qed.

(** Every else chain that [parseList] builds is a ladder: entries of type
    [elseif], then at most one entry of type [else], with nothing after
    it. *)
Theorem parseList_ladders (es : list Element.t) (l : list VueElement)
    (v : VueElement) (p : VIf.t (option nat)) :
  parseList es = Ok l → v ∈ l → VIf v = Some p → ladder (VIf.ElseIf p) = true.
Proof.
  intros H (j & Hj)%list_elem_of_lookup Hp.
  assert (ladders l (@None nat)) as Hl.
  { apply (parseSiblings_ladders es {| vs := []; ifVueEle := None |}); [|done].
    by intros k u q. }
  by destruct (Hl j v p Hj Hp).
Qed.

Lemma parseList_ladders_witness :
  ∃ l v p,
    parseList [tag "p" [attr "v-if" "a"]; tag "q" [attr "v-else-if" "b"];
               tag "r" [attr "v-else" EmptyString]] = Ok l
    ∧ l !! 0 = Some v ∧ VIf v = Some p
    ∧ length (VIf.ElseIf p) = 2 ∧ ladder (VIf.ElseIf p) = true.
Proof.
  set (es := [tag "p" [attr "v-if" "a"]; tag "q" [attr "v-else-if" "b"];
              tag "r" [attr "v-else" EmptyString]]).
  destruct (parseList es) as [l|] eqn:H; [|vm_compute in H; discriminate].
  assert (∃ v p, l !! 0 = Some v ∧ VIf v = Some p ∧ length (VIf.ElseIf p) = 2)
    as (v & p & Hv & Hp & Hlen).
  { vm_compute in H. simplify_eq. by eexists _, _. }
  exists l, v, p. do 4 (split; [done|]).
  apply (parseList_ladders es l v p H); [|done]. by eapply list_elem_of_lookup_2.
Defined.

End LifterLadder.
